(** * Campus Life Planner: email validator and storage module

    A shallow embedding of [scripts/email-validator.js] and
    [scripts/storage.js] and the properties their specification states.

    Conventions of the embedding.
    - A JavaScript string is a [string]; each [ascii] stands for one
      UTF-16 code unit in the range U+0000..U+00FF.  Inside the functions
      strings are handled as [list ascii] ([text]).
    - [null] / [undefined] results are [None].
    - Functions that read or write browser storage, or that may throw, live
      in the small state-and-exception monad [M]. *)

From Stdlib Require Import String Ascii List ZArith Lia Bool.
From stdpp Require Import gmap strings list.

Open Scope string_scope.
Open Scope list_scope.

Set Warnings "-register-all".

(** ** JavaScript string primitives *)

Abbreviation text := (list ascii).

Definition chars (s : string) : text := list_ascii_of_string s.
Definition str (t : text) : string := string_of_list_ascii t.

Definition code (c : ascii) : nat := nat_of_ascii c.

Definition in_range (lo hi c : ascii) : bool :=
  (code lo <=? code c)%nat && (code c <=? code hi)%nat.

Definition is_lower (c : ascii) : bool := in_range "a" "z" c.
Definition is_upper (c : ascii) : bool := in_range "A" "Z" c.
Definition is_digit (c : ascii) : bool := in_range "0" "9" c.
Definition is_alpha (c : ascii) : bool := is_lower c || is_upper c.
Definition is_alnum (c : ascii) : bool := is_alpha c || is_digit c.

Definition one_of (s : string) (c : ascii) : bool :=
  existsb (Ascii.eqb c) (chars s).

(** White space and line terminators stripped by [String.prototype.trim],
    restricted to the code units below U+0100: TAB, LF, VT, FF, CR, SP
    and NBSP. *)
Definition is_js_space (c : ascii) : bool :=
  match code c with
  | 9 | 10 | 11 | 12 | 13 | 32 | 160 => true
  | _ => false
  end.

Fixpoint trim_start (s : text) : text :=
  match s with
  | c :: r => if is_js_space c then trim_start r else s
  | [] => []
  end.

Definition trim (s : text) : text := rev (trim_start (rev (trim_start s))).

(** [s.split(c)] for a one-character separator. *)
Fixpoint split_on (c : ascii) (s : text) : list text :=
  match s with
  | [] => [[]]
  | x :: r =>
      if Ascii.eqb x c then [] :: split_on c r
      else match split_on c r with
           | p :: ps => (x :: p) :: ps
           | [] => [[x]]
           end
  end.

Fixpoint starts_with (p s : text) : bool :=
  match p, s with
  | [], _ => true
  | a :: p', b :: s' => Ascii.eqb a b && starts_with p' s'
  | _ :: _, [] => false
  end.

Definition ends_with (p s : text) : bool := starts_with (rev p) (rev s).

Fixpoint includes (p s : text) : bool :=
  starts_with p s ||
  match s with
  | [] => false
  | _ :: r => includes p r
  end.

Definition count_char (c : ascii) (s : text) : nat :=
  length (List.filter (Ascii.eqb c) s).

(** [parts.join(sep)] *)
Fixpoint join (sep : text) (parts : list text) : text :=
  match parts with
  | [] => []
  | [p] => p
  | p :: ps => p ++ sep ++ join sep ps
  end.

(** [s.substr(start, len)] for non-negative arguments. *)
Definition substr (start len : nat) (s : text) : text := take len (drop start s).

(** ** Regular expressions

    The regular expressions of the source are kept as syntax trees and run
    by a derivative matcher. *)

Module Regex.

Inductive regex : Type :=
| Void
| Eps
| Class (p : ascii -> bool)
| Cat (r1 r2 : regex)
| Alt (r1 r2 : regex)
| Star (r : regex).

Definition Plus (r : regex) : regex := Cat r (Star r).
Definition Opt (r : regex) : regex := Alt Eps r.
Definition Chr (c : ascii) : regex := Class (Ascii.eqb c).
Definition Any : regex := Class (fun _ => true).

(** [r{0,n}] *)
Fixpoint Upto (n : nat) (r : regex) : regex :=
  match n with
  | O => Eps
  | S n' => Opt (Cat r (Upto n' r))
  end.

(** [r{n}] *)
Fixpoint Rep (n : nat) (r : regex) : regex :=
  match n with
  | O => Eps
  | S n' => Cat r (Rep n' r)
  end.

(** The words of a regular expression. *)
Inductive lang : regex -> text -> Prop :=
| lang_eps : lang Eps []
| lang_class p c : p c = true -> lang (Class p) [c]
| lang_cat r1 r2 s1 s2 : lang r1 s1 -> lang r2 s2 -> lang (Cat r1 r2) (s1 ++ s2)
| lang_alt_l r1 r2 s : lang r1 s -> lang (Alt r1 r2) s
| lang_alt_r r1 r2 s : lang r2 s -> lang (Alt r1 r2) s
| lang_star_nil r : lang (Star r) []
| lang_star_cons r s1 s2 : lang r s1 -> lang (Star r) s2 -> lang (Star r) (s1 ++ s2).

Fixpoint nullable (r : regex) : bool :=
  match r with
  | Void => false
  | Eps => true
  | Class _ => false
  | Cat a b => nullable a && nullable b
  | Alt a b => nullable a || nullable b
  | Star _ => true
  end.

(** Constructors that drop dead branches, so derivatives stay small. *)
Definition cat (a b : regex) : regex :=
  match a, b with
  | Void, _ => Void
  | _, Void => Void
  | Eps, _ => b
  | _, _ => Cat a b
  end.

Definition alt (a b : regex) : regex :=
  match a, b with
  | Void, _ => b
  | _, Void => a
  | _, _ => Alt a b
  end.

Fixpoint deriv (c : ascii) (r : regex) : regex :=
  match r with
  | Void => Void
  | Eps => Void
  | Class p => if p c then Eps else Void
  | Cat a b =>
      if nullable a then alt (cat (deriv c a) b) (deriv c b)
      else cat (deriv c a) b
  | Alt a b => alt (deriv c a) (deriv c b)
  | Star a => cat (deriv c a) (Star a)
  end.

Fixpoint matches (r : regex) (s : text) : bool :=
  match s with
  | [] => nullable r
  | c :: s' => matches (deriv c r) s'
  end.

(** [/^r$/.test(s)] *)
Definition test_anchored (r : regex) (s : text) : bool := matches r s.

(** [/r/.test(s)]: the pattern may match anywhere in [s]. *)
Definition test_search (r : regex) (s : text) : bool :=
  matches (Cat (Star Any) (Cat r (Star Any))) s.

End Regex.

(** ** scripts/email-validator.js *)

Module EmailValidator.
Import Regex.

(** [[a-zA-Z0-9.!#$%&'*+\/=?^_`{|}~-]] *)
Definition local_char (c : ascii) : bool :=
  is_alnum c || one_of ".!#$%&'*+/=?^_`{|}~-" c.

(** [[a-zA-Z0-9-]] *)
Definition alnum_hyphen (c : ascii) : bool := is_alnum c || Ascii.eqb c "-".

(** [[a-zA-Z0-9](?:[a-zA-Z0-9-]{0,61}[a-zA-Z0-9])?] *)
Definition labelRegex : regex :=
  Cat (Class is_alnum) (Opt (Cat (Upto 61 (Class alnum_hyphen)) (Class is_alnum))).

(** The body of [emailRegex], between [^] and [$]. *)
Definition emailRegex : regex :=
  Cat (Plus (Class local_char))
      (Cat (Chr "@")
           (Cat labelRegex (Star (Cat (Chr ".") labelRegex)))).

(** The body of the [for (const label of domainLabels)] loop: [true] when
    the label passes all three checks. *)
Definition label_passes (label : text) : bool :=
  if (length label =? 0)%nat || (63 <? length label)%nat then false
  else if starts_with (chars "-") label || ends_with (chars "-") label then false
  else if negb (test_anchored (Plus (Class alnum_hyphen)) label) then false
  else true.

Definition isValidEmail (email : string) : bool :=
  if String.eqb email "" then false
  else
    let email := trim (chars email) in
    if (length email =? 0)%nat || (254 <? length email)%nat then false
    else if negb (test_anchored emailRegex email) then false
    else
      let parts := split_on "@" email in
      let localPart := nth 0 parts [] in
      let domain := nth_error parts 1 in
      if (length localPart =? 0)%nat || (64 <? length localPart)%nat then false
      else if negb (test_search (Class is_alpha) localPart) then false
      else if starts_with (chars ".") localPart || ends_with (chars ".") localPart then false
      else if includes (chars "..") localPart then false
      else
        match domain with
        | None => false
        | Some domain =>
            if (length domain =? 0)%nat || (253 <? length domain)%nat then false
            else if negb (includes (chars ".") domain) then false
            else if starts_with (chars ".") domain || ends_with (chars ".") domain
                    || starts_with (chars "-") domain || ends_with (chars "-") domain
            then false
            else
              let domainLabels := split_on "." domain in
              if negb (forallb label_passes domainLabels) then false
              else
                let tld := List.last domainLabels [] in
                if (length tld <? 2)%nat || negb (test_anchored (Plus (Class is_alpha)) tld)
                then false
                else true
        end.

Definition getEmailValidationError (email : string) : option string :=
  if String.eqb email "" then Some "Email address is required"
  else
    let email := trim (chars email) in
    if (length email =? 0)%nat then Some "Email address is required"
    else if (254 <? length email)%nat then
      Some "Email address is too long (maximum 254 characters)"
    else if negb (includes (chars "@") email) then
      Some "Email address must contain @ symbol"
    else
      let atCount := count_char "@" email in
      if (1 <? atCount)%nat then Some "Email address can only contain one @ symbol"
      else
        let parts := split_on "@" email in
        let localPart := nth 0 parts [] in
        let domain := nth_error parts 1 in
        if (length localPart =? 0)%nat then
          Some "Email address must have at least one character before @"
        else if negb (test_search (Class is_alpha) localPart) then
          Some "Username must contain at least one letter"
        else if (64 <? length localPart)%nat then
          Some "Local part is too long (maximum 64 characters)"
        else if starts_with (chars ".") localPart || ends_with (chars ".") localPart then
          Some "Local part cannot start or end with a dot"
        else if includes (chars "..") localPart then
          Some "Local part cannot contain consecutive dots"
        else
          match domain with
          | None => Some "Email address must have a domain after @"
          | Some domain =>
              if (length domain =? 0)%nat then
                Some "Email address must have a domain after @"
              else if negb (includes (chars ".") domain) then
                Some "Domain must contain at least one dot"
              else if starts_with (chars ".") domain || ends_with (chars ".") domain then
                Some "Domain cannot start or end with a dot"
              else if starts_with (chars "-") domain || ends_with (chars "-") domain then
                Some "Domain cannot start or end with a hyphen"
              else
                let domainLabels := split_on "." domain in
                let tld := List.last domainLabels [] in
                if (length tld <? 2)%nat then
                  Some "Top-level domain must be at least 2 characters"
                else if negb (test_anchored (Plus (Class is_alpha)) tld) then
                  Some "Top-level domain must contain only letters"
                else if negb (isValidEmail (str email)) then
                  Some "Please enter a valid email address"
                else None
          end.

End EmailValidator.

(** ** JSON values, [JSON.stringify] and [JSON.parse] *)

Module JSON.

(** A JSON number is kept exactly, as [mant / 10 ^ scale]; the rounding of
    IEEE doubles is not modelled. *)
Record number : Type := Num { mant : Z; scale : nat }.

(** The values [JSON.parse] can return.  An object is the list of its own
    properties in the order they were created; the rule that puts
    integer-like property names first is not modelled. *)
Inductive json : Type :=
| JNull
| JBool (b : bool)
| JNum (n : number)
| JStr (s : string)
| JArr (items : list json)
| JObj (fields : list (string * json)).

Definition dq : ascii := "034"%char.
Definition bslash : ascii := "092"%char.
Definition newline : ascii := "010"%char.

(** *** Decimal digits *)

Definition digit_char (d : N) : ascii := ascii_of_N (48 + d).
Definition digit_val (c : ascii) : N := (N_of_ascii c - 48)%N.

(** The [w] least significant decimal digits of [n]. *)
Fixpoint digits_fixed (w : nat) (n : N) : text :=
  match w with
  | O => []
  | S w' => digits_fixed w' (n / 10)%N ++ [digit_char (n mod 10)%N]
  end.

Fixpoint strip_zeros (s : text) : text :=
  match s with
  | c :: r => if Ascii.eqb c "0" then strip_zeros r else s
  | [] => []
  end.

Definition decimal (n : N) : text :=
  match strip_zeros (digits_fixed (N.to_nat (N.size n)) n) with
  | [] => ["0"%char]
  | ds => ds
  end.

Definition digits_value (ds : text) : N :=
  fold_left (fun acc c => (acc * 10 + digit_val c)%N) ds 0%N.

Fixpoint take_digits (s : text) : text :=
  match s with
  | c :: r => if is_digit c then c :: take_digits r else []
  | [] => []
  end.

Fixpoint drop_digits (s : text) : text :=
  match s with
  | c :: r => if is_digit c then drop_digits r else s
  | [] => []
  end.

(** *** Numbers *)

Definition number_to_text (n : number) : text :=
  let a := Z.abs_N (mant n) in
  let p := (10 ^ N.of_nat (scale n))%N in
  (if (mant n <? 0)%Z then ["-"%char] else [])
  ++ decimal (a / p)%N
  ++ (if (scale n =? 0)%nat then [] else "."%char :: digits_fixed (scale n) (a mod p)%N).

Definition make_number (neg : bool) (digits : N) (exp10 : Z) : number :=
  let m := if neg then (- Z.of_N digits)%Z else Z.of_N digits in
  if (0 <=? exp10)%Z then Num (m * 10 ^ exp10)%Z 0
  else Num m (Z.to_nat (- exp10)).

(** The JSON number grammar: an optional minus sign; an integer part that
    is [0] or starts with a non-zero digit; an optional fraction of a dot
    and at least one digit; an optional exponent of [e] or [E], an optional
    sign and at least one digit. *)
Definition parse_unsigned (neg : bool) (s1 : text) : option (number * text) :=
  let ip := take_digits s1 in
  let s2 := drop_digits s1 in
  match ip with
  | [] => None
  | d :: ds =>
      if Ascii.eqb d "0" && negb (length ds =? 0)%nat then None
      else
        let frac :=
          match s2 with
          | c :: r =>
              if Ascii.eqb c "." then
                match take_digits r with
                | [] => None
                | fp => Some (fp, drop_digits r)
                end
              else Some ([], s2)
          | [] => Some ([], s2)
          end in
        match frac with
        | None => None
        | Some (fp, s3) =>
            let expo :=
              match s3 with
              | c :: r =>
                  if Ascii.eqb c "e" || Ascii.eqb c "E" then
                    let '(eneg, r1) :=
                      match r with
                      | g :: r' =>
                          if Ascii.eqb g "-" then (true, r')
                          else if Ascii.eqb g "+" then (false, r')
                          else (false, r)
                      | [] => (false, r)
                      end in
                    match take_digits r1 with
                    | [] => None
                    | ep =>
                        let e := Z.of_N (digits_value ep) in
                        Some (if eneg then (- e)%Z else e, drop_digits r1)
                    end
                  else Some (0%Z, s3)
              | [] => Some (0%Z, s3)
              end in
            match expo with
            | None => None
            | Some (e, s4) =>
                Some (make_number neg (digits_value (ip ++ fp))
                        (e - Z.of_nat (length fp))%Z, s4)
            end
        end
  end.

Definition parse_number (s : text) : option (number * text) :=
  match s with
  | c :: r => if Ascii.eqb c "-" then parse_unsigned true r else parse_unsigned false s
  | [] => None
  end.

(** *** Strings *)

Definition hex_digit (n : N) : ascii :=
  if (n <? 10)%N then ascii_of_N (48 + n) else ascii_of_N (87 + n).

Definition hex_val (c : ascii) : option N :=
  if is_digit c then Some (N_of_ascii c - 48)%N
  else if in_range "a" "f" c then Some (N_of_ascii c - 87)%N
  else if in_range "A" "F" c then Some (N_of_ascii c - 55)%N
  else None.

(** QuoteJSONString, one code unit at a time. *)
Definition quote_char (c : ascii) : text :=
  if Ascii.eqb c dq then [bslash; dq]
  else if Ascii.eqb c bslash then [bslash; bslash]
  else
    match code c with
    | 8 => [bslash; "b"%char]
    | 9 => [bslash; "t"%char]
    | 10 => [bslash; "n"%char]
    | 12 => [bslash; "f"%char]
    | 13 => [bslash; "r"%char]
    | n =>
        if (n <? 32)%nat then
          [bslash; "u"%char; "0"%char; "0"%char;
           hex_digit (N.of_nat n / 16); hex_digit (N.of_nat n mod 16)]
        else [c]
    end.

Definition quote (s : text) : text := dq :: flat_map quote_char s ++ [dq].

Definition unescape (e : ascii) : option ascii :=
  if Ascii.eqb e dq then Some dq
  else if Ascii.eqb e bslash then Some bslash
  else if Ascii.eqb e "/" then Some "/"%char
  else if Ascii.eqb e "b" then Some "008"%char
  else if Ascii.eqb e "f" then Some "012"%char
  else if Ascii.eqb e "n" then Some "010"%char
  else if Ascii.eqb e "r" then Some "013"%char
  else if Ascii.eqb e "t" then Some "009"%char
  else None.

Definition hex4 (a b c d : ascii) : option N :=
  match hex_val a, hex_val b, hex_val c, hex_val d with
  | Some x, Some y, Some z, Some w => Some (((x * 16 + y) * 16 + z) * 16 + w)%N
  | _, _, _, _ => None
  end.

Definition cons_fst {A B : Type} (a : A) (r : option (list A * B)) : option (list A * B) :=
  match r with
  | Some (l, b) => Some (a :: l, b)
  | None => None
  end.

(** The characters of a string literal after its opening quote, up to and
    including the closing quote.  An escape [\uXXXX] above U+00FF denotes a
    code unit outside the modelled range and is refused. *)
Fixpoint parse_string_body (s : text) : option (text * text) :=
  match s with
  | [] => None
  | c :: r =>
      if Ascii.eqb c dq then Some ([], r)
      else if Ascii.eqb c bslash then
        match r with
        | [] => None
        | e :: r' =>
            if Ascii.eqb e "u" then
              match r' with
              | h1 :: h2 :: h3 :: h4 :: r'' =>
                  match hex4 h1 h2 h3 h4 with
                  | Some n =>
                      if (n <? 256)%N then cons_fst (ascii_of_N n) (parse_string_body r'')
                      else None
                  | None => None
                  end
              | _ => None
              end
            else
              match unescape e with
              | Some ch => cons_fst ch (parse_string_body r')
              | None => None
              end
        end
      else if (code c <? 32)%nat then None
      else cons_fst c (parse_string_body r)
  end.

(** *** Objects as ordered property lists *)

Fixpoint lookup_field (k : string) (fs : list (string * json)) : option json :=
  match fs with
  | [] => None
  | (k', v) :: r => if String.eqb k k' then Some v else lookup_field k r
  end.

(** [o[k] = v]: an existing property keeps its place, a new one goes last. *)
Fixpoint set_field (k : string) (v : json) (fs : list (string * json)) : list (string * json) :=
  match fs with
  | [] => [(k, v)]
  | (k', v') :: r =>
      if String.eqb k k' then (k, v) :: r else (k', v') :: set_field k v r
  end.

Definition set_fields (src target : list (string * json)) : list (string * json) :=
  fold_left (fun acc kv => set_field (fst kv) (snd kv) acc) src target.

(** Every object, at any depth, has pairwise distinct property names. *)
Fixpoint wf (v : json) : bool :=
  match v with
  | JArr l => forallb wf l
  | JObj fs =>
      bool_decide (NoDup (map fst fs)) && forallb (fun kv => wf (snd kv)) fs
  | _ => true
  end.

(** *** JSON.stringify *)

(** The line break before an item: nothing in compact mode. *)
Definition line_break (gap indent : text) : text :=
  match gap with
  | [] => []
  | _ => newline :: indent
  end.

Definition colon (gap : text) : text :=
  match gap with
  | [] => [":"%char]
  | _ => [":"%char; " "%char]
  end.

(** SerializeJSONProperty with the given [gap], at indentation [indent]. *)
Fixpoint ser (gap indent : text) (v : json) : text :=
  match v with
  | JNull => chars "null"
  | JBool true => chars "true"
  | JBool false => chars "false"
  | JNum n => number_to_text n
  | JStr s => quote (chars s)
  | JArr l =>
      match l with
      | [] => chars "[]"
      | _ =>
          let inner := indent ++ gap in
          "["%char :: line_break gap inner
            ++ join (","%char :: line_break gap inner) (map (ser gap inner) l)
            ++ line_break gap indent ++ ["]"%char]
      end
  | JObj fs =>
      match fs with
      | [] => chars "{}"
      | _ =>
          let inner := indent ++ gap in
          "{"%char :: line_break gap inner
            ++ join (","%char :: line_break gap inner)
                 (map (fun kv => quote (chars (fst kv)) ++ colon gap ++ ser gap inner (snd kv)) fs)
            ++ line_break gap indent ++ ["}"%char]
      end
  end.

(** [JSON.stringify(v)] *)
Definition JSON_stringify (v : json) : string := str (ser [] [] v).

(** [JSON.stringify(v, null, n)] *)
Definition JSON_stringify_indent (n : nat) (v : json) : string :=
  str (ser (repeat " "%char (Nat.min n 10)) [] v).

(** *** JSON.parse *)

Definition is_ws (c : ascii) : bool :=
  match code c with
  | 9 | 10 | 13 | 32 => true
  | _ => false
  end.

Fixpoint skip_ws (s : text) : text :=
  match s with
  | c :: r => if is_ws c then skip_ws r else s
  | [] => []
  end.

Fixpoint strip_prefix (p s : text) : option text :=
  match p, s with
  | [], _ => Some s
  | a :: p', b :: s' => if Ascii.eqb a b then strip_prefix p' s' else None
  | _ :: _, [] => None
  end.

Fixpoint parse_value (fuel : nat) (s : text) : option (json * text) :=
  match fuel with
  | O => None
  | S fuel' =>
      match skip_ws s with
      | [] => None
      | c :: r =>
          if Ascii.eqb c "[" then
            match skip_ws r with
            | c' :: r' =>
                if Ascii.eqb c' "]" then Some (JArr [], r')
                else
                  match parse_elements fuel' r with
                  | Some (l, r'') => Some (JArr l, r'')
                  | None => None
                  end
            | [] => None
            end
          else if Ascii.eqb c "{" then
            match skip_ws r with
            | c' :: r' =>
                if Ascii.eqb c' "}" then Some (JObj [], r')
                else
                  match parse_members fuel' r with
                  | Some (fs, r'') => Some (JObj (set_fields fs []), r'')
                  | None => None
                  end
            | [] => None
            end
          else if Ascii.eqb c dq then
            match parse_string_body r with
            | Some (t, r') => Some (JStr (str t), r')
            | None => None
            end
          else
            match strip_prefix (chars "null") (c :: r) with
            | Some r' => Some (JNull, r')
            | None =>
                match strip_prefix (chars "true") (c :: r) with
                | Some r' => Some (JBool true, r')
                | None =>
                    match strip_prefix (chars "false") (c :: r) with
                    | Some r' => Some (JBool false, r')
                    | None =>
                        match parse_number (c :: r) with
                        | Some (n, r') => Some (JNum n, r')
                        | None => None
                        end
                    end
                end
            end
      end
  end
with parse_elements (fuel : nat) (s : text) : option (list json * text) :=
  match fuel with
  | O => None
  | S fuel' =>
      match parse_value fuel' s with
      | None => None
      | Some (v, r) =>
          match skip_ws r with
          | c :: r' =>
              if Ascii.eqb c "," then cons_fst v (parse_elements fuel' r')
              else if Ascii.eqb c "]" then Some ([v], r')
              else None
          | [] => None
          end
      end
  end
with parse_members (fuel : nat) (s : text) : option (list (string * json) * text) :=
  match fuel with
  | O => None
  | S fuel' =>
      match skip_ws s with
      | q :: r0 =>
          if Ascii.eqb q dq then
            match parse_string_body r0 with
            | None => None
            | Some (k, r1) =>
                match skip_ws r1 with
                | c1 :: r2 =>
                    if Ascii.eqb c1 ":" then
                      match parse_value fuel' r2 with
                      | None => None
                      | Some (v, r3) =>
                          match skip_ws r3 with
                          | c :: r' =>
                              if Ascii.eqb c "," then
                                cons_fst (str k, v) (parse_members fuel' r')
                              else if Ascii.eqb c "}" then Some ([(str k, v)], r')
                              else None
                          | [] => None
                          end
                      end
                    else None
                | [] => None
                end
            end
          else None
      | [] => None
      end
  end.

(** [JSON.parse(s)]; [None] stands for the [SyntaxError].  Every step of the
    parser consumes a character within two calls, so the fuel is never the
    reason for a failure. *)
Definition JSON_parse (s : string) : option json :=
  let t := chars s in
  match parse_value (2 * length t + 2) t with
  | Some (v, r) =>
      match skip_ws r with
      | [] => Some v
      | _ :: _ => None
      end
  | None => None
  end.

(** Writes JSON text with ['] in place of the double quote. *)
Definition jtext (s : string) : string :=
  str (map (fun c => if Ascii.eqb c "'" then dq else c) (chars s)).

Definition int (z : Z) : json := JNum (Num z 0).

End JSON.

(** ** The browser: exceptions, Web Storage, the clock *)

Module Browser.

Inductive outcome (A : Type) : Type :=
| Ret (a : A)
| Throw (msg : string).
Arguments Ret {A} a.
Arguments Throw {A} msg.

(** A storage area: its entries, the number of code units it may hold, and
    whether the page may access it at all. *)
Record Storage : Type := {
  items : gmap string string;
  quota : nat;
  enabled : bool
}.

Record World : Type := {
  localStorage : Storage;
  sessionStorage : Storage
}.

Inductive area : Type := Local | Session.

Definition area_of (a : area) (w : World) : Storage :=
  match a with
  | Local => localStorage w
  | Session => sessionStorage w
  end.

Definition with_area (a : area) (s : Storage) (w : World) : World :=
  match a with
  | Local => {| localStorage := s; sessionStorage := sessionStorage w |}
  | Session => {| localStorage := localStorage w; sessionStorage := s |}
  end.

Definition used (m : gmap string string) : nat :=
  map_fold (fun k v acc => String.length k + String.length v + acc)%nat 0%nat m.

Definition accepts (s : Storage) (k v : string) : bool :=
  enabled s && (used (<[k:=v]> (items s)) <=? quota s)%nat.

(** Computations that read and write the storage areas and may throw. *)
Definition M (A : Type) : Type := World -> outcome A * World.

Definition ret {A : Type} (a : A) : M A := fun w => (Ret a, w).

Definition throw {A : Type} (msg : string) : M A := fun w => (Throw msg, w).

Definition bind {A B : Type} (m : M A) (k : A -> M B) : M B :=
  fun w =>
    match m w with
    | (Ret a, w') => k a w'
    | (Throw e, w') => (Throw e, w')
    end.

(** [try { m } catch (e) { h e }] *)
Definition try_catch {A : Type} (m : M A) (h : string -> M A) : M A :=
  fun w =>
    match m w with
    | (Ret a, w') => (Ret a, w')
    | (Throw e, w') => h e w'
    end.

(** [storage.getItem(k)] *)
Definition getItem (a : area) (k : string) : M (option string) :=
  fun w =>
    if enabled (area_of a w) then (Ret (items (area_of a w) !! k), w)
    else (Throw "SecurityError", w).

(** [storage.setItem(k, v)] *)
Definition setItem (a : area) (k v : string) : M unit :=
  fun w =>
    let s := area_of a w in
    if negb (enabled s) then (Throw "SecurityError", w)
    else if accepts s k v then
      (Ret tt, with_area a {| items := <[k:=v]> (items s); quota := quota s; enabled := enabled s |} w)
    else (Throw "QuotaExceededError", w).

(** The UTC fields of an instant, as [new Date()] reads it. *)
Record Date : Type := {
  year : N;
  month : N;
  day : N;
  hours : N;
  minutes : N;
  seconds : N;
  millis : N
}.

Definition valid_date (d : Date) : bool :=
  (year d <=? 275760)%N
  && (1 <=? month d)%N && (month d <=? 12)%N
  && (1 <=? day d)%N && (day d <=? 31)%N
  && (hours d <? 24)%N && (minutes d <? 60)%N && (seconds d <? 60)%N
  && (millis d <? 1000)%N.

(** [Date.prototype.toISOString]: [YYYY-MM-DDTHH:mm:ss.sssZ], with the
    expanded year [+YYYYYY] after the year 9999. *)
Definition toISOString (d : Date) : text :=
  (if (year d <=? 9999)%N then JSON.digits_fixed 4 (year d)
   else "+"%char :: JSON.digits_fixed 6 (year d))
  ++ "-"%char :: JSON.digits_fixed 2 (month d)
  ++ "-"%char :: JSON.digits_fixed 2 (day d)
  ++ "T"%char :: JSON.digits_fixed 2 (hours d)
  ++ ":"%char :: JSON.digits_fixed 2 (minutes d)
  ++ ":"%char :: JSON.digits_fixed 2 (seconds d)
  ++ "."%char :: JSON.digits_fixed 3 (millis d)
  ++ ["Z"%char].

(** The ISO-8601 date-time format of ECMAScript,
    [YYYY-MM-DDTHH:mm:ss.sssZ] with a four-digit or an expanded signed
    six-digit year. *)
Definition iso8601Regex : Regex.regex :=
  let d := Regex.Class is_digit in
  Regex.Cat (Regex.Alt (Regex.Rep 4 d) (Regex.Cat (Regex.Class (one_of "+-")) (Regex.Rep 6 d)))
   (Regex.Cat (Regex.Chr "-") (Regex.Cat (Regex.Rep 2 d)
   (Regex.Cat (Regex.Chr "-") (Regex.Cat (Regex.Rep 2 d)
   (Regex.Cat (Regex.Chr "T") (Regex.Cat (Regex.Rep 2 d)
   (Regex.Cat (Regex.Chr ":") (Regex.Cat (Regex.Rep 2 d)
   (Regex.Cat (Regex.Chr ":") (Regex.Cat (Regex.Rep 2 d)
   (Regex.Cat (Regex.Chr ".") (Regex.Cat (Regex.Rep 3 d) (Regex.Chr "Z"))))))))))))).

Definition is_iso8601 (s : string) : bool := Regex.test_anchored iso8601Regex (chars s).

End Browser.

Declare Scope js_scope.
Delimit Scope js_scope with js.
Notation "x <- m ;; k" := (Browser.bind m (fun x => k))
  (at level 100, m at next level, right associativity) : js_scope.
Notation "m ;; k" := (Browser.bind m (fun _ => k))
  (at level 100, right associativity) : js_scope.

(** ** JavaScript values read from parsed JSON *)

Module JSValue.
Import JSON.

(** A value that may be [undefined] is an [option json]. *)
Definition typeof (v : option json) : string :=
  match v with
  | None => "undefined"
  | Some JNull => "object"
  | Some (JBool _) => "boolean"
  | Some (JNum _) => "number"
  | Some (JStr _) => "string"
  | Some (JArr _) => "object"
  | Some (JObj _) => "object"
  end.

(** ToBoolean *)
Definition truthy (v : option json) : bool :=
  match v with
  | None => false
  | Some JNull => false
  | Some (JBool b) => b
  | Some (JNum n) => negb (mant n =? 0)%Z
  | Some (JStr s) => negb (String.eqb s "")
  | Some (JArr _) => true
  | Some (JObj _) => true
  end.

Definition indexed {A : Type} (f : A -> json) (l : list A) : list (string * json) :=
  imap (fun i x => (str (decimal (N.of_nat i)), f x)) l.

(** The own enumerable properties, which object spread copies. *)
Definition enumerable_props (v : json) : list (string * json) :=
  match v with
  | JObj fs => fs
  | JArr l => indexed (fun x => x) l
  | JStr s => indexed (fun c => JStr (String c "")) (chars s)
  | _ => []
  end.

(** The own properties: arrays and strings also own [length]. *)
Definition own_props (v : json) : list (string * json) :=
  match v with
  | JObj fs => fs
  | JArr l => indexed (fun x => x) l ++ [("length", int (Z.of_nat (length l)))]
  | JStr s =>
      indexed (fun c => JStr (String c "")) (chars s)
        ++ [("length", int (Z.of_nat (String.length s)))]
  | _ => []
  end.

(** [o.k] for the property names the storage module reads.  Of these only
    [hasOwnProperty] exists on [Object.prototype] or [Array.prototype]; it is
    handled by [call_hasOwnProperty], so the own properties decide. *)
Definition get_prop (o : json) (k : string) : option json :=
  lookup_field k (own_props o).

(** [o.hasOwnProperty(k)].  An own property named [hasOwnProperty] shadows
    the inherited method; a value parsed from JSON is never callable, so the
    call is then a [TypeError]. *)
Definition call_hasOwnProperty (o : json) (k : string) : Browser.outcome bool :=
  match get_prop o "hasOwnProperty" with
  | Some _ => Browser.Throw "task.hasOwnProperty is not a function"
  | None =>
      Browser.Ret (match get_prop o k with Some _ => true | None => false end)
  end.

(** [{ ...a, ...b }] *)
Definition object_spread (sources : list json) : json :=
  JObj (fold_left (fun acc src => set_fields (enumerable_props src) acc) sources []).

(** [v < 0] for a number. *)
Definition negative (n : number) : bool := (mant n <? 0)%Z.

End JSValue.

(** ** scripts/storage.js *)

Module StorageJS.
Import JSON Browser JSValue.
Local Open Scope js_scope.

Definition STORAGE_KEY : string := "campus-life-planner-data".
Definition SETTINGS_KEY : string := "campus-life-planner-settings".

(** [generateId()], given the readings [Date.now()] and
    [Math.random().toString(36)]. *)
Definition generateId (now : N) (random36 : string) : string :=
  str (chars "task_" ++ decimal now ++ chars "_" ++ substr 2 9 (chars random36)).

(** [generateTimestamp()], given the instant [new Date()] reads. *)
Definition generateTimestamp (now : Date) : string := str (toISOString now).

Definition parse (s : string) : M json :=
  match JSON_parse s with
  | Some v => ret v
  | None => throw "SyntaxError"
  end.

(** [Array.isArray(v) && v.length > 0] *)
Definition nonempty_array (v : json) : option (list json) :=
  match v with
  | JArr (x :: l) => Some (x :: l)
  | _ => None
  end.

Section Helpers.

(** The two helpers that storage.js calls without defining them. *)
Variable loadSeedData : M (list json).
Variable createAutomaticBackup : list json -> M unit.

Definition loadTasks : M (list json) :=
  try_catch
    (data <- getItem Local STORAGE_KEY ;;
     primary <-
       match data with
       | None => ret None
       | Some d =>
           if String.eqb d "" then ret None
           else tasks <- parse d ;; ret (nonempty_array tasks)
       end ;;
     match primary with
     | Some tasks => ret tasks
     | None =>
         backupData <- getItem Session (STORAGE_KEY +:+ "_backup") ;;
         backup <-
           match backupData with
           | None => ret None
           | Some b =>
               if String.eqb b "" then ret None
               else
                 backupTasks <- parse b ;;
                 match nonempty_array backupTasks with
                 | Some l => setItem Local STORAGE_KEY b ;; ret (Some l)
                 | None => ret None
                 end
           end ;;
         match backup with
         | Some backupTasks => ret backupTasks
         | None => loadSeedData
         end
     end)
    (fun _ => try_catch loadSeedData (fun _ => ret [])).

Definition saveTasks (tasks : list json) : M bool :=
  try_catch
    (setItem Local STORAGE_KEY (JSON_stringify (JArr tasks)) ;;
     (if (0 <? length tasks)%nat then createAutomaticBackup tasks else ret tt) ;;
     ret true)
    (fun _ =>
       try_catch
         (setItem Session (STORAGE_KEY +:+ "_backup") (JSON_stringify (JArr tasks)))
         (fun _ => ret tt) ;;
       ret false).

End Helpers.

(** storage.js neither defines nor imports [createAutomaticBackup]: in the
    module as it stands the name is unbound, and calling it is a
    [ReferenceError]. *)
Definition createAutomaticBackup_unbound (tasks : list json) : M unit :=
  throw "createAutomaticBackup is not defined".

Definition defaultSettings : json :=
  JObj [("timeUnit", JStr "hours");
        ("dateFormat", JStr "YYYY-MM-DD");
        ("dueReminders", JBool true);
        ("goalAlerts", JBool true);
        ("durationCap", int 40);
        ("caseSensitiveSearch", JBool false)].

Definition loadSettings : M json :=
  try_catch
    (data <- getItem Local SETTINGS_KEY ;;
     match data with
     | None => ret defaultSettings
     | Some d =>
         if String.eqb d "" then ret defaultSettings
         else parsed <- parse d ;; ret (object_spread [defaultSettings; parsed])
     end)
    (fun _ => ret defaultSettings).

Definition exportData (tasks : list json) (settings : json) (now : Date) : string :=
  JSON_stringify_indent 2
    (JObj [("version", JStr "1.0");
           ("exportedAt", JStr (generateTimestamp now));
           ("tasks", JArr tasks);
           ("settings", settings)]).

Definition requiredFields : list string := ["id"; "title"; "dueDate"; "duration"; "tag"].

(** The loop over [requiredFields]: [Ret false] when a field is missing or
    [null], [Ret true] when the loop runs to its end. *)
Fixpoint required_present (task : json) (fields : list string) : outcome bool :=
  match fields with
  | [] => Ret true
  | field :: rest =>
      match call_hasOwnProperty task field with
      | Throw e => Throw e
      | Ret false => Ret false
      | Ret true =>
          match get_prop task field with
          | None => Ret false
          | Some JNull => Ret false
          | Some _ => required_present task rest
          end
      end
  end.

Definition is_string (v : option json) : bool := String.eqb (typeof v) "string".

Definition undefined_or_string (v : option json) : bool :=
  match v with
  | None => true
  | Some _ => is_string v
  end.

Definition validateTaskStructure (task : json) : outcome bool :=
  if negb (truthy (Some task)) || negb (String.eqb (typeof (Some task)) "object") then Ret false
  else
    match required_present task requiredFields with
    | Throw e => Throw e
    | Ret false => Ret false
    | Ret true =>
        if negb (is_string (get_prop task "id"))
           || negb (is_string (get_prop task "title"))
           || negb (is_string (get_prop task "dueDate"))
           || negb (is_string (get_prop task "tag"))
           || match get_prop task "duration" with
              | Some (JNum n) => negative n
              | _ => true
              end
        then Ret false
        else if negb (undefined_or_string (get_prop task "description")) then Ret false
        else if negb (undefined_or_string (get_prop task "createdAt")) then Ret false
        else if negb (undefined_or_string (get_prop task "updatedAt")) then Ret false
        else Ret true
    end.

(** [array.filter(f)] for a callback that may throw. *)
Fixpoint filter_tasks (f : json -> outcome bool) (l : list json) : outcome (list json) :=
  match l with
  | [] => Ret []
  | x :: r =>
      match f x with
      | Throw e => Throw e
      | Ret keep =>
          match filter_tasks f r with
          | Throw e => Throw e
          | Ret kept => Ret (if keep then x :: kept else kept)
          end
      end
  end.

Record ImportResult : Type := {
  success : bool;
  tasks : list json;
  settings : option json;
  errors : list string
}.

Definition skipped_message (invalidTasks : nat) : string :=
  str (decimal (N.of_nat invalidTasks)) +:+ " tasks were skipped due to invalid structure".

(** The [try] block of [importData]. *)
Definition import_try (jsonString : string) : outcome ImportResult :=
  match JSON_parse jsonString with
  | None => Throw "SyntaxError"
  | Some data =>
      if negb (truthy (Some data)) || negb (String.eqb (typeof (Some data)) "object")
      then Throw "Invalid data format"
      else
        let imported :=
          match get_prop data "tasks" with
          | Some (JArr l) =>
              match filter_tasks validateTaskStructure l with
              | Throw e => Throw e
              | Ret kept =>
                  let invalidTasks := (length l - length kept)%nat in
                  Ret (kept, if (0 <? invalidTasks)%nat then [skipped_message invalidTasks] else [])
              end
          | other =>
              Ret ([], if truthy other then ["Tasks data is not in the expected format"] else [])
          end in
        match imported with
        | Throw e => Throw e
        | Ret (kept, errs) =>
            let data_settings := get_prop data "settings" in
            Ret {| success := true;
                   tasks := kept;
                   settings :=
                     if truthy data_settings && String.eqb (typeof data_settings) "object"
                     then data_settings else None;
                   errors := errs |}
        end
  end.

Definition importData (jsonString : string) : ImportResult :=
  match import_try jsonString with
  | Ret result => result
  | Throw message =>
      {| success := false; tasks := []; settings := None; errors := [message] |}
  end.

End StorageJS.

(** ** The add action of the state container *)

Module State.
Import JSON Browser JSValue StorageJS.

(** What one call of the add action reads from its environment:
    [Date.now()], [Math.random().toString(36)] and [new Date()]. *)
Record Readings : Type := {
  now_ms : N;
  random36 : string;
  now_date : Date
}.

(** Modelled from the spec: the add action [addTask] of scripts/state.js,
    which is not among the sources.  The spec says a task is "created by the
    add action (generates id + timestamps)": the new task is the submitted
    fields with a generated [id] and the [createdAt] / [updatedAt] timestamps,
    added to the collection. *)
Definition addTask (payload : list (string * json)) (env : Readings) (tasks : list json) : list json :=
  tasks ++
  [JObj (set_fields
           [("id", JStr (generateId (now_ms env) (random36 env)));
            ("createdAt", JStr (generateTimestamp (now_date env)));
            ("updatedAt", JStr (generateTimestamp (now_date env)))]
           payload)].

(** A sequence of add actions, starting from the empty collection. *)
Definition addTasks (calls : list (list (string * json) * Readings)) : list json :=
  fold_left (fun tasks call => addTask (fst call) (snd call) tasks) calls [].

Definition task_id (task : json) : option json := get_prop task "id".

(** The part of the readings that [generateId] uses. *)
Definition id_source (env : Readings) : N * text :=
  (now_ms env, substr 2 9 (chars (random36 env))).

Definition new_task (call : list (string * json) * Readings) : json :=
  JObj (set_fields
          [("id", JStr (generateId (now_ms (snd call)) (random36 (snd call))));
           ("createdAt", JStr (generateTimestamp (now_date (snd call))));
           ("updatedAt", JStr (generateTimestamp (now_date (snd call))))]
          (fst call)).

End State.

(** ** scripts/email-validator.js: sanitizing and suggestions *)

Module EmailHelpers.
Import Regex EmailValidator.

(** [String.prototype.toLowerCase] on one code unit below U+0100: the
    letters [A-Z] and the Latin-1 capitals U+00C0..U+00DE, the multiplication
    sign U+00D7 apart, move up by 32. *)
Definition lower_char (c : ascii) : ascii :=
  let n := code c in
  if ((65 <=? n)%nat && (n <=? 90)%nat)
     || ((192 <=? n)%nat && (n <=? 222)%nat && negb (n =? 215)%nat)
  then ascii_of_nat (n + 32)
  else c.

Definition toLowerCase (s : text) : text := map lower_char s.

(** [[a-zA-Z0-9.!#$%&'*+\/=?^_`{|}~@-]]: the characters that
    [sanitizeEmail] keeps. *)
Definition email_char (c : ascii) : bool :=
  is_alnum c || one_of ".!#$%&'*+/=?^_`{|}~@-" c.

(** [email.replace(/[^...]/g, '')] deletes every character outside the
    class, which is to keep the characters inside it. *)
Definition sanitizeEmail (email : string) : string :=
  if String.eqb email "" then ""
  else str (List.filter email_char (toLowerCase (trim (chars email)))).

Definition COMMON_EMAIL_DOMAINS : list string :=
  ["gmail.com"; "yahoo.com"; "outlook.com"; "hotmail.com"; "icloud.com";
   "aol.com"; "protonmail.com"; "mail.com"; "zoho.com"; "yandex.com"].

Definition suggestEmailDomain (email : string) : option string :=
  if String.eqb email "" || negb (includes (chars "@") (chars email)) then None
  else
    let parts := split_on "@" (chars email) in
    let localPart := nth 0 parts [] in
    match nth_error parts 1 with
    | None => None
    | Some domain =>
        if (length domain =? 0)%nat || includes (chars ".") domain then None
        else
          match find (fun commonDomain => starts_with (toLowerCase domain) (chars commonDomain))
                     COMMON_EMAIL_DOMAINS with
          | Some commonDomain => Some (str (localPart ++ chars "@" ++ chars commonDomain))
          | None => None
          end
    end.

End EmailHelpers.

(** ** scripts/email-validator.js: the input field *)

Module EmailInput.
Import EmailValidator.

(** The parts of the input element and of the message element that
    [validateEmailInput] reads and writes: the value and the class list of
    the former, the text and the [style.display] of the latter. *)
Record InputElement : Type := {
  value : string;
  classList : list string
}.

Record MessageElement : Type := {
  textContent : string;
  display : string
}.

(** [classList.add(token)]: a token already present stays where it is. *)
Definition classList_add (token : string) (l : list string) : list string :=
  if existsb (String.eqb token) l then l else l ++ [token].

(** [classList.remove(token)] *)
Definition classList_remove (token : string) (l : list string) : list string :=
  List.filter (fun t => negb (String.eqb t token)) l.

Definition set_classes (l : list string) (e : InputElement) : InputElement :=
  {| value := value e; classList := l |}.

(** [if (error)] for a message or [null]: the message when it is truthy. *)
Definition shown (error : option string) : option string :=
  match error with
  | Some message => if String.eqb message "" then None else Some message
  | None => None
  end.

(** [validateEmailInput(inputElement, errorElement)]: the returned flag
    and the two elements after the call; an element that is [null] is
    [None]. *)
Definition validateEmailInput (inputElement : option InputElement)
    (errorElement : option MessageElement)
  : bool * option InputElement * option MessageElement :=
  match inputElement with
  | None => (false, None, errorElement)
  | Some input =>
      let email := value input in
      let error := getEmailValidationError email in
      match shown error with
      | Some message =>
          (false,
           Some (set_classes
                   (classList_remove "success" (classList_add "error" (classList input)))
                   input),
           match errorElement with
           | Some _ => Some {| textContent := message; display := "block" |}
           | None => None
           end)
      | None =>
          (true,
           Some (set_classes
                   (classList_add "success" (classList_remove "error" (classList input)))
                   input),
           match errorElement with
           | Some _ => Some {| textContent := ""; display := "none" |}
           | None => None
           end)
      end
  end.

End EmailInput.

(** ** scripts/storage.js: settings and clearing *)

Module StorageAdmin.
Import JSON Browser JSValue StorageJS.
Local Open Scope js_scope.

(** [storage.removeItem(k)] *)
Definition removeItem (a : area) (k : string) : M unit :=
  fun w =>
    let s := area_of a w in
    if enabled s then
      (Ret tt, with_area a {| items := delete k (items s); quota := quota s; enabled := enabled s |} w)
    else (Throw "SecurityError", w).

Definition saveSettings (settings : json) : M bool :=
  try_catch
    (setItem Local SETTINGS_KEY (JSON_stringify settings) ;;
     ret true)
    (fun _ => ret false).

Definition clearAllData : M bool :=
  try_catch
    (removeItem Local STORAGE_KEY ;;
     removeItem Local SETTINGS_KEY ;;
     ret true)
    (fun _ => ret false).

End StorageAdmin.

(** * Notions used to state the properties *)

(** ** Shapes of email addresses *)

Module EmailShape.
Import Regex EmailValidator.

(** Every character class of [r] only accepts characters with [P]. *)
Fixpoint classes_imply (P : ascii -> Prop) (r : regex) : Prop :=
  match r with
  | Class p => forall c, p c = true -> P c
  | Cat a b => classes_imply P a /\ classes_imply P b
  | Alt a b => classes_imply P a /\ classes_imply P b
  | Star a => classes_imply P a
  | Void => True
  | Eps => True
  end.

Definition not_at (c : ascii) : Prop := c <> "@"%char.

Definition free_of (c : ascii) (s : text) : Prop := Forall (fun x => x <> c) s.

(** The local part: 1 to 64 permitted characters, a letter among them, no
    dot at either end and no two dots in a row. *)
Definition local_ok (l : text) : bool :=
  (1 <=? length l)%nat && (length l <=? 64)%nat
  && forallb local_char l && existsb is_alpha l
  && negb (starts_with (chars ".") l) && negb (ends_with (chars ".") l)
  && negb (includes (chars "..") l).

(** A domain label: 1 to 63 letters, digits or hyphens, no hyphen at either
    end. *)
Definition label_ok (lab : text) : bool :=
  (1 <=? length lab)%nat && (length lab <=? 63)%nat && forallb alnum_hyphen lab
  && negb (starts_with (chars "-") lab) && negb (ends_with (chars "-") lab).

(** The final label: 2 to 63 letters. *)
Definition tld_ok (t : text) : bool :=
  (2 <=? length t)%nat && (length t <=? 63)%nat && forallb is_alpha t.

(** [local@label. ... .label.tld] *)
Definition address (local : text) (labels : list text) (tld : text) : text :=
  local ++ "@"%char :: join (chars ".") (labels ++ [tld]).

End EmailShape.

(** ** JSON text *)

Module JSONText.
Import JSON.

(** The text after a run of digits does not go on with a digit. *)
Definition no_digit_ahead (rest : text) : Prop :=
  match rest with
  | [] => True
  | c :: _ => is_digit c = false
  end.

(** What may follow a number in a JSON text. *)
Definition ends_number (rest : text) : bool :=
  match rest with
  | [] => true
  | c :: _ =>
      negb (is_digit c || Ascii.eqb c "." || Ascii.eqb c "e" || Ascii.eqb c "E")
  end.

(** The unsigned part of a number: integer digits, then the fraction. *)
Definition unsigned_text (a : N) (k : nat) : text :=
  decimal (a / 10 ^ N.of_nat k)%N
  ++ (if (k =? 0)%nat then [] else "."%char :: digits_fixed k (a mod 10 ^ N.of_nat k)%N).

(** The fuel a value needs. *)
Fixpoint size (v : json) : nat :=
  match v with
  | JArr l => S (S (list_sum (map (fun x => S (size x)) l)))
  | JObj fs => S (S (list_sum (map (fun kv => S (size (snd kv))) fs)))
  | _ => 1
  end.

Definition elems_size (l : list json) : nat :=
  S (list_sum (map (fun x => S (size x)) l)).

Definition members_size (fs : list (string * json)) : nat :=
  S (list_sum (map (fun kv => S (size (snd kv))) fs)).

(** The first character of a JSON value. *)
Definition value_start (c : ascii) : bool :=
  is_digit c || one_of "-[{ntf" c || Ascii.eqb c dq.

(** The characters that close or continue an array or an object. *)
Definition closer (c : ascii) : bool := one_of ",]}" c.

Definition member_text (gap inner : text) (kv : string * json) : text :=
  quote (chars (fst kv)) ++ colon gap ++ ser gap inner (snd kv).

Definition reads_back (gap : text) (v : json) : Prop :=
  forall indent rest fuel,
    forallb is_ws indent = true ->
    wf v = true ->
    ends_number rest = true ->
    (size v <= fuel)%nat ->
    parse_value fuel (ser gap indent v ++ rest) = Some (v, rest).

Definition values_wf (fs : list (string * json)) : bool :=
  forallb (fun kv => wf (snd kv)) fs.

End JSONText.

(** ** States of the storage areas *)

Module StorageStates.
Import JSON Browser JSValue StorageJS.

Definition BACKUP_KEY : string := STORAGE_KEY +:+ "_backup".

(** The result of a computation, without the final state. *)
Definition result {A : Type} (r : outcome A * World) : outcome A := fst r.

(** A helper that leaves the primary store as it found it. *)
Definition keeps_primary (backup : list json -> M unit) : Prop :=
  forall l w, localStorage (snd (backup l w)) = localStorage w.

(** The state after an accepted write of [v] under [k] in area [a]. *)
Definition written (a : area) (k v : string) (w : World) : World :=
  with_area a {| items := <[k:=v]> (items (area_of a w));
                 quota := quota (area_of a w);
                 enabled := enabled (area_of a w) |} w.

(** What a storage area holds under a key, as [loadTasks] sees it. *)
Inductive blob : Type :=
| Inaccessible
| Absent
| Unparseable
| NoTasks
| Tasks (l : list json).

(** ** [loadTasks] *)

Definition classify (o : option string) : blob :=
  match o with
  | None => Absent
  | Some d =>
      if String.eqb d "" then Absent
      else
        match JSON_parse d with
        | None => Unparseable
        | Some v =>
            match nonempty_array v with
            | Some l => Tasks l
            | None => NoTasks
            end
        end
  end.

Definition stored (a : area) (k : string) (w : World) : blob :=
  if enabled (area_of a w) then classify (items (area_of a w) !! k) else Inaccessible.

Definition primary (w : World) : blob := stored Local STORAGE_KEY w.

Definition secondary (w : World) : blob := stored Session BACKUP_KEY w.

(** Nothing stored, or something that is not a non-empty array. *)
Definition is_empty (b : blob) : bool :=
  match b with
  | Absent => true
  | NoTasks => true
  | _ => false
  end.

(** Reading the blob throws. *)
Definition is_broken (b : blob) : bool :=
  match b with
  | Inaccessible => true
  | Unparseable => true
  | _ => false
  end.

Definition falls_to_seed (w : World) : bool :=
  is_broken (primary w)
  || (is_empty (primary w) && (is_broken (secondary w) || is_empty (secondary w))).

(** A seed loader that throws whenever it is called. *)
Definition unavailable (seed : M (list json)) : Prop :=
  forall w, exists e w', seed w = (Throw e, w').

Definition defaults : list (string * json) :=
  match defaultSettings with
  | JObj fs => fs
  | _ => []
  end.

(** The persisted settings blob cannot be used. *)
Definition no_settings (w : World) : Prop :=
  enabled (localStorage w) = false
  \/ items (localStorage w) !! SETTINGS_KEY = None
  \/ items (localStorage w) !! SETTINGS_KEY = Some ""
  \/ exists d, items (localStorage w) !! SETTINGS_KEY = Some d /\ JSON_parse d = None.

End StorageStates.

(** ** Verdicts of the import validation *)

Module ImportVerdicts.
Import JSON Browser JSValue StorageJS.

(** The verdicts of the per-task validation. *)
Definition passes (task : json) : bool :=
  match validateTaskStructure task with
  | Ret true => true
  | _ => false
  end.

Definition fails (task : json) : bool :=
  match validateTaskStructure task with
  | Ret false => true
  | _ => false
  end.

(** The validation of every task comes to a verdict. *)
Definition all_decided (l : list json) : bool :=
  forallb (fun t => passes t || fails t) l.

Definition settings_of (fs : list (string * json)) : option json :=
  let s := lookup_field "settings" fs in
  if truthy s && String.eqb (typeof s) "object" then s else None.

End ImportVerdicts.

(** ** Sample environments *)

Module Samples.
Import JSON Browser JSValue StorageJS State StorageStates.
Local Open Scope js_scope.

Definition empty_storage (quota : nat) : Storage :=
  {| items := ∅; quota := quota; enabled := true |}.

Definition storage_with (k v : string) (quota : nat) : Storage :=
  {| items := {[ k := v ]}; quota := quota; enabled := true |}.

Definition fresh_world : World :=
  {| localStorage := empty_storage 5000; sessionStorage := empty_storage 5000 |}.

(** A page whose storage areas are both full. *)
Definition full_world : World :=
  {| localStorage := empty_storage 0; sessionStorage := empty_storage 0 |}.

Definition taskA : json :=
  JObj [("id", JStr "task_1_a"); ("title", JStr "Read Chapter 4");
        ("dueDate", JStr "2025-01-15"); ("duration", JNum (Num 25 1));
        ("tag", JStr "Homework")].

Definition taskB : json :=
  JObj [("id", JStr "task_2_b"); ("title", JStr "Lab Report");
        ("dueDate", JStr "2025-02-01"); ("duration", int 2);
        ("tag", JStr "Lab"); ("description", JStr "Analyze results")].

(** A task without a title. *)
Definition badTask : json :=
  JObj [("id", JStr "task_3_c"); ("dueDate", JStr "2025-02-01");
        ("duration", int 1); ("tag", JStr "Lab")].

(** A seed loader that finds the bundled dataset. *)
Definition seed_of (l : list json) : M (list json) := ret l.

(** A seed loader that fails. *)
Definition seed_fails : M (list json) := throw "seed data unavailable".

(** A backup helper that copies the collection to the session store. *)
Definition backup_to_session (l : list json) : M unit :=
  setItem Session (STORAGE_KEY +:+ "_backup") (JSON_stringify (JArr l)).

Definition noon : Date :=
  {| year := 2025; month := 3; day := 9; hours := 12; minutes := 0;
     seconds := 7; millis := 45 |}.

(** The primary store is empty and the session store holds an older
    backup of one task. *)
Definition stale_world : World :=
  {| localStorage := empty_storage 5000;
     sessionStorage := storage_with BACKUP_KEY (JSON_stringify (JArr [taskA])) 5000 |}.

(** The primary blob is damaged and the session store holds a backup. *)
Definition corrupt_world : World :=
  {| localStorage := storage_with STORAGE_KEY "{bad" 5000;
     sessionStorage := storage_with BACKUP_KEY (JSON_stringify (JArr [taskA])) 5000 |}.

(** The primary blob is an empty array and the session store holds a
    backup. *)
Definition emptied_world : World :=
  {| localStorage := storage_with STORAGE_KEY "[]" 5000;
     sessionStorage := storage_with BACKUP_KEY (JSON_stringify (JArr [taskA])) 5000 |}.

(** The primary store holds two tasks. *)
Definition saved_world : World :=
  {| localStorage := storage_with STORAGE_KEY (JSON_stringify (JArr [taskA; taskB])) 5000;
     sessionStorage := empty_storage 5000 |}.

(** The primary store is full, the session store is not. *)
Definition primary_full_world : World :=
  {| localStorage := empty_storage 0; sessionStorage := empty_storage 5000 |}.

(** Persisted settings that change one default and add one key. *)
Definition partial_settings : list (string * json) :=
  [("durationCap", int 20); ("reminderEmail", JStr "user@example.com")].

Definition settings_world : World :=
  {| localStorage := storage_with SETTINGS_KEY (JSON_stringify (JObj partial_settings)) 5000;
     sessionStorage := empty_storage 5000 |}.

Definition payloadA : list (string * json) :=
  [("title", JStr "Read Chapter 4"); ("dueDate", JStr "2025-01-15");
   ("duration", int 2); ("tag", JStr "Homework")].

Definition readings (ms : N) (rnd : string) : Readings :=
  {| now_ms := ms; random36 := rnd; now_date := noon |}.

(** The primary store holds one task and has no room for two. *)
Definition tight_world : World :=
  {| localStorage := storage_with STORAGE_KEY (JSON_stringify (JArr [taskB])) 200;
     sessionStorage := empty_storage 5000 |}.

End Samples.

(** ** Sanitized text *)

Module EmailNotions.
Import EmailValidator EmailHelpers.

(** A character that lower-casing leaves where it is among the others. *)
Definition case_free (a : ascii) : Prop :=
  forall x, Ascii.eqb a (lower_char x) = Ascii.eqb a x.

(** The characters [sanitizeEmail] keeps, before it makes a string of them. *)
Definition kept (s : text) : text := List.filter email_char (toLowerCase s).

End EmailNotions.

(** ** Storage after clearing *)

Module StorageNotions.
Import JSON Browser JSValue StorageJS StorageStates.

(** The state after the two application keys are removed from the primary
    store. *)
Definition cleared (w : World) : World :=
  with_area Local
    {| items := delete SETTINGS_KEY (delete STORAGE_KEY (items (localStorage w)));
       quota := quota (localStorage w);
       enabled := enabled (localStorage w) |} w.

(** What the seed loader gives when it is the last resort: its result, or
    the empty collection when it throws. *)
Definition seed_or_empty (seed : M (list json)) : M (list json) :=
  try_catch seed (fun _ => ret []).

End StorageNotions.

(** ** Well-typed tasks *)

Module TaskShape.
Import JSON Browser JSValue StorageJS.

Definition string_field (task : json) (k : string) : Prop :=
  exists s, get_prop task k = Some (JStr s).

Definition optional_string_field (task : json) (k : string) : Prop :=
  get_prop task k = None \/ string_field task k.

(** A task as the application expects it: the four text fields, a duration
    that is a number and not negative, and text in the optional fields that
    are there. *)
Definition well_typed (task : json) : Prop :=
  string_field task "id" /\ string_field task "title"
  /\ string_field task "dueDate" /\ string_field task "tag"
  /\ (exists n, get_prop task "duration" = Some (JNum n) /\ (0 <= mant n)%Z)
  /\ optional_string_field task "description"
  /\ optional_string_field task "createdAt"
  /\ optional_string_field task "updatedAt".

End TaskShape.

(** ** More sample environments *)

Module MoreSamples.
Import JSON Browser JSValue StorageJS StorageStates Samples EmailInput.

(** The primary store holds two tasks and the session store an older backup
    of one. *)
Definition backed_up_world : World :=
  {| localStorage := storage_with STORAGE_KEY (JSON_stringify (JArr [taskA; taskB])) 5000;
     sessionStorage := storage_with BACKUP_KEY (JSON_stringify (JArr [taskA])) 5000 |}.

(** An email field that was shown as wrong before. *)
Definition email_field (v : string) : InputElement :=
  {| value := v; classList := ["form-input"; "error"] |}.

Definition email_message : MessageElement :=
  {| textContent := "Email address is required"; display := "block" |}.

End MoreSamples.

(** * Regular expressions: the matcher decides the language *)

Module RegexFacts.
Import Regex.

Lemma lang_void_inv s : lang Void s -> False.
Proof. inversion 1. Qed.

Lemma lang_eps_inv s : lang Eps s -> s = [].
Proof. inversion 1; reflexivity. Qed.

Lemma lang_class_inv p s : lang (Class p) s -> exists c, s = [c] /\ p c = true.
Proof. inversion 1; subst; eauto. Qed.

Lemma lang_cat_inv a b s :
  lang (Cat a b) s -> exists s1 s2, s = s1 ++ s2 /\ lang a s1 /\ lang b s2.
Proof. inversion 1; subst; eauto. Qed.

Lemma lang_alt_inv a b s : lang (Alt a b) s -> lang a s \/ lang b s.
Proof. inversion 1; subst; auto. Qed.

Lemma lang_star_cons_inv a c s :
  lang (Star a) (c :: s) ->
  exists s1 s2, s = s1 ++ s2 /\ lang a (c :: s1) /\ lang (Star a) s2.
Proof.
  intros H. remember (Star a) as r eqn:Hr. remember (c :: s) as w eqn:Hw.
  revert s Hw. induction H; intros s0 Hw; try discriminate.
  injection Hr as ->.
  destruct s1 as [|x s1]; simpl in Hw.
  - apply IHlang2; auto.
  - injection Hw as -> <-. eauto.
Qed.

Lemma nullable_lang r : nullable r = true <-> lang r [].
Proof.
  induction r; simpl.
  - split; [discriminate | inversion 1].
  - split; [constructor | reflexivity].
  - split; [discriminate | inversion 1].
  - rewrite andb_true_iff, IHr1, IHr2. split.
    + intros [H1 H2]. apply (lang_cat _ _ [] []); assumption.
    + intros H. apply lang_cat_inv in H as (s1 & s2 & E & H1 & H2).
      symmetry in E. apply app_eq_nil in E as [-> ->]. auto.
  - rewrite orb_true_iff, IHr1, IHr2. split.
    + intros [H | H]; [apply lang_alt_l | apply lang_alt_r]; assumption.
    + apply lang_alt_inv.
  - split; [constructor | reflexivity].
Qed.

Lemma lang_cat_smart a b s : lang (cat a b) s <-> lang (Cat a b) s.
Proof.
  split.
  - intros H.
    destruct a, b; simpl in H; try solve [inversion H]; try assumption.
    all: apply (lang_cat Eps _ [] s); [constructor | assumption].
  - intros H. apply lang_cat_inv in H as (s1 & s2 & -> & H1 & H2).
    destruct a, b; simpl; try solve [inversion H1]; try solve [inversion H2];
      try (constructor; assumption);
      apply lang_eps_inv in H1 as ->; assumption.
Qed.

Lemma lang_alt_smart a b s : lang (alt a b) s <-> lang (Alt a b) s.
Proof.
  split.
  - intros H.
    destruct a, b; simpl in H; try solve [inversion H]; try assumption;
      solve [apply lang_alt_l; assumption | apply lang_alt_r; assumption].
  - intros H. apply lang_alt_inv in H as [H | H];
      destruct a, b; simpl; try solve [inversion H]; try assumption;
      solve [apply lang_alt_l; assumption | apply lang_alt_r; assumption].
Qed.

Lemma deriv_lang c r : forall s, lang (deriv c r) s <-> lang r (c :: s).
Proof.
  induction r; intros s; simpl.
  - split; inversion 1.
  - split; inversion 1.
  - destruct (p c) eqn:E; split; intros H.
    + apply lang_eps_inv in H as ->. constructor; assumption.
    + apply lang_class_inv in H as (x & Hx & _). injection Hx as _ ->. constructor.
    + inversion H.
    + apply lang_class_inv in H as (x & Hx & Hp). injection Hx as -> ->. congruence.
  - assert (Hl : lang (Cat (deriv c r1) r2) s <->
                 exists s1 s2, s = s1 ++ s2 /\ lang r1 (c :: s1) /\ lang r2 s2).
    { split.
      - intros H. apply lang_cat_inv in H as (s1 & s2 & -> & H1 & H2).
        apply IHr1 in H1. eauto.
      - intros (s1 & s2 & -> & H1 & H2). constructor; [apply IHr1|]; assumption. }
    destruct (nullable r1) eqn:N.
    + rewrite lang_alt_smart. split.
      * intros H. apply lang_alt_inv in H as [H | H].
        -- apply lang_cat_smart, Hl in H as (s1 & s2 & -> & H1 & H2).
           apply (lang_cat _ _ (c :: s1) s2); assumption.
        -- apply IHr2 in H. apply (lang_cat _ _ [] (c :: s)); [|assumption].
           apply nullable_lang; assumption.
      * intros H. apply lang_cat_inv in H as (s1 & s2 & E & H1 & H2).
        destruct s1 as [|x s1]; simpl in E.
        -- subst s2. apply lang_alt_r. apply IHr2; assumption.
        -- injection E as <- ->. apply lang_alt_l, lang_cat_smart, Hl. eauto.
    + rewrite lang_cat_smart, Hl. split.
      * intros (s1 & s2 & -> & H1 & H2). apply (lang_cat _ _ (c :: s1) s2); assumption.
      * intros H. apply lang_cat_inv in H as (s1 & s2 & E & H1 & H2).
        destruct s1 as [|x s1]; simpl in E.
        -- apply nullable_lang in H1. congruence.
        -- injection E as <- ->. eauto.
  - rewrite lang_alt_smart. split.
    + intros H. apply lang_alt_inv in H as [H | H].
      * apply lang_alt_l, IHr1; assumption.
      * apply lang_alt_r, IHr2; assumption.
    + intros H. apply lang_alt_inv in H as [H | H].
      * apply lang_alt_l, IHr1; assumption.
      * apply lang_alt_r, IHr2; assumption.
  - rewrite lang_cat_smart. split.
    + intros H. apply lang_cat_inv in H as (s1 & s2 & -> & H1 & H2).
      apply IHr in H1. apply (lang_star_cons _ (c :: s1) s2); assumption.
    + intros H. apply lang_star_cons_inv in H as (s1 & s2 & -> & H1 & H2).
      constructor; [apply IHr|]; assumption.
Qed.

Lemma matches_lang s : forall r, matches r s = true <-> lang r s.
Proof.
  induction s as [|c s IH]; intros r; simpl.
  - apply nullable_lang.
  - rewrite IH. apply deriv_lang.
Qed.

End RegexFacts.

(** * Facts about the string primitives *)

Module TextFacts.

Lemma chars_str t : chars (str t) = t.
Proof. apply list_ascii_of_string_of_list_ascii. Qed.

Lemma str_chars s : str (chars s) = s.
Proof. apply string_of_list_ascii_of_string. Qed.

Lemma str_nil_inv t : str t = "" -> t = [].
Proof. destruct t; [reflexivity | discriminate]. Qed.

Lemma trim_start_fixed c r : is_js_space c = false -> trim_start (c :: r) = c :: r.
Proof. intros H. simpl. rewrite H. reflexivity. Qed.

Lemma trim_start_head s c r : trim_start s = c :: r -> is_js_space c = false.
Proof.
  induction s as [|x s IH]; simpl; [discriminate|].
  destruct (is_js_space x) eqn:E; [exact IH|].
  intros [= <- _]. exact E.
Qed.

Lemma trim_start_suffix s : exists p, s = p ++ trim_start s.
Proof.
  induction s as [|x s [p IH]]; simpl.
  - exists []. reflexivity.
  - destruct (is_js_space x).
    + exists (x :: p). simpl. congruence.
    + exists []. reflexivity.
Qed.

Lemma trim_start_idem s : trim_start (trim_start s) = trim_start s.
Proof.
  destruct (trim_start s) as [|c r] eqn:E; [reflexivity|].
  apply trim_start_fixed. eapply trim_start_head; eassumption.
Qed.

(** A text already free of outer white space is left alone. *)
Lemma trim_fixed s :
  (forall c r, s = c :: r -> is_js_space c = false) ->
  (forall c r, rev s = c :: r -> is_js_space c = false) ->
  trim s = s.
Proof.
  intros Hh Hl. unfold trim.
  assert (E1 : trim_start s = s).
  { destruct s as [|c r]; [reflexivity|]. apply trim_start_fixed. eapply Hh; reflexivity. }
  rewrite E1.
  assert (E2 : trim_start (rev s) = rev s).
  { destruct (rev s) as [|c r] eqn:E; [reflexivity|]. apply trim_start_fixed. eapply Hl; reflexivity. }
  rewrite E2. apply rev_involutive.
Qed.

Lemma trim_idem s : trim (trim s) = trim s.
Proof.
  apply trim_fixed; unfold trim.
  - intros c r E.
    destruct (trim_start_suffix (rev (trim_start s))) as [p Hp].
    apply (f_equal (@rev ascii)) in Hp. rewrite rev_involutive, rev_app_distr, E in Hp.
    simpl in Hp. eapply trim_start_head; eassumption.
  - intros c r. rewrite rev_involutive. apply trim_start_head.
Qed.

Lemma starts_with_app p s : starts_with p (p ++ s) = true.
Proof.
  induction p as [|a p IH]; simpl; [reflexivity|].
  rewrite Ascii.eqb_refl. exact IH.
Qed.

Lemma includes_unfold p s :
  includes p s = starts_with p s || match s with [] => false | _ :: r => includes p r end.
Proof. destruct s; reflexivity. Qed.

Lemma includes_app p a b : includes p (a ++ p ++ b) = true.
Proof.
  induction a as [|x a IH].
  - rewrite includes_unfold. simpl. rewrite starts_with_app. reflexivity.
  - rewrite includes_unfold. simpl. rewrite IH. apply orb_true_r.
Qed.

Lemma count_char_app c a b : count_char c (a ++ b) = (count_char c a + count_char c b)%nat.
Proof. unfold count_char. rewrite List.filter_app, length_app. reflexivity. Qed.

Lemma count_char_absent c s :
  Forall (fun x => x <> c) s -> count_char c s = 0%nat.
Proof.
  unfold count_char. induction 1 as [|x s Hx _ IH]; simpl; [reflexivity|].
  destruct (Ascii.eqb c x) eqn:E; [|exact IH].
  apply Ascii.eqb_eq in E. congruence.
Qed.

Lemma snoc_cases {A : Type} (l : list A) : l = [] \/ exists m z, l = m ++ [z].
Proof.
  induction l as [|x l IH] using rev_ind; [left; reflexivity|].
  right. exists l, x. reflexivity.
Qed.

Lemma join_cons sep p q ps : join sep (p :: q :: ps) = p ++ sep ++ join sep (q :: ps).
Proof. reflexivity. Qed.

Lemma join_snoc sep ps t :
  ps <> [] -> join sep (ps ++ [t]) = join sep ps ++ sep ++ t.
Proof.
  induction ps as [|p ps IH]; [congruence|]. intros _.
  destruct ps as [|q ps]; [reflexivity|].
  change ((p :: q :: ps) ++ [t]) with (p :: q :: (ps ++ [t])).
  rewrite !join_cons. change (q :: ps ++ [t]) with ((q :: ps) ++ [t]).
  rewrite IH by discriminate. rewrite <- !app_assoc. reflexivity.
Qed.

Lemma join_length_cons sep p ps :
  (length p <= length (join sep (p :: ps)))%nat.
Proof. destruct ps; [simpl; lia|]. rewrite join_cons, length_app. lia. Qed.

End TextFacts.

(** * The email validator *)

Module EmailFacts.
Import Regex RegexFacts TextFacts EmailValidator EmailShape.

Lemma lang_chars P r s : lang r s -> classes_imply P r -> Forall P s.
Proof.
  induction 1; simpl; intros HP.
  - constructor.
  - constructor; [auto | constructor].
  - destruct HP. apply Forall_app; auto.
  - destruct HP; auto.
  - destruct HP; auto.
  - constructor.
  - apply Forall_app; auto.
Qed.

Lemma classes_imply_Upto P n r : classes_imply P r -> classes_imply P (Upto n r).
Proof. intros H. induction n; simpl; auto. Qed.

Lemma lang_chr_inv c s : lang (Chr c) s -> s = [c].
Proof.
  intros H. apply lang_class_inv in H as (x & -> & E).
  apply Ascii.eqb_eq in E. subst. reflexivity.
Qed.

Lemma local_char_not_at c : local_char c = true -> not_at c.
Proof. intros H ->. vm_compute in H. discriminate. Qed.

Lemma alnum_not_at c : is_alnum c = true -> not_at c.
Proof. intros H ->. vm_compute in H. discriminate. Qed.

Lemma alnum_hyphen_not_at c : alnum_hyphen c = true -> not_at c.
Proof. intros H ->. vm_compute in H. discriminate. Qed.

Lemma dot_not_at c : Ascii.eqb "." c = true -> not_at c.
Proof. intros H ->. vm_compute in H. discriminate. Qed.

Lemma labelRegex_not_at : classes_imply not_at labelRegex.
Proof.
  unfold labelRegex, Opt. cbn [classes_imply].
  split; [exact alnum_not_at|]. split; [exact I|]. split; [|exact alnum_not_at].
  apply classes_imply_Upto. exact alnum_hyphen_not_at.
Qed.

(** A text matched by [emailRegex] has exactly one [@]. *)
Lemma emailRegex_one_at s :
  lang emailRegex s ->
  exists l d, s = l ++ "@"%char :: d /\ Forall not_at l /\ Forall not_at d.
Proof.
  unfold emailRegex. intros H.
  apply lang_cat_inv in H as (l & s' & -> & Hl & H).
  apply lang_cat_inv in H as (a & d & -> & Ha & Hd).
  apply lang_chr_inv in Ha as ->.
  exists l, d. split; [reflexivity|]. split.
  - eapply lang_chars; [exact Hl|]. simpl. split; apply local_char_not_at.
  - eapply lang_chars; [exact Hd|]. simpl.
    split; [apply labelRegex_not_at|]. split; [apply dot_not_at | apply labelRegex_not_at].
Qed.

Lemma emailRegex_includes_at s :
  test_anchored emailRegex s = true -> includes (chars "@") s = true.
Proof.
  intros H. apply matches_lang, emailRegex_one_at in H as (l & d & -> & _ & _).
  apply (includes_app ["@"%char] l d).
Qed.

Lemma emailRegex_count_at s :
  test_anchored emailRegex s = true -> count_char "@" s = 1%nat.
Proof.
  intros H. apply matches_lang, emailRegex_one_at in H as (l & d & -> & Hl & Hd).
  rewrite count_char_app. change ("@"%char :: d) with (["@"%char] ++ d).
  rewrite count_char_app.
  rewrite (count_char_absent _ l), (count_char_absent _ d) by assumption. reflexivity.
Qed.

(** Validating the trimmed address is validating the address. *)
Lemma isValidEmail_trimmed e : isValidEmail (str (trim (chars e))) = isValidEmail e.
Proof.
  unfold isValidEmail. rewrite chars_str, trim_idem.
  destruct (String.eqb e "") eqn:E1.
  - apply String.eqb_eq in E1 as ->. reflexivity.
  - destruct (String.eqb (str (trim (chars e))) "") eqn:E2; [|reflexivity].
    apply String.eqb_eq, str_nil_inv in E2. rewrite E2. reflexivity.
Qed.

Ltac split_if H :=
  repeat (match type of H with
          | context [if ?c then _ else _] => destruct c eqn:?
          | context [match ?c with Some _ => _ | None => _ end] => destruct c eqn:?
          end; try discriminate H).

Lemma error_null_valid e : getEmailValidationError e = None -> isValidEmail e = true.
Proof.
  intros H. unfold getEmailValidationError in H. cbv zeta in H.
  split_if H.
  rewrite <- isValidEmail_trimmed.
  match goal with E : negb _ = false |- _ => apply negb_false_iff in E; exact E end.
Qed.

Lemma valid_error_null e : isValidEmail e = true -> getEmailValidationError e = None.
Proof.
  intros H. pose proof H as Hv. unfold isValidEmail in H. cbv zeta in H.
  split_if H.
  repeat match goal with
         | E : (_ || _) = false |- _ => apply orb_false_elim in E as [? ?]
         end.
  match goal with
  | E : negb (test_anchored emailRegex _) = false |- _ =>
      apply negb_false_iff in E;
      pose proof (emailRegex_includes_at _ E) as Hinc;
      pose proof (emailRegex_count_at _ E) as Hcnt
  end.
  unfold getEmailValidationError. cbv zeta.
  rewrite isValidEmail_trimmed, Hv, Hinc, Hcnt.
  repeat match goal with
         | E : ?c = false |- context [if ?c then _ else _] => rewrite E
         | E : ?c = false |- context [if negb ?c then _ else _] => rewrite E
         | E : ?c = false |- context [if ?c || _ then _ else _] => rewrite E
         | E : ?c = false |- context [if _ || ?c then _ else _] => rewrite E
         | E : ?c = true |- context [if negb ?c then _ else _] => rewrite E
         | E : ?c = Some _ |- context [match ?c with Some _ => _ | None => _ end] => rewrite E
         | |- context [negb true] => cbn [negb]
         | |- context [false || false] => cbn [orb]
         end.
  reflexivity.
Qed.

End EmailFacts.

(** * Addresses the validator accepts *)

Module EmailShapeFacts.
Import Regex RegexFacts TextFacts EmailValidator EmailShape EmailFacts.

Ltac char_cases c :=
  destruct c as [[] [] [] [] [] [] [] []]; vm_compute; intros;
  first [reflexivity | discriminate | congruence].

Lemma local_char_not_space c : local_char c = true -> is_js_space c = false.
Proof. char_cases c. Qed.

Lemma alpha_not_space c : is_alpha c = true -> is_js_space c = false.
Proof. char_cases c. Qed.

Lemma alpha_alnum_hyphen c : is_alpha c = true -> alnum_hyphen c = true.
Proof. char_cases c. Qed.

Lemma alpha_not_hyphen c : is_alpha c = true -> Ascii.eqb "-" c = false.
Proof. char_cases c. Qed.

Lemma alnum_hyphen_not_dot c : alnum_hyphen c = true -> c <> "."%char.
Proof. intros H ->. vm_compute in H. discriminate. Qed.

Lemma alnum_hyphen_cases c :
  alnum_hyphen c = true -> Ascii.eqb "-" c = false -> is_alnum c = true.
Proof.
  unfold alnum_hyphen. rewrite (eqb_sym "-" c). intros H E. rewrite E, orb_false_r in H. exact H.
Qed.

(** ** Words of the regular expressions *)

Lemma lang_star_class p s : forallb p s = true -> lang (Star (Class p)) s.
Proof.
  induction s as [|c s IH]; simpl; intros H; [constructor|].
  apply andb_true_iff in H as [Hc Hs].
  apply (lang_star_cons _ [c] s); [constructor; exact Hc | auto].
Qed.

Lemma lang_plus_class p s :
  s <> [] -> forallb p s = true -> lang (Plus (Class p)) s.
Proof.
  destruct s as [|c s]; [congruence|]. simpl. intros _ H.
  apply andb_true_iff in H as [Hc Hs].
  apply (lang_cat _ _ [c] s); [constructor; exact Hc | apply lang_star_class; exact Hs].
Qed.

Lemma lang_upto_class p n : forall s,
  forallb p s = true -> (length s <= n)%nat -> lang (Upto n (Class p)) s.
Proof.
  induction n as [|n IH]; intros [|c s] H L; simpl in *; try lia.
  - constructor.
  - apply lang_alt_l. constructor.
  - apply andb_true_iff in H as [Hc Hs]. apply lang_alt_r.
    apply (lang_cat _ _ [c] s); [constructor; exact Hc | apply IH; [exact Hs | lia]].
Qed.

Lemma lang_star_any s : lang (Star Any) s.
Proof. apply lang_star_class. induction s; simpl; auto. Qed.

Lemma test_search_class p s : existsb p s = true -> test_search (Class p) s = true.
Proof.
  intros H. apply matches_lang. apply existsb_exists in H as (c & Hin & Hc).
  apply in_split in Hin as (a & b & ->).
  apply lang_cat; [apply lang_star_any|].
  apply (lang_cat _ _ [c] b); [constructor; exact Hc | apply lang_star_any].
Qed.

Lemma ends_with_snoc c s z : ends_with [c] (s ++ [z]) = Ascii.eqb c z.
Proof. unfold ends_with. rewrite rev_app_distr. simpl. apply andb_true_r. Qed.

Lemma starts_with_cons c x s : starts_with [c] (x :: s) = Ascii.eqb c x.
Proof. simpl. apply andb_true_r. Qed.

Lemma label_ok_parts lab :
  label_ok lab = true ->
  (1 <= length lab <= 63)%nat /\ forallb alnum_hyphen lab = true
  /\ starts_with (chars "-") lab = false /\ ends_with (chars "-") lab = false.
Proof.
  unfold label_ok. rewrite !andb_true_iff, !negb_true_iff, !Nat.leb_le. tauto.
Qed.

Lemma label_ok_lang lab : label_ok lab = true -> lang labelRegex lab.
Proof.
  intros H. apply label_ok_parts in H as (L & Hall & Hs & He).
  destruct lab as [|c rest]; [simpl in L; lia|].
  change (chars "-") with ["-"%char] in *.
  rewrite starts_with_cons in Hs. simpl in Hall. apply andb_true_iff in Hall as [Hc Hrest].
  unfold labelRegex. apply (lang_cat _ _ [c] rest).
  { constructor. apply alnum_hyphen_cases; assumption. }
  destruct (snoc_cases rest) as [-> | (mid & z & ->)].
  - apply lang_alt_l. constructor.
  - apply lang_alt_r.
    change (c :: mid ++ [z]) with ((c :: mid) ++ [z]) in He.
    rewrite ends_with_snoc in He.
    rewrite forallb_app in Hrest. apply andb_true_iff in Hrest as [Hmid Hz].
    simpl in Hz. rewrite andb_true_r in Hz.
    apply lang_cat.
    + apply lang_upto_class; [exact Hmid|].
      simpl in L. rewrite length_app in L. simpl in L. lia.
    + constructor. apply alnum_hyphen_cases; assumption.
Qed.

Lemma tld_ok_parts t :
  tld_ok t = true -> (2 <= length t <= 63)%nat /\ forallb is_alpha t = true.
Proof. unfold tld_ok. rewrite !andb_true_iff, !Nat.leb_le. tauto. Qed.

Lemma forallb_impl {A : Type} (p q : A -> bool) (l : list A) :
  (forall x, p x = true -> q x = true) -> forallb p l = true -> forallb q l = true.
Proof.
  intros Hpq. induction l as [|x l IH]; simpl; [auto|].
  rewrite !andb_true_iff. intros [? ?]. auto.
Qed.

(** The final label is a label. *)
Lemma tld_ok_label t : tld_ok t = true -> label_ok t = true.
Proof.
  intros H. apply tld_ok_parts in H as (L & Hall).
  unfold label_ok. rewrite !andb_true_iff, !negb_true_iff, !Nat.leb_le.
  destruct t as [|c rest]; [simpl in L; lia|].
  change (chars "-") with ["-"%char].
  repeat split; try lia.
  - eapply forallb_impl; [apply alpha_alnum_hyphen | exact Hall].
  - rewrite starts_with_cons. simpl in Hall. apply andb_true_iff in Hall as [Hc _].
    apply alpha_not_hyphen; exact Hc.
  - destruct (snoc_cases (c :: rest)) as [E | (m & z & E)]; [discriminate|].
    rewrite E in *. rewrite ends_with_snoc.
    rewrite forallb_app in Hall. apply andb_true_iff in Hall as [_ Hz].
    simpl in Hz. rewrite andb_true_r in Hz. apply alpha_not_hyphen; exact Hz.
Qed.

(** ** Splitting and joining *)

Lemma split_on_absent c s : free_of c s -> split_on c s = [s].
Proof.
  induction 1 as [|x s Hx _ IH]; simpl; [reflexivity|].
  apply eqb_neq in Hx. rewrite Hx, IH. reflexivity.
Qed.

Lemma split_on_app c a b : free_of c a -> split_on c (a ++ c :: b) = a :: split_on c b.
Proof.
  induction 1 as [|x a Hx _ IH]; simpl.
  - rewrite Ascii.eqb_refl. reflexivity.
  - apply eqb_neq in Hx. rewrite Hx, IH. reflexivity.
Qed.

Lemma split_on_join c parts :
  parts <> [] -> Forall (free_of c) parts -> split_on c (join [c] parts) = parts.
Proof.
  intros Hne H. induction H as [|p ps Hp Hps IH]; [congruence|].
  destruct ps as [|q ps].
  - simpl. apply split_on_absent; exact Hp.
  - rewrite join_cons. cbn [app]. rewrite split_on_app by exact Hp.
    rewrite IH by discriminate. reflexivity.
Qed.

Lemma join_free c sep parts :
  free_of c sep -> Forall (free_of c) parts -> free_of c (join sep parts).
Proof.
  intros Hsep H. induction H as [|p ps Hp Hps IH]; [constructor|].
  destruct ps as [|q ps]; [exact Hp|].
  rewrite join_cons. unfold free_of in *. rewrite !Forall_app. auto.
Qed.

(** The domain: labels joined by dots. *)
Lemma domain_lang lab labs :
  Forall (fun l => lang labelRegex l) (lab :: labs) ->
  lang (Cat labelRegex (Star (Cat (Chr ".") labelRegex))) (join (chars ".") (lab :: labs)).
Proof.
  revert lab. induction labs as [|q labs IH]; intros lab H.
  - simpl. rewrite <- (app_nil_r lab). inversion H; subst.
    constructor; [assumption | constructor].
  - rewrite join_cons. inversion H as [|? ? Hlab Hrest]; subst.
    constructor; [exact Hlab|].
    specialize (IH q Hrest). apply lang_cat_inv in IH as (s1 & s2 & E & H1 & H2).
    rewrite E. change (chars "." ++ s1 ++ s2) with ((chars "." ++ s1) ++ s2).
    apply lang_star_cons; [|exact H2].
    apply lang_cat; [constructor; reflexivity | exact H1].
Qed.

Lemma forallb_free p c s :
  (forall x, p x = true -> x <> c) -> forallb p s = true -> free_of c s.
Proof.
  intros Hp. induction s as [|x s IH]; simpl; intros H; [constructor|].
  apply andb_true_iff in H as [Hx Hs].
  constructor; [apply Hp; exact Hx | apply IH; exact Hs].
Qed.

Lemma forallb_Forall_true {A : Type} (p : A -> bool) (l : list A) :
  forallb p l = true -> Forall (fun x => p x = true) l.
Proof.
  induction l as [|x l IH]; simpl; intros H; [constructor|].
  apply andb_true_iff in H as [Hx Hl]. constructor; auto.
Qed.

Lemma Forall_true_forallb {A : Type} (p : A -> bool) (l : list A) :
  Forall (fun x => p x = true) l -> forallb p l = true.
Proof. induction 1; simpl; [reflexivity|]. apply andb_true_iff; auto. Qed.

Lemma label_ok_passes lab : label_ok lab = true -> label_passes lab = true.
Proof.
  intros H. pose proof H as Hok. apply label_ok_parts in H as (L & Hall & Hs & He).
  unfold label_passes.
  replace (length lab =? 0)%nat with false by (symmetry; apply Nat.eqb_neq; lia).
  replace (63 <? length lab)%nat with false by (symmetry; apply Nat.ltb_ge; lia).
  rewrite Hs, He. simpl.
  replace (test_anchored (Plus (Class alnum_hyphen)) lab) with true; [reflexivity|].
  symmetry. apply matches_lang, lang_plus_class; [|exact Hall].
  destruct lab; [simpl in L; lia | discriminate].
Qed.

Lemma local_ok_parts l :
  local_ok l = true ->
  (1 <= length l <= 64)%nat /\ forallb local_char l = true /\ existsb is_alpha l = true
  /\ starts_with (chars ".") l = false /\ ends_with (chars ".") l = false
  /\ includes (chars "..") l = false.
Proof.
  unfold local_ok. rewrite !andb_true_iff, !negb_true_iff, !Nat.leb_le. tauto.
Qed.

(** Labels joined by dots start with a letter or digit. *)
Lemma join_labels_start (labels : list text) (tld : text) :
  labels <> [] -> forallb label_ok labels = true ->
  exists c r, join (chars ".") (labels ++ [tld]) = c :: r /\ is_alnum c = true.
Proof.
  intros Hne Hlabels.
  destruct labels as [|lab ls]; [congruence|].
  assert (Hlab : label_ok lab = true).
  { simpl in Hlabels. apply andb_true_iff in Hlabels as [H _]. exact H. }
  pose proof (label_ok_parts _ Hlab) as (L & Hall & Hs & _).
  destruct lab as [|c r]; [simpl in L; lia|].
  change (chars "-") with ["-"%char] in Hs. rewrite starts_with_cons in Hs.
  simpl in Hall. apply andb_true_iff in Hall as [Hc _].
  exists c.
  change (((c :: r) :: ls) ++ [tld]) with ((c :: r) :: (ls ++ [tld])).
  destruct (ls ++ [tld]) as [|q qs] eqn:E2; [destruct ls; discriminate|].
  rewrite join_cons. simpl app. eexists. split; [reflexivity|].
  apply alnum_hyphen_cases; assumption.
Qed.

Section Accepted.

Variables (local : text) (labels : list text) (tld : text).
Hypothesis Hlocal : local_ok local = true.
Hypothesis Hnonempty : labels <> [].
Hypothesis Hlabels : forallb label_ok labels = true.
Hypothesis Htld : tld_ok tld = true.
Hypothesis Hlength : (length (address local labels tld) <= 254)%nat.

Let domain : text := join (chars ".") (labels ++ [tld]).

Lemma all_labels_ok : Forall (fun l => label_ok l = true) (labels ++ [tld]).
Proof using All.
  apply Forall_app. split.
  - apply forallb_Forall_true; exact Hlabels.
  - constructor; [apply tld_ok_label; exact Htld | constructor].
Qed.

Lemma label_free c lab :
  (forall x, alnum_hyphen x = true -> x <> c) -> label_ok lab = true -> free_of c lab.
Proof using All.
  intros Hc H. apply label_ok_parts in H as (_ & Hall & _).
  eapply forallb_free; eassumption.
Qed.

Lemma domain_free c :
  (forall x, alnum_hyphen x = true -> x <> c) -> c <> "."%char -> free_of c domain.
Proof using All.
  intros Hc Hdot. apply join_free.
  - constructor; [congruence | constructor].
  - eapply Forall_impl; [apply all_labels_ok|]. intros l. apply label_free; exact Hc.
Qed.

Lemma domain_split : split_on "." domain = labels ++ [tld].
Proof using All.
  apply (split_on_join "."%char).
  - destruct labels; discriminate.
  - eapply Forall_impl; [apply all_labels_ok|]. intros l. apply label_free.
    apply alnum_hyphen_not_dot.
Qed.

Lemma address_split : split_on "@" (address local labels tld) = [local; domain].
Proof using All.
  unfold address. fold domain. rewrite split_on_app.
  - rewrite split_on_absent; [reflexivity|].
    apply domain_free; [apply alnum_hyphen_not_at | discriminate].
  - pose proof (local_ok_parts _ Hlocal) as (_ & Hall & _).
    eapply forallb_free; [|exact Hall]. apply local_char_not_at.
Qed.

Lemma address_lang : lang emailRegex (address local labels tld).
Proof using All.
  unfold address, emailRegex.
  pose proof (local_ok_parts _ Hlocal) as (L & Hall & _).
  apply lang_cat.
  - apply lang_plus_class; [|exact Hall]. destruct local; [simpl in L; lia | discriminate].
  - apply (lang_cat _ _ ["@"%char]); [constructor; reflexivity|].
    pose proof all_labels_ok as Hok.
    destruct (labels ++ [tld]) as [|lab labs] eqn:E; [destruct labels; discriminate|].
    apply domain_lang. eapply Forall_impl; [exact Hok|]. apply label_ok_lang.
Qed.

(** The domain ends with the final label. *)
Lemma domain_ends : exists pre, domain = pre ++ chars "." ++ tld.
Proof using All. exists (join (chars ".") labels). apply join_snoc; exact Hnonempty. Qed.

Lemma tld_last : exists m z, tld = m ++ [z] /\ is_alpha z = true.
Proof using All.
  pose proof (tld_ok_parts _ Htld) as (L & Hall).
  destruct (snoc_cases tld) as [-> | (m & z & ->)]; [simpl in L; lia|].
  exists m, z. split; [reflexivity|].
  rewrite forallb_app in Hall. apply andb_true_iff in Hall as [_ Hz].
  simpl in Hz. rewrite andb_true_r in Hz. exact Hz.
Qed.

(** The domain starts with a letter or digit. *)
Lemma domain_starts : exists c r, domain = c :: r /\ is_alnum c = true.
Proof using All. exact (join_labels_start labels tld Hnonempty Hlabels). Qed.

Lemma address_trim : trim (address local labels tld) = address local labels tld.
Proof using All.
  apply trim_fixed.
  - pose proof (local_ok_parts _ Hlocal) as (L & Hall & _).
    unfold address. destruct local as [|c0 l]; [simpl in L; lia|].
    simpl in Hall. apply andb_true_iff in Hall as [Hc _].
    intros c r [= <- _]. apply local_char_not_space; exact Hc.
  - destruct domain_ends as [pre Hpre]. destruct tld_last as (m & z & Ht & Hz).
    unfold address. fold domain. rewrite Hpre, Ht.
    intros c r. repeat (rewrite rev_app_distr; simpl).
    intros [= <- _]. apply alpha_not_space; exact Hz.
Qed.

Lemma address_length :
  length (address local labels tld) = (length local + 1 + length domain)%nat.
Proof using All. unfold address. fold domain. rewrite length_app. simpl. lia. Qed.

End Accepted.

Ltac feed H :=
  repeat match type of H with
         | ?A -> _ => specialize (H ltac:(assumption))
         end.

Lemma accepted (local : text) (labels : list text) (tld : text) :
  local_ok local = true ->
  labels <> [] ->
  forallb label_ok labels = true ->
  tld_ok tld = true ->
  (length (address local labels tld) <= 254)%nat ->
  isValidEmail (str (address local labels tld)) = true.
Proof.
  intros Hlocal Hne Hlabels Htld Hlen.
  pose proof (address_trim _ _ _ Hlocal Hne Hlabels Htld Hlen) as Etrim.
  pose proof (address_split _ _ _ Hlocal Hne Hlabels Htld Hlen) as Esplit.
  pose proof (address_lang _ _ _ Hlocal Hne Hlabels Htld Hlen) as Elang.
  pose proof (domain_split _ _ _ Hlocal Hne Hlabels Htld Hlen) as Edom.
  pose proof (all_labels_ok _ _ _ Hlocal Hne Hlabels Htld Hlen) as Hall.
  destruct (domain_ends _ _ _ Hlocal Hne Hlabels Htld Hlen) as [pre Hpre].
  destruct (domain_starts _ _ _ Hlocal Hne Hlabels Htld Hlen) as (d0 & dr & Hd0 & Hd0a).
  destruct (tld_last _ _ _ Hlocal Hne Hlabels Htld Hlen) as (m & z & Ht & Hz).
  pose proof (local_ok_parts _ Hlocal) as (L & Hlall & Hletter & Hls & Hle & Hdots).
  pose proof (tld_ok_parts _ Htld) as (Lt & Htall).
  pose proof (address_length _ _ _ Hlocal Hne Hlabels Htld Hlen) as Hx.
  set (domain := join (chars ".") (labels ++ [tld])) in *.
  set (x := address local labels tld) in *.
  assert (Hdl : (1 <= length domain)%nat) by (rewrite Hd0; simpl; lia).
  unfold isValidEmail.
  replace (String.eqb (str x) "") with false.
  2:{ symmetry. apply String.eqb_neq. intros E. apply str_nil_inv in E.
      rewrite E in Hx. simpl in Hx. lia. }
  rewrite chars_str, Etrim. cbv zeta. rewrite Esplit. cbn [nth nth_error].
  replace (length x =? 0)%nat with false by (symmetry; apply Nat.eqb_neq; lia).
  replace (254 <? length x)%nat with false by (symmetry; apply Nat.ltb_ge; lia).
  replace (test_anchored emailRegex x) with true by (symmetry; apply matches_lang; exact Elang).
  replace (length local =? 0)%nat with false by (symmetry; apply Nat.eqb_neq; lia).
  replace (64 <? length local)%nat with false by (symmetry; apply Nat.ltb_ge; lia).
  rewrite (test_search_class _ _ Hletter), Hls, Hle, Hdots.
  replace (length domain =? 0)%nat with false by (symmetry; apply Nat.eqb_neq; lia).
  replace (253 <? length domain)%nat with false by (symmetry; apply Nat.ltb_ge; lia).
  replace (includes (chars ".") domain) with true.
  2:{ symmetry. rewrite Hpre. apply includes_app. }
  replace (starts_with (chars ".") domain) with false.
  2:{ symmetry. rewrite Hd0. change (chars ".") with ["."%char]. rewrite starts_with_cons.
      apply eqb_neq. intros <-. vm_compute in Hd0a. discriminate. }
  replace (starts_with (chars "-") domain) with false.
  2:{ symmetry. rewrite Hd0. change (chars "-") with ["-"%char]. rewrite starts_with_cons.
      apply eqb_neq. intros <-. vm_compute in Hd0a. discriminate. }
  assert (Hend : exists pre', domain = pre' ++ [z]).
  { exists (pre ++ chars "." ++ m). rewrite Hpre, Ht, <- !app_assoc. reflexivity. }
  destruct Hend as [pre' Hend].
  replace (ends_with (chars ".") domain) with false.
  2:{ symmetry. rewrite Hend. change (chars ".") with ["."%char]. rewrite ends_with_snoc.
      apply eqb_neq. intros <-. vm_compute in Hz. discriminate. }
  replace (ends_with (chars "-") domain) with false.
  2:{ symmetry. rewrite Hend. change (chars "-") with ["-"%char]. rewrite ends_with_snoc.
      apply alpha_not_hyphen; exact Hz. }
  rewrite Edom.
  replace (forallb label_passes (labels ++ [tld])) with true.
  2:{ symmetry. apply Forall_true_forallb. eapply Forall_impl; [exact Hall|].
      apply label_ok_passes. }
  rewrite last_last.
  replace (length tld <? 2)%nat with false by (symmetry; apply Nat.ltb_ge; lia).
  replace (test_anchored (Plus (Class is_alpha)) tld) with true; [reflexivity|].
  symmetry. apply matches_lang, lang_plus_class; [|exact Htall].
  destruct tld; [simpl in Lt; lia | discriminate].
Qed.

End EmailShapeFacts.

(** * Decimal digits *)

Module DigitFacts.
Import JSON JSONText.

Ltac small_N d :=
  let p := fresh "p" in
  destruct d as [|p]; [|do 4 (try (destruct p as [p|p|]; try lia))].

Lemma digit_char_is_digit d : (d < 10)%N -> is_digit (digit_char d) = true.
Proof. intros H. small_N d; reflexivity. Qed.

Lemma digit_val_char d : (d < 10)%N -> digit_val (digit_char d) = d.
Proof. intros H. small_N d; reflexivity. Qed.

Lemma mod10_lt n : (n mod 10 < 10)%N.
Proof. apply N.mod_lt. discriminate. Qed.

Lemma digits_fixed_length w : forall n, length (digits_fixed w n) = w.
Proof.
  induction w as [|w IH]; intros n; simpl; [reflexivity|].
  rewrite length_app, IH. simpl. lia.
Qed.

Lemma digits_fixed_digits w : forall n, forallb is_digit (digits_fixed w n) = true.
Proof.
  induction w as [|w IH]; intros n; simpl; [reflexivity|].
  rewrite forallb_app, IH. simpl. rewrite digit_char_is_digit by apply mod10_lt. reflexivity.
Qed.

Lemma digits_value_snoc ds c :
  digits_value (ds ++ [c]) = (digits_value ds * 10 + digit_val c)%N.
Proof. unfold digits_value. rewrite fold_left_app. reflexivity. Qed.

Lemma digits_value_app a b :
  digits_value (a ++ b) = (digits_value a * 10 ^ N.of_nat (length b) + digits_value b)%N.
Proof.
  induction b as [|c b IH] using rev_ind.
  - rewrite app_nil_r. simpl. change (digits_value []) with 0%N. lia.
  - rewrite app_assoc, !digits_value_snoc, IH, length_app. simpl length.
    replace (N.of_nat (length b + 1)) with (N.succ (N.of_nat (length b))) by lia.
    rewrite N.pow_succ_r'. lia.
Qed.

Lemma digits_value_fixed w : forall n,
  digits_value (digits_fixed w n) = (n mod 10 ^ N.of_nat w)%N.
Proof.
  induction w as [|w IH]; intros n.
  - simpl. rewrite N.mod_1_r. reflexivity.
  - simpl digits_fixed. rewrite digits_value_snoc, IH, digit_val_char by apply mod10_lt.
    rewrite Nat2N.inj_succ, N.pow_succ_r', N.Div0.mod_mul_r. lia.
Qed.

Lemma strip_zeros_value s : digits_value (strip_zeros s) = digits_value s.
Proof.
  induction s as [|c s IH]; simpl; [reflexivity|].
  destruct (Ascii.eqb c "0") eqn:E; [|reflexivity].
  apply Ascii.eqb_eq in E as ->. rewrite IH.
  change ("0"%char :: s) with (["0"%char] ++ s). rewrite digits_value_app.
  change (digits_value ["0"%char]) with 0%N. lia.
Qed.

Lemma strip_zeros_digits s : forallb is_digit s = true -> forallb is_digit (strip_zeros s) = true.
Proof.
  induction s as [|c s IH]; simpl; [auto|].
  intros H. destruct (Ascii.eqb c "0"); [|exact H].
  apply andb_true_iff in H as [_ H]. auto.
Qed.

Lemma strip_zeros_head s c r : strip_zeros s = c :: r -> Ascii.eqb c "0" = false.
Proof.
  induction s as [|x s IH]; simpl; [discriminate|].
  destruct (Ascii.eqb x "0") eqn:E; [exact IH|].
  intros [= <- _]. exact E.
Qed.

Lemma decimal_digits n : forallb is_digit (decimal n) = true.
Proof.
  unfold decimal.
  pose proof (strip_zeros_digits _ (digits_fixed_digits (N.to_nat (N.size n)) n)) as H.
  destruct (strip_zeros _); [reflexivity | exact H].
Qed.

Lemma decimal_value n : digits_value (decimal n) = n.
Proof.
  unfold decimal.
  pose proof (strip_zeros_value (digits_fixed (N.to_nat (N.size n)) n)) as H.
  rewrite digits_value_fixed, N2Nat.id in H.
  assert (L : (n < 10 ^ N.size n)%N).
  { eapply N.lt_le_trans; [apply N.size_gt|]. apply N.pow_le_mono_l. lia. }
  rewrite N.mod_small in H by exact L.
  destruct (strip_zeros _); [|exact H].
  change (digits_value []) with 0%N in H. subst n. reflexivity.
Qed.

Lemma decimal_inj a b : decimal a = decimal b -> a = b.
Proof. intros H. rewrite <- (decimal_value a), <- (decimal_value b), H. reflexivity. Qed.

(** A decimal numeral is [0] or starts with a non-zero digit. *)
Lemma decimal_shape n :
  exists d ds, decimal n = d :: ds /\ is_digit d = true
               /\ (Ascii.eqb d "0" && negb (length ds =? 0)%nat = false).
Proof.
  pose proof (decimal_digits n) as Hd. unfold decimal in *.
  destruct (strip_zeros _) as [|d ds] eqn:E.
  - exists "0"%char, []. repeat split; reflexivity.
  - exists d, ds. simpl in Hd. apply andb_true_iff in Hd as [Hd _].
    repeat split; [exact Hd|]. rewrite (strip_zeros_head _ _ _ E). reflexivity.
Qed.

Lemma take_digits_app ds rest :
  forallb is_digit ds = true -> no_digit_ahead rest -> take_digits (ds ++ rest) = ds.
Proof.
  intros Hd Hr. induction ds as [|c ds IH]; simpl in *.
  - destruct rest as [|x r]; [reflexivity|]. simpl in *. rewrite Hr. reflexivity.
  - apply andb_true_iff in Hd as [Hc Hd]. rewrite Hc, IH by exact Hd. reflexivity.
Qed.

Lemma drop_digits_app ds rest :
  forallb is_digit ds = true -> no_digit_ahead rest -> drop_digits (ds ++ rest) = rest.
Proof.
  intros Hd Hr. induction ds as [|c ds IH]; simpl in *.
  - destruct rest as [|x r]; [reflexivity|]. simpl in *. rewrite Hr. reflexivity.
  - apply andb_true_iff in Hd as [Hc Hd]. rewrite Hc. apply IH; exact Hd.
Qed.

End DigitFacts.

(** * Numbers and strings survive printing and parsing *)

Module TokenFacts.
Import JSON JSONText DigitFacts.

Lemma ends_number_no_digit rest : ends_number rest = true -> no_digit_ahead rest.
Proof.
  destruct rest as [|c r]; simpl; [auto|].
  rewrite negb_true_iff, !orb_false_iff. tauto.
Qed.

Lemma digit_not_minus d : is_digit d = true -> Ascii.eqb d "-" = false.
Proof. destruct d as [[] [] [] [] [] [] [] []]; vm_compute; intros; congruence. Qed.

Lemma make_number_fixed neg a k :
  make_number neg a (0 - Z.of_nat k) =
  Num (if neg then (- Z.of_N a)%Z else Z.of_N a) k.
Proof.
  unfold make_number. destruct k as [|k].
  - simpl. rewrite Z.mul_1_r. reflexivity.
  - replace (0 <=? 0 - Z.of_nat (S k))%Z with false by (symmetry; apply Z.leb_gt; lia).
    f_equal. lia.
Qed.

Lemma parse_unsigned_text neg a k rest :
  ends_number rest = true ->
  parse_unsigned neg (unsigned_text a k ++ rest) =
  Some (Num (if neg then (- Z.of_N a)%Z else Z.of_N a) k, rest).
Proof.
  intros Hrest. unfold parse_unsigned. cbv zeta. unfold unsigned_text.
  set (p := (10 ^ N.of_nat k)%N).
  destruct (decimal_shape (a / p)) as (d & ds & ED & Hd & Hlead).
  pose proof (decimal_digits (a / p)) as HD.
  pose proof (decimal_value (a / p)) as HV.
  assert (Hexp : match rest with
                 | [] => True
                 | c :: _ => Ascii.eqb c "." = false /\ Ascii.eqb c "e" = false
                             /\ Ascii.eqb c "E" = false /\ is_digit c = false
                 end).
  { destruct rest as [|c r]; [exact I|]. simpl in Hrest.
    rewrite negb_true_iff, !orb_false_iff in Hrest. tauto. }
  destruct (k =? 0)%nat eqn:Ek.
  - apply Nat.eqb_eq in Ek. subst k. rewrite app_nil_r.
    rewrite take_digits_app, drop_digits_app by (auto using ends_number_no_digit).
    rewrite ED in *. rewrite Hlead.
    assert (Ea : digits_value ((d :: ds) ++ []) = a).
    { rewrite app_nil_r, HV. unfold p. simpl. apply N.div_1_r. }
    destruct rest as [|c r].
    + rewrite Ea. rewrite <- (make_number_fixed neg a 0). reflexivity.
    + destruct Hexp as (E1 & E2 & E3 & E4). rewrite E1, E2, E3. simpl orb. cbv iota.
      rewrite Ea. rewrite <- (make_number_fixed neg a 0). reflexivity.
  - apply Nat.eqb_neq in Ek.
    remember (digits_fixed k (a mod p)) as fd eqn:Efd.
    assert (Hfd : forallb is_digit fd = true) by (subst fd; apply digits_fixed_digits).
    assert (Lfd : length fd = k) by (subst fd; apply digits_fixed_length).
    rewrite <- app_assoc.
    rewrite take_digits_app, drop_digits_app by (try exact HD; reflexivity).
    rewrite ED in *. rewrite Hlead. cbn [app]. cbv beta iota. rewrite Ascii.eqb_refl.
    rewrite take_digits_app, drop_digits_app by (auto using ends_number_no_digit).
    assert (Ea : digits_value ((d :: ds) ++ fd) = a).
    { rewrite digits_value_app, HV, Lfd, Efd. rewrite digits_value_fixed.
      fold p. rewrite N.Div0.mod_mod, (N.mul_comm _ p). symmetry. apply N.Div0.div_mod. }
    clear Efd. destruct fd as [|f0 fd']; [simpl in Lfd; congruence|].
    cbv beta iota. cbn [app] in Ea.
    destruct rest as [|c r].
    + rewrite Ea, Lfd. rewrite <- (make_number_fixed neg a k). reflexivity.
    + destruct Hexp as (E1 & E2 & E3 & E4). rewrite E2, E3. simpl orb. cbv iota.
      rewrite Ea, Lfd. rewrite <- (make_number_fixed neg a k). reflexivity.
Qed.

Lemma unsigned_text_head a k :
  exists d r, unsigned_text a k = d :: r /\ is_digit d = true.
Proof.
  unfold unsigned_text.
  destruct (decimal_shape (a / 10 ^ N.of_nat k)) as (d & ds & -> & Hd & _).
  exists d. eexists. split; [reflexivity | exact Hd].
Qed.

Lemma number_to_text_unsigned n :
  number_to_text n =
  (if (mant n <? 0)%Z then ["-"%char] else []) ++ unsigned_text (Z.abs_N (mant n)) (scale n).
Proof. reflexivity. Qed.

(** A printed number is read back, whatever follows it. *)
Lemma parse_number_text n rest :
  ends_number rest = true -> parse_number (number_to_text n ++ rest) = Some (n, rest).
Proof.
  intros Hrest. rewrite number_to_text_unsigned. destruct n as [m k]. simpl mant. simpl scale.
  destruct (m <? 0)%Z eqn:Em.
  - apply Z.ltb_lt in Em. cbn [app]. unfold parse_number. rewrite Ascii.eqb_refl.
    rewrite (parse_unsigned_text true _ k rest Hrest).
    replace (- Z.of_N (Z.abs_N m))%Z with m by (rewrite N2Z.inj_abs_N; lia). reflexivity.
  - apply Z.ltb_ge in Em. cbn [app].
    destruct (unsigned_text_head (Z.abs_N m) k) as (d & r & E & Hd).
    unfold parse_number. rewrite E. cbn [app]. rewrite (digit_not_minus d Hd).
    change (d :: r ++ rest) with ((d :: r) ++ rest). rewrite <- E.
    rewrite (parse_unsigned_text false _ k rest Hrest).
    replace (Z.of_N (Z.abs_N m)) with m by (rewrite N2Z.inj_abs_N; lia). reflexivity.
Qed.

(** ** Strings *)

Lemma parse_quoted_char c tail :
  parse_string_body (quote_char c ++ tail) = cons_fst c (parse_string_body tail).
Proof. destruct c as [[] [] [] [] [] [] [] []]; reflexivity. Qed.

Lemma parse_string_quoted s rest :
  parse_string_body (flat_map quote_char s ++ dq :: rest) = Some (s, rest).
Proof.
  induction s as [|c s IH]; [reflexivity|].
  simpl flat_map. rewrite <- app_assoc, parse_quoted_char, IH. reflexivity.
Qed.

End TokenFacts.

(** * [JSON.parse] inverts [JSON.stringify] *)

Module JSONFacts.
Import JSON JSONText TextFacts DigitFacts TokenFacts.

(** Induction over JSON values, through arrays and objects. *)
Lemma json_induction (P : json -> Prop) :
  P JNull ->
  (forall b, P (JBool b)) ->
  (forall n, P (JNum n)) ->
  (forall s, P (JStr s)) ->
  (forall l, Forall P l -> P (JArr l)) ->
  (forall fs, Forall (fun kv => P (snd kv)) fs -> P (JObj fs)) ->
  forall v, P v.
Proof.
  intros Hnull Hbool Hnum Hstr Harr Hobj.
  fix IH 1. intros [| b | n | s | l | fs].
  - exact Hnull.
  - apply Hbool.
  - apply Hnum.
  - apply Hstr.
  - apply Harr. induction l as [|x l IHl]; constructor; [apply IH | exact IHl].
  - apply Hobj. induction fs as [|[k x] fs IHfs]; constructor; [apply IH | exact IHfs].
Qed.

(** ** White space *)

Lemma skip_ws_app w s : forallb is_ws w = true -> skip_ws (w ++ s) = skip_ws s.
Proof.
  induction w as [|c w IH]; simpl; [reflexivity|].
  intros H. apply andb_true_iff in H as [Hc Hw]. rewrite Hc. auto.
Qed.

Lemma skip_ws_fixed c s : is_ws c = false -> skip_ws (c :: s) = c :: s.
Proof. intros H. simpl. rewrite H. reflexivity. Qed.

Lemma line_break_ws gap indent :
  forallb is_ws gap = true -> forallb is_ws indent = true ->
  forallb is_ws (line_break gap indent) = true.
Proof. intros Hg Hi. destruct gap; simpl; [reflexivity | exact Hi]. Qed.

Lemma colon_shape gap :
  forallb is_ws gap = true -> exists w, colon gap = ":"%char :: w /\ forallb is_ws w = true.
Proof. intros _. destruct gap; simpl; eexists; split; reflexivity. Qed.

(** ** Unfolding the parser by one step *)

Lemma parse_value_S fuel s :
  parse_value (S fuel) s =
  match skip_ws s with
  | [] => None
  | c :: r =>
      if Ascii.eqb c "[" then
        match skip_ws r with
        | c' :: r' =>
            if Ascii.eqb c' "]" then Some (JArr [], r')
            else
              match parse_elements fuel r with
              | Some (l, r'') => Some (JArr l, r'')
              | None => None
              end
        | [] => None
        end
      else if Ascii.eqb c "{" then
        match skip_ws r with
        | c' :: r' =>
            if Ascii.eqb c' "}" then Some (JObj [], r')
            else
              match parse_members fuel r with
              | Some (fs, r'') => Some (JObj (set_fields fs []), r'')
              | None => None
              end
        | [] => None
        end
      else if Ascii.eqb c dq then
        match parse_string_body r with
        | Some (t, r') => Some (JStr (str t), r')
        | None => None
        end
      else
        match strip_prefix (chars "null") (c :: r) with
        | Some r' => Some (JNull, r')
        | None =>
            match strip_prefix (chars "true") (c :: r) with
            | Some r' => Some (JBool true, r')
            | None =>
                match strip_prefix (chars "false") (c :: r) with
                | Some r' => Some (JBool false, r')
                | None =>
                    match parse_number (c :: r) with
                    | Some (n, r') => Some (JNum n, r')
                    | None => None
                    end
                end
            end
        end
  end.
Proof. reflexivity. Qed.

Lemma parse_elements_S fuel s :
  parse_elements (S fuel) s =
  match parse_value fuel s with
  | None => None
  | Some (v, r) =>
      match skip_ws r with
      | c :: r' =>
          if Ascii.eqb c "," then cons_fst v (parse_elements fuel r')
          else if Ascii.eqb c "]" then Some ([v], r')
          else None
      | [] => None
      end
  end.
Proof. reflexivity. Qed.

Lemma parse_members_S fuel s :
  parse_members (S fuel) s =
  match skip_ws s with
  | q :: r0 =>
      if Ascii.eqb q dq then
        match parse_string_body r0 with
        | None => None
        | Some (k, r1) =>
            match skip_ws r1 with
            | c1 :: r2 =>
                if Ascii.eqb c1 ":" then
                  match parse_value fuel r2 with
                  | None => None
                  | Some (v, r3) =>
                      match skip_ws r3 with
                      | c :: r' =>
                          if Ascii.eqb c "," then
                            cons_fst (str k, v) (parse_members fuel r')
                          else if Ascii.eqb c "}" then Some ([(str k, v)], r')
                          else None
                      | [] => None
                      end
                  end
                else None
            | [] => None
            end
        end
      else None
  | [] => None
  end.
Proof. reflexivity. Qed.

Lemma skip_ws_idem s : skip_ws (skip_ws s) = skip_ws s.
Proof.
  induction s as [|c s IH]; simpl; [reflexivity|].
  destruct (is_ws c) eqn:E; [exact IH|]. simpl. rewrite E. reflexivity.
Qed.

(** Leading white space is skipped. *)
Lemma parse_value_ws fuel w s :
  forallb is_ws w = true -> parse_value fuel (w ++ s) = parse_value fuel s.
Proof.
  intros Hw. destruct fuel; [reflexivity|].
  rewrite !parse_value_S, skip_ws_app by exact Hw. reflexivity.
Qed.

Lemma parse_elements_ws fuel w s :
  forallb is_ws w = true -> parse_elements fuel (w ++ s) = parse_elements fuel s.
Proof.
  intros Hw. destruct fuel; [reflexivity|].
  rewrite !parse_elements_S, parse_value_ws by exact Hw. reflexivity.
Qed.

Lemma parse_members_ws fuel w s :
  forallb is_ws w = true -> parse_members fuel (w ++ s) = parse_members fuel s.
Proof.
  intros Hw. destruct fuel; [reflexivity|].
  rewrite !parse_members_S, skip_ws_app by exact Hw. reflexivity.
Qed.

(** ** First characters *)

Ltac char_cases c :=
  destruct c as [[] [] [] [] [] [] [] []]; vm_compute; intros;
  first [reflexivity | discriminate | congruence | tauto].

Lemma value_start_not_ws c : value_start c = true -> is_ws c = false.
Proof. char_cases c. Qed.

Lemma value_start_not_bracket c : value_start c = true -> Ascii.eqb c "]" = false.
Proof. char_cases c. Qed.

Lemma value_start_not_brace c : value_start c = true -> Ascii.eqb c "}" = false.
Proof. char_cases c. Qed.

Lemma digit_value_start c : is_digit c = true -> value_start c = true.
Proof. unfold value_start. intros ->. reflexivity. Qed.

Lemma number_to_text_head n :
  exists c r, number_to_text n = c :: r /\ (c = "-"%char \/ is_digit c = true).
Proof.
  rewrite number_to_text_unsigned.
  destruct (unsigned_text_head (Z.abs_N (mant n)) (scale n)) as (d & r & E & Hd).
  destruct (mant n <? 0)%Z; rewrite E; simpl; eauto.
Qed.

Lemma ser_head gap indent v :
  exists c r, ser gap indent v = c :: r /\ value_start c = true.
Proof.
  destruct v as [| [|] | n | s | [|x l] | [|kv fs]]; simpl;
    try (eexists; eexists; split; [reflexivity | reflexivity]).
  destruct (number_to_text_head n) as (c & r & E & [-> | Hd]); rewrite E.
  - eexists; eexists; split; reflexivity.
  - eexists; eexists; split; [reflexivity | apply digit_value_start; exact Hd].
Qed.

Lemma closer_ends c : closer c = true -> ends_number [c] = true.
Proof. char_cases c. Qed.

Lemma ws_ends c : is_ws c = true -> ends_number [c] = true.
Proof. char_cases c. Qed.

Lemma closer_not_ws c : closer c = true -> is_ws c = false.
Proof. char_cases c. Qed.

Lemma ends_after_ws w c rest :
  forallb is_ws w = true -> closer c = true -> ends_number (w ++ c :: rest) = true.
Proof.
  intros Hw Hc. destruct w as [|x w]; simpl app.
  - exact (closer_ends c Hc).
  - simpl in Hw. apply andb_true_iff in Hw as [Hx _]. exact (ws_ends x Hx).
Qed.

Lemma skip_ws_to_closer w c rest :
  forallb is_ws w = true -> closer c = true -> skip_ws (w ++ c :: rest) = c :: rest.
Proof.
  intros Hw Hc. rewrite skip_ws_app by exact Hw.
  apply skip_ws_fixed, closer_not_ws, Hc.
Qed.

(** ** Leaves *)

Lemma parse_value_number fuel c r :
  c = "-"%char \/ is_digit c = true ->
  parse_value (S fuel) (c :: r) =
  match parse_number (c :: r) with
  | Some (n, r') => Some (JNum n, r')
  | None => None
  end.
Proof.
  intros H. rewrite parse_value_S.
  destruct c as [[] [] [] [] [] [] [] []];
    first [reflexivity | exfalso; destruct H as [H | H]; vm_compute in H; discriminate].
Qed.

Lemma parse_value_num fuel n rest :
  ends_number rest = true ->
  parse_value (S fuel) (number_to_text n ++ rest) = Some (JNum n, rest).
Proof.
  intros Hrest. destruct (number_to_text_head n) as (c & r & E & Hc).
  pose proof (parse_number_text n rest Hrest) as Hp.
  rewrite E in *. cbn [app] in *. rewrite parse_value_number by exact Hc.
  rewrite Hp. reflexivity.
Qed.

Lemma parse_value_str fuel s rest :
  parse_value (S fuel) (quote (chars s) ++ rest) = Some (JStr s, rest).
Proof.
  rewrite parse_value_S. unfold quote. cbn [app].
  rewrite skip_ws_fixed by reflexivity.
  change (Ascii.eqb dq "[") with false. change (Ascii.eqb dq "{") with false.
  rewrite Ascii.eqb_refl. cbv iota.
  rewrite <- app_assoc. cbn [app]. rewrite parse_string_quoted, str_chars. reflexivity.
Qed.

(** ** Arrays and objects *)

Lemma ser_arr_text gap indent x l rest :
  ser gap indent (JArr (x :: l)) ++ rest =
  "["%char :: line_break gap (indent ++ gap)
    ++ (join (","%char :: line_break gap (indent ++ gap))
             (map (ser gap (indent ++ gap)) (x :: l))
        ++ line_break gap indent ++ "]"%char :: rest).
Proof.
  change (ser gap indent (JArr (x :: l))) with
    ("["%char :: line_break gap (indent ++ gap)
       ++ join (","%char :: line_break gap (indent ++ gap))
            (map (ser gap (indent ++ gap)) (x :: l))
       ++ line_break gap indent ++ ["]"%char]).
  cbn [app]. rewrite <- !app_assoc. reflexivity.
Qed.

Lemma ser_obj_text gap indent kv fs rest :
  ser gap indent (JObj (kv :: fs)) ++ rest =
  "{"%char :: line_break gap (indent ++ gap)
    ++ (join (","%char :: line_break gap (indent ++ gap))
             (map (member_text gap (indent ++ gap)) (kv :: fs))
        ++ line_break gap indent ++ "}"%char :: rest).
Proof.
  change (ser gap indent (JObj (kv :: fs))) with
    ("{"%char :: line_break gap (indent ++ gap)
       ++ join (","%char :: line_break gap (indent ++ gap))
            (map (member_text gap (indent ++ gap)) (kv :: fs))
       ++ line_break gap indent ++ ["}"%char]).
  cbn [app]. rewrite <- !app_assoc. reflexivity.
Qed.

Lemma member_text_head gap inner kv : exists r, member_text gap inner kv = dq :: r.
Proof. unfold member_text, quote. eexists. reflexivity. Qed.

Lemma join_head sep c r ps : exists r', join sep ((c :: r) :: ps) = c :: r'.
Proof. destruct ps; simpl; eauto. Qed.

Lemma set_field_fresh k v acc :
  k ∉ map fst acc -> set_field k v acc = acc ++ [(k, v)].
Proof.
  induction acc as [|[k' v'] acc IH]; simpl; intros Hk; [reflexivity|].
  apply not_elem_of_cons in Hk as [Hne Hk].
  destruct (String.eqb k k') eqn:E.
  - apply String.eqb_eq in E. congruence.
  - rewrite IH by exact Hk. reflexivity.
Qed.

Lemma set_fields_fresh fs : forall acc,
  NoDup (map fst acc ++ map fst fs) -> set_fields fs acc = acc ++ fs.
Proof.
  unfold set_fields. induction fs as [|[k v] fs IH]; intros acc H; simpl.
  - rewrite app_nil_r. reflexivity.
  - simpl in H. rewrite set_field_fresh.
    + rewrite IH.
      * rewrite <- app_assoc. reflexivity.
      * rewrite map_app. simpl. rewrite <- app_assoc. exact H.
    + apply NoDup_app in H as (_ & H & _). intros Hin. apply (H k Hin). left.
Qed.

Lemma set_fields_nodup fs : NoDup (map fst fs) -> set_fields fs [] = fs.
Proof. intros H. apply (set_fields_fresh fs []). exact H. Qed.

Lemma elems_size_cons x l : elems_size (x :: l) = (S (size x) + elems_size l)%nat.
Proof.
  unfold elems_size. cbn [map].
  change (list_sum (S (size x) :: ?l)) with (S (size x) + list_sum l)%nat. lia.
Qed.

Lemma elems_size_pos l : (1 <= elems_size l)%nat.
Proof. unfold elems_size. lia. Qed.

Lemma members_size_cons kv fs :
  members_size (kv :: fs) = (S (size (snd kv)) + members_size fs)%nat.
Proof.
  unfold members_size. cbn [map].
  change (list_sum (S (size (snd kv)) :: ?l)) with (S (size (snd kv)) + list_sum l)%nat. lia.
Qed.

Lemma members_size_pos fs : (1 <= members_size fs)%nat.
Proof. unfold members_size. lia. Qed.

Lemma size_arr l : size (JArr l) = S (elems_size l).
Proof. reflexivity. Qed.

Lemma size_obj fs : size (JObj fs) = S (members_size fs).
Proof. reflexivity. Qed.

Section RoundTrip.

Variable gap : text.
Hypothesis Hgap : forallb is_ws gap = true.

Lemma parse_elements_join inner l :
  forallb is_ws inner = true ->
  l <> [] ->
  Forall (reads_back gap) l ->
  forallb wf l = true ->
  forall fuel w rest,
    (elems_size l <= fuel)%nat ->
    forallb is_ws w = true ->
    parse_elements fuel
      (join (","%char :: line_break gap inner) (map (ser gap inner) l)
         ++ w ++ "]"%char :: rest) = Some (l, rest).
Proof.
  intros Hinner Hne Hall. induction Hall as [|x l Hx Hl IH]; [congruence|].
  intros Hwf fuel w rest Hfuel Hw.
  simpl in Hwf. apply andb_true_iff in Hwf as [Hwx Hwl].
  rewrite elems_size_cons in Hfuel. pose proof (elems_size_pos l) as Hpos.
  destruct fuel as [|fuel]; [lia|]. rewrite parse_elements_S.
  destruct l as [|y l].
  - simpl join. simpl map.
    rewrite (Hx inner (w ++ "]"%char :: rest) fuel Hinner Hwx) by
      (first [apply ends_after_ws; [exact Hw | reflexivity] | lia]).
    rewrite skip_ws_to_closer by (first [exact Hw | reflexivity]).
    reflexivity.
  - change (map (ser gap inner) (x :: y :: l)) with
      (ser gap inner x :: ser gap inner y :: map (ser gap inner) l).
    rewrite join_cons.
    change (ser gap inner y :: map (ser gap inner) l) with (map (ser gap inner) (y :: l)).
    rewrite <- !app_assoc. cbn [app].
    rewrite (Hx inner _ fuel Hinner Hwx); [| reflexivity | lia].
    rewrite skip_ws_fixed by reflexivity.
    change (Ascii.eqb "," ",") with true. cbv iota.
    rewrite parse_elements_ws by (apply line_break_ws; assumption).
    rewrite IH; [reflexivity | discriminate | exact Hwl | lia | exact Hw].
Qed.

Lemma parse_member fuel inner kv rest :
  forallb is_ws inner = true ->
  reads_back gap (snd kv) ->
  wf (snd kv) = true ->
  ends_number rest = true ->
  (size (snd kv) <= fuel)%nat ->
  parse_members (S fuel) (member_text gap inner kv ++ rest) =
  match skip_ws rest with
  | c :: r' =>
      if Ascii.eqb c "," then cons_fst kv (parse_members fuel r')
      else if Ascii.eqb c "}" then Some ([kv], r')
      else None
  | [] => None
  end.
Proof.
  intros Hinner Hv Hwf Hrest Hfuel. destruct kv as [k v]. cbn [fst snd] in *.
  rewrite parse_members_S. unfold member_text, quote. cbn [fst snd app].
  rewrite skip_ws_fixed by reflexivity. rewrite Ascii.eqb_refl.
  rewrite <- !app_assoc. cbn [app]. rewrite parse_string_quoted.
  destruct (colon_shape gap Hgap) as (w & -> & Hw). cbn [app].
  rewrite skip_ws_fixed by reflexivity.
  change (Ascii.eqb ":" ":") with true. cbv iota.
  rewrite parse_value_ws by exact Hw.
  rewrite (Hv inner rest fuel Hinner Hwf Hrest Hfuel), str_chars. reflexivity.
Qed.

Lemma parse_members_join inner fs :
  forallb is_ws inner = true ->
  fs <> [] ->
  Forall (fun kv => reads_back gap (snd kv)) fs ->
  forallb (fun kv => wf (snd kv)) fs = true ->
  forall fuel w rest,
    (members_size fs <= fuel)%nat ->
    forallb is_ws w = true ->
    parse_members fuel
      (join (","%char :: line_break gap inner) (map (member_text gap inner) fs)
         ++ w ++ "}"%char :: rest) = Some (fs, rest).
Proof.
  intros Hinner Hne Hall. induction Hall as [|kv fs Hkv Hfs IH]; [congruence|].
  intros Hwf fuel w rest Hfuel Hw.
  simpl in Hwf. apply andb_true_iff in Hwf as [Hwx Hwl].
  rewrite members_size_cons in Hfuel. pose proof (members_size_pos fs) as Hpos.
  destruct fuel as [|fuel]; [lia|].
  destruct fs as [|kv' fs].
  - simpl join. simpl map.
    rewrite (parse_member fuel inner kv _ Hinner Hkv Hwx) by
      (first [apply ends_after_ws; [exact Hw | reflexivity] | lia]).
    rewrite skip_ws_to_closer by (first [exact Hw | reflexivity]).
    reflexivity.
  - change (map (member_text gap inner) (kv :: kv' :: fs)) with
      (member_text gap inner kv :: member_text gap inner kv' :: map (member_text gap inner) fs).
    rewrite join_cons.
    change (member_text gap inner kv' :: map (member_text gap inner) fs)
      with (map (member_text gap inner) (kv' :: fs)).
    rewrite <- !app_assoc. cbn [app].
    rewrite (parse_member fuel inner kv _ Hinner Hkv Hwx); [| reflexivity | lia].
    rewrite skip_ws_fixed by reflexivity.
    change (Ascii.eqb "," ",") with true. cbv iota.
    rewrite parse_members_ws by (apply line_break_ws; assumption).
    rewrite IH; [reflexivity | discriminate | exact Hwl | lia | exact Hw].
Qed.

Lemma inner_ws indent : forallb is_ws indent = true -> forallb is_ws (indent ++ gap) = true.
Proof. intros H. rewrite forallb_app, H, Hgap. reflexivity. Qed.

(** Every value is read back from its own text. *)
Lemma parse_value_ser v : reads_back gap v.
Proof.
  induction v as [| b | n | s | l IHl | fs IHfs] using json_induction;
    intros indent rest fuel Hindent Hwf Hrest Hfuel;
    (destruct fuel as [|fuel]; [simpl in Hfuel; lia|]).
  - reflexivity.
  - destruct b; reflexivity.
  - apply parse_value_num; exact Hrest.
  - apply parse_value_str.
  - destruct l as [|x l]; [reflexivity|].
    rewrite size_arr in Hfuel.
    rewrite ser_arr_text, parse_value_S. rewrite skip_ws_fixed by reflexivity.
    change (Ascii.eqb "[" "[") with true. cbv iota.
    destruct (ser_head gap (indent ++ gap) x) as (c & r & Ec & Hc).
    destruct (join_head (","%char :: line_break gap (indent ++ gap)) c r
                (map (ser gap (indent ++ gap)) l)) as (r' & Ej).
    pose proof (line_break_ws gap (indent ++ gap) Hgap (inner_ws indent Hindent)) as Hlb.
    rewrite skip_ws_app by exact Hlb.
    rewrite parse_elements_ws by exact Hlb.
    rewrite (parse_elements_join (indent ++ gap) (x :: l)); [
      | apply inner_ws; exact Hindent | discriminate | exact IHl | exact Hwf | lia
      | apply line_break_ws; assumption ].
    cbn [map]. rewrite Ec, Ej. cbn [app].
    rewrite skip_ws_fixed by (apply value_start_not_ws; exact Hc).
    rewrite (value_start_not_bracket c Hc). reflexivity.
  - destruct fs as [|kv fs]; [reflexivity|].
    rewrite size_obj in Hfuel.
    simpl in Hwf. apply andb_true_iff in Hwf as [Hnd Hwf].
    apply bool_decide_eq_true in Hnd.
    rewrite ser_obj_text, parse_value_S. rewrite skip_ws_fixed by reflexivity.
    change (Ascii.eqb "{" "[") with false. change (Ascii.eqb "{" "{") with true. cbv iota.
    pose proof (line_break_ws gap (indent ++ gap) Hgap (inner_ws indent Hindent)) as Hlb.
    rewrite skip_ws_app by exact Hlb.
    rewrite parse_members_ws by exact Hlb.
    rewrite (parse_members_join (indent ++ gap) (kv :: fs)); [
      | apply inner_ws; exact Hindent | discriminate | exact IHfs | exact Hwf | lia
      | apply line_break_ws; assumption ].
    destruct (member_text_head gap (indent ++ gap) kv) as (r & Em).
    destruct (join_head (","%char :: line_break gap (indent ++ gap)) dq r
                (map (member_text gap (indent ++ gap)) fs)) as (r' & Ej).
    cbn [map]. rewrite Em, Ej. cbn [app]. rewrite skip_ws_fixed by reflexivity.
    change (Ascii.eqb dq "}") with false. cbv iota.
    rewrite set_fields_nodup by exact Hnd. reflexivity.
Qed.

End RoundTrip.

(** ** The fuel of [JSON_parse] is enough *)

Lemma join_length sep ps : (list_sum (map (@length ascii) ps) <= length (join sep ps))%nat.
Proof.
  induction ps as [|p ps IH]; [simpl; lia|].
  destruct ps as [|q ps].
  - simpl. lia.
  - rewrite join_cons, !length_app.
    change (list_sum (map (@length ascii) (p :: q :: ps)))
      with (length p + list_sum (map (@length ascii) (q :: ps)))%nat.
    lia.
Qed.

Lemma sum_sizes_bound {A : Type} (sz : A -> nat) (txt : A -> text) (l : list A) :
  Forall (fun x => S (sz x) <= 2 * length (txt x))%nat l ->
  (list_sum (map (fun x => S (sz x)) l) <= 2 * list_sum (map (@length ascii) (map txt l)))%nat.
Proof.
  induction 1 as [|x l Hx _ IH]; [simpl; lia|].
  cbn [map].
  change (list_sum (S (sz x) :: ?r)) with (S (sz x) + list_sum r)%nat.
  change (list_sum (length (txt x) :: ?r)) with (length (txt x) + list_sum r)%nat.
  lia.
Qed.

Lemma number_to_text_length n : (1 <= length (number_to_text n))%nat.
Proof. destruct (number_to_text_head n) as (c & r & -> & _). simpl. lia. Qed.

Lemma size_le_text gap v : forall indent, (S (size v) <= 2 * length (ser gap indent v))%nat.
Proof.
  induction v as [| b | n | s | l IHl | fs IHfs] using json_induction; intros indent.
  - simpl. lia.
  - destruct b; simpl; lia.
  - pose proof (number_to_text_length n). simpl. lia.
  - simpl. lia.
  - destruct l as [|x l]; [simpl; lia|].
    pose proof (ser_arr_text gap indent x l []) as E. rewrite app_nil_r in E.
    rewrite E, size_arr. unfold elems_size.
    pose proof (sum_sizes_bound size (ser gap (indent ++ gap)) (x :: l)) as Hs.
    pose proof (join_length (","%char :: line_break gap (indent ++ gap))
                  (map (ser gap (indent ++ gap)) (x :: l))) as Hj.
    assert (Hall : Forall (fun y => S (size y) <= 2 * length (ser gap (indent ++ gap) y))%nat (x :: l)).
    { eapply Forall_impl; [exact IHl|]. intros y Hy. apply Hy. }
    specialize (Hs Hall).
    cbn [length]. rewrite !length_app. cbn [length]. lia.
  - destruct fs as [|kv fs]; [simpl; lia|].
    pose proof (ser_obj_text gap indent kv fs []) as E. rewrite app_nil_r in E.
    rewrite E, size_obj. unfold members_size.
    pose proof (sum_sizes_bound (fun kv => size (snd kv)) (member_text gap (indent ++ gap))
                  (kv :: fs)) as Hs.
    pose proof (join_length (","%char :: line_break gap (indent ++ gap))
                  (map (member_text gap (indent ++ gap)) (kv :: fs))) as Hj.
    assert (Hall : Forall (fun y => S (size (snd y))
                            <= 2 * length (member_text gap (indent ++ gap) y))%nat (kv :: fs)).
    { eapply Forall_impl; [exact IHfs|]. intros y Hy. cbn beta in Hy.
      specialize (Hy (indent ++ gap)). unfold member_text. rewrite !length_app. lia. }
    specialize (Hs Hall).
    cbn [length]. rewrite !length_app. cbn [length]. lia.
Qed.

Lemma repeat_space_ws n : forallb is_ws (repeat " "%char n) = true.
Proof. induction n; simpl; auto. Qed.

(** [JSON.parse] reads back what [JSON.stringify] prints, at any indentation. *)
Lemma JSON_parse_ser gap v :
  forallb is_ws gap = true -> wf v = true -> JSON_parse (str (ser gap [] v)) = Some v.
Proof.
  intros Hgap Hwf. unfold JSON_parse. rewrite chars_str.
  pose proof (size_le_text gap v []) as Hsize.
  pose proof (parse_value_ser gap Hgap v [] [] (2 * length (ser gap [] v) + 2)) as H.
  rewrite app_nil_r in H. rewrite H; [reflexivity | reflexivity | exact Hwf | reflexivity | lia].
Qed.

Lemma JSON_parse_stringify v : wf v = true -> JSON_parse (JSON_stringify v) = Some v.
Proof. apply (JSON_parse_ser []). reflexivity. Qed.

Lemma JSON_parse_stringify_indent n v :
  wf v = true -> JSON_parse (JSON_stringify_indent n v) = Some v.
Proof. apply JSON_parse_ser. apply repeat_space_ws. Qed.

End JSONFacts.

(** * Parsed values are well formed *)

Module ParsedFacts.
Import JSON JSONText TextFacts JSONFacts.

Lemma set_field_keys k v fs :
  map fst (set_field k v fs) = map fst fs
  \/ ((k ∉ map fst fs) /\ map fst (set_field k v fs) = map fst fs ++ [k]).
Proof.
  induction fs as [|[k0 v0] fs IH]; simpl.
  - right. split; [apply not_elem_of_nil | reflexivity].
  - destruct (String.eqb k k0) eqn:E; simpl.
    + apply String.eqb_eq in E. subst k0. left. reflexivity.
    + apply String.eqb_neq in E. destruct IH as [IH | [Hk IH]].
      * left. rewrite IH. reflexivity.
      * right. split; [|rewrite IH; reflexivity].
        apply not_elem_of_cons. auto.
Qed.

Lemma set_field_nodup k v fs :
  NoDup (map fst fs) -> NoDup (map fst (set_field k v fs)).
Proof.
  intros H. destruct (set_field_keys k v fs) as [-> | [Hk ->]]; [exact H|].
  apply NoDup_app. repeat split; [exact H | | apply NoDup_singleton].
  intros x Hx Hin. apply list_elem_of_singleton in Hin. subst x. contradiction.
Qed.

Lemma set_field_values_wf k v fs :
  wf v = true -> values_wf fs = true -> values_wf (set_field k v fs) = true.
Proof.
  unfold values_wf. intros Hv. induction fs as [|[k0 v0] fs IH]; simpl; intros H.
  - rewrite Hv. reflexivity.
  - apply andb_true_iff in H as [H0 H]. destruct (String.eqb k k0); simpl.
    + rewrite Hv, H. reflexivity.
    + rewrite H0, IH by exact H. reflexivity.
Qed.

Lemma set_fields_wf src : forall target,
  values_wf src = true ->
  NoDup (map fst target) -> values_wf target = true ->
  wf (JObj (set_fields src target)) = true.
Proof.
  unfold set_fields. induction src as [|[k v] src IH]; intros target Hs Hn Ht; simpl.
  - apply andb_true_iff. split; [apply bool_decide_eq_true_2; exact Hn | exact Ht].
  - unfold values_wf in Hs. simpl in Hs. apply andb_true_iff in Hs as [Hv Hs].
    apply IH; [exact Hs | apply set_field_nodup; exact Hn
              | apply set_field_values_wf; assumption].
Qed.

Lemma cons_fst_some {A B : Type} (a : A) (r : option (list A * B)) l b :
  cons_fst a r = Some (l, b) -> exists l', l = a :: l' /\ r = Some (l', b).
Proof.
  destruct r as [[l' b']|]; simpl; [|discriminate].
  intros [= <- <-]. eauto.
Qed.

Ltac split_match H :=
  repeat match type of H with
         | context [match ?c with _ => _ end] => destruct c eqn:?; try discriminate H
         end.

(** Whatever the parser returns has objects with distinct property names. *)
Lemma parsed_wf fuel :
  (forall s v r, parse_value fuel s = Some (v, r) -> wf v = true)
  /\ (forall s l r, parse_elements fuel s = Some (l, r) -> forallb wf l = true)
  /\ (forall s fs r, parse_members fuel s = Some (fs, r) -> values_wf fs = true).
Proof.
  induction fuel as [|fuel (IHv & IHe & IHm)].
  - repeat split; intros; discriminate.
  - repeat split.
    + intros s v r H. rewrite parse_value_S in H. split_match H;
        injection H as <- <-; try reflexivity.
      * simpl. eapply IHe; eassumption.
      * apply set_fields_wf; [eapply IHm; eassumption | constructor | reflexivity].
    + intros s l r H. rewrite parse_elements_S in H.
      destruct (parse_value fuel s) as [[v r0]|] eqn:Ev; [|discriminate].
      destruct (skip_ws r0) as [|c r']; [discriminate|].
      destruct (Ascii.eqb c ",").
      * apply cons_fst_some in H as (l' & -> & H). simpl.
        rewrite (IHv _ _ _ Ev), (IHe _ _ _ H). reflexivity.
      * destruct (Ascii.eqb c "]"); [|discriminate].
        injection H as <- <-. simpl. rewrite (IHv _ _ _ Ev). reflexivity.
    + intros s fs r H. rewrite parse_members_S in H.
      destruct (skip_ws s) as [|q r0]; [discriminate|].
      destruct (Ascii.eqb q dq); [|discriminate].
      destruct (parse_string_body r0) as [[k r1]|]; [|discriminate].
      destruct (skip_ws r1) as [|c1 r2]; [discriminate|].
      destruct (Ascii.eqb c1 ":"); [|discriminate].
      destruct (parse_value fuel r2) as [[v r3]|] eqn:Ev; [|discriminate].
      destruct (skip_ws r3) as [|c r']; [discriminate|].
      destruct (Ascii.eqb c ",").
      * apply cons_fst_some in H as (l' & -> & H). unfold values_wf. simpl.
        rewrite (IHv _ _ _ Ev). apply (IHm _ _ _ H).
      * destruct (Ascii.eqb c "}"); [|discriminate].
        injection H as <- <-. unfold values_wf. simpl. rewrite (IHv _ _ _ Ev). reflexivity.
Qed.

Lemma JSON_parse_wf s v : JSON_parse s = Some v -> wf v = true.
Proof.
  unfold JSON_parse. intros H.
  destruct (parse_value _ _) as [[v' r]|] eqn:E; [|discriminate].
  destruct (skip_ws r); [|discriminate]. injection H as <-.
  eapply (proj1 (parsed_wf _)); eassumption.
Qed.

Lemma JSON_parse_object_nodup s fs : JSON_parse s = Some (JObj fs) -> NoDup (map fst fs).
Proof.
  intros H. apply JSON_parse_wf in H. simpl in H.
  apply andb_true_iff in H as [H _]. apply bool_decide_eq_true_1 in H. exact H.
Qed.

End ParsedFacts.

(** * Saving and loading tasks *)

Module StorageFacts.
Import JSON Browser JSValue StorageJS StorageStates TextFacts JSONFacts.

Lemma accepts_enabled s k v : accepts s k v = true -> enabled s = true.
Proof. unfold accepts. intros H. apply andb_true_iff in H as [H _]. exact H. Qed.

Lemma setItem_accepted a k v w :
  accepts (area_of a w) k v = true ->
  setItem a k v w =
  (Ret tt, with_area a {| items := <[k:=v]> (items (area_of a w));
                          quota := quota (area_of a w);
                          enabled := enabled (area_of a w) |} w).
Proof.
  intros H. unfold setItem. rewrite (accepts_enabled _ _ _ H), H. reflexivity.
Qed.

Lemma setItem_refused a k v w :
  accepts (area_of a w) k v = false -> exists e, setItem a k v w = (Throw e, w).
Proof.
  intros H. unfold setItem. rewrite H.
  destruct (enabled (area_of a w)); simpl; eauto.
Qed.

Lemma setItem_session_local k v w :
  localStorage (snd (setItem Session k v w)) = localStorage w.
Proof.
  unfold setItem. destruct (negb _); [reflexivity|]. destruct (accepts _ _ _); reflexivity.
Qed.

Lemma stringify_array_nonempty x l : String.eqb (JSON_stringify (JArr (x :: l))) "" = false.
Proof.
  unfold JSON_stringify. pose proof (ser_arr_text [] [] x l []) as E.
  rewrite app_nil_r in E. rewrite E. reflexivity.
Qed.

(** ** [saveTasks] *)

Lemma setItem_written a k v w :
  accepts (area_of a w) k v = true -> setItem a k v w = (Ret tt, written a k v w).
Proof. apply setItem_accepted. Qed.

Section Save.

Variable backup : list json -> M unit.
Variable tasks : list json.
Variable w : World.

Lemma saveTasks_never_throws : exists b w', saveTasks backup tasks w = (Ret b, w').
Proof.
  unfold saveTasks, try_catch, bind, ret.
  destruct (setItem Local _ _ w) as [[[]|e] w1].
  - destruct (0 <? length tasks)%nat.
    + destruct (backup tasks w1) as [[[]|e] w2]; [eauto|].
      destruct (setItem Session _ _ w2) as [[[]|e'] w3]; eauto.
    + eauto.
  - destruct (setItem Session _ _ w1) as [[[]|e'] w3]; eauto.
Qed.

Lemma saveTasks_primary_ok :
  accepts (localStorage w) STORAGE_KEY (JSON_stringify (JArr tasks)) = true ->
  (tasks = [] \/
   exists w2, backup tasks (written Local STORAGE_KEY (JSON_stringify (JArr tasks)) w)
              = (Ret tt, w2)) ->
  result (saveTasks backup tasks w) = Ret true.
Proof.
  intros Hacc Hb. unfold result, saveTasks, try_catch, bind, ret.
  rewrite (setItem_written Local _ _ w Hacc).
  destruct Hb as [E | [w2 Hb]]; [rewrite E; reflexivity|].
  destruct (0 <? length tasks)%nat; [rewrite Hb|]; reflexivity.
Qed.

Lemma saveTasks_primary_kept :
  accepts (localStorage w) STORAGE_KEY (JSON_stringify (JArr tasks)) = true ->
  keeps_primary backup ->
  localStorage (snd (saveTasks backup tasks w)) =
  localStorage (written Local STORAGE_KEY (JSON_stringify (JArr tasks)) w).
Proof.
  intros Hacc Hkeep. unfold saveTasks, try_catch, bind, ret.
  rewrite (setItem_written Local _ _ w Hacc).
  destruct (0 <? length tasks)%nat; [|reflexivity].
  pose proof (Hkeep tasks (written Local STORAGE_KEY (JSON_stringify (JArr tasks)) w)) as Hk.
  destruct (backup tasks _) as [[[]|e] w2]; simpl in *; [exact Hk|].
  pose proof (setItem_session_local (STORAGE_KEY +:+ "_backup")
                (JSON_stringify (JArr tasks)) w2) as Hs.
  destruct (setItem Session _ _ w2) as [[[]|e'] w3]; simpl in *; congruence.
Qed.

Lemma saveTasks_primary_refused :
  accepts (localStorage w) STORAGE_KEY (JSON_stringify (JArr tasks)) = false ->
  saveTasks backup tasks w =
  (Ret false,
   if accepts (sessionStorage w) BACKUP_KEY (JSON_stringify (JArr tasks))
   then written Session BACKUP_KEY (JSON_stringify (JArr tasks)) w
   else w).
Proof.
  intros Hacc. unfold saveTasks, try_catch, bind, ret.
  destruct (setItem_refused Local _ _ w Hacc) as [e ->].
  fold BACKUP_KEY.
  destruct (accepts (sessionStorage w) BACKUP_KEY (JSON_stringify (JArr tasks))) eqn:Hs.
  - rewrite (setItem_written Session _ _ w Hs). reflexivity.
  - destruct (setItem_refused Session _ _ w Hs) as [e' ->]. reflexivity.
Qed.

End Save.

Section Load.

Variable seed : M (list json).
Variable w : World.

Lemma seed_or_empty_returns w0 :
  exists l w', try_catch seed (fun _ => ret []) w0 = (Ret l, w').
Proof. unfold try_catch, ret. destruct (seed w0) as [[l|e] w']; eauto. Qed.

Lemma loadTasks_never_throws : exists l w', loadTasks seed w = (Ret l, w').
Proof.
  unfold loadTasks. unfold try_catch at 1.
  match goal with |- context [match ?m w with _ => _ end] => destruct (m w) as [[l|e] w'] end.
  - eauto.
  - apply seed_or_empty_returns.
Qed.

Lemma loadTasks_primary l :
  primary w = Tasks l -> loadTasks seed w = (Ret l, w).
Proof.
  unfold primary, stored. cbn [area_of]. intros H.
  destruct (enabled (localStorage w)) eqn:En; [|discriminate].
  unfold loadTasks, parse, try_catch, bind, ret, throw, getItem. cbn [area_of]. rewrite En.
  unfold classify in H.
  destruct (items (localStorage w) !! STORAGE_KEY) as [d|]; [|discriminate].
  destruct (String.eqb d ""); [discriminate|].
  destruct (JSON_parse d) as [v|]; [|discriminate].
  destruct (nonempty_array v) as [l'|]; [|discriminate].
  injection H as ->. reflexivity.
Qed.

Ltac second_store :=
  cbv beta iota;
  repeat match goal with
         | E : ?x = _ |- context [?x] => rewrite E; cbv beta iota
         end;
  try reflexivity.

Lemma loadTasks_secondary l b :
  is_empty (primary w) = true ->
  enabled (sessionStorage w) = true ->
  items (sessionStorage w) !! BACKUP_KEY = Some b ->
  classify (Some b) = Tasks l ->
  accepts (localStorage w) STORAGE_KEY b = true ->
  loadTasks seed w = (Ret l, written Local STORAGE_KEY b w).
Proof.
  unfold primary, stored. cbn [area_of]. intros Hp Es Hb Hc Hacc.
  destruct (enabled (localStorage w)) eqn:En; [|discriminate].
  unfold loadTasks, parse, try_catch, bind, ret, throw, getItem. cbn [area_of]. rewrite En.
  fold BACKUP_KEY.
  unfold classify in Hc.
  destruct (String.eqb b "") eqn:Eb; [discriminate|].
  destruct (JSON_parse b) as [v|] eqn:Ep; [|discriminate].
  destruct (nonempty_array v) as [l'|] eqn:Ev; [|discriminate].
  injection Hc as ->.
  pose proof (setItem_written Local _ _ w Hacc) as Hset.
  unfold classify in Hp.
  destruct (items (localStorage w) !! STORAGE_KEY) as [d|].
  - destruct (String.eqb d "").
    + second_store.
    + destruct (JSON_parse d) as [v'|]; [|discriminate].
      destruct (nonempty_array v'); [discriminate|]. second_store.
  - second_store.
Qed.

(** Without stored tasks the result is what the seed loader and, after it,
    the empty collection give. *)
Lemma loadTasks_seed :
  falls_to_seed w = true ->
  loadTasks seed w =
  match seed w with
  | (Ret l, w') => (Ret l, w')
  | (Throw _, w') =>
      if is_broken (primary w) || is_broken (secondary w)
      then (Ret [], w')
      else try_catch seed (fun _ => ret []) w'
  end.
Proof.
  unfold falls_to_seed, primary, secondary, stored. cbn [area_of]. intros H.
  unfold loadTasks, parse, try_catch, bind, ret, throw, getItem. cbn [area_of].
  fold BACKUP_KEY.
  destruct (enabled (localStorage w)) eqn:En.
  2:{ simpl. destruct (seed w) as [[l|e] w']; reflexivity. }
  unfold classify in *.
  destruct (items (localStorage w) !! STORAGE_KEY) as [d|].
  - destruct (String.eqb d "").
    + simpl in H. simpl.
      destruct (enabled (sessionStorage w)) eqn:Es.
      2:{ destruct (seed w) as [[l|e] w']; reflexivity. }
      destruct (items (sessionStorage w) !! BACKUP_KEY) as [b|].
      * destruct (String.eqb b "").
        -- destruct (seed w) as [[l|e] w']; reflexivity.
        -- destruct (JSON_parse b) as [v|].
           ++ destruct (nonempty_array v); [discriminate|].
              destruct (seed w) as [[l|e] w']; reflexivity.
           ++ destruct (seed w) as [[l|e] w']; reflexivity.
      * destruct (seed w) as [[l|e] w']; reflexivity.
    + destruct (JSON_parse d) as [v|].
      * destruct (nonempty_array v); [discriminate|]. simpl in H. simpl.
        destruct (enabled (sessionStorage w)) eqn:Es.
        2:{ destruct (seed w) as [[l|e] w']; reflexivity. }
        destruct (items (sessionStorage w) !! BACKUP_KEY) as [b|].
        -- destruct (String.eqb b "").
           ++ destruct (seed w) as [[l|e] w']; reflexivity.
           ++ destruct (JSON_parse b) as [v'|].
              ** destruct (nonempty_array v'); [discriminate|].
                 destruct (seed w) as [[l|e] w']; reflexivity.
              ** destruct (seed w) as [[l|e] w']; reflexivity.
        -- destruct (seed w) as [[l|e] w']; reflexivity.
      * simpl. destruct (seed w) as [[l|e] w']; reflexivity.
  - simpl in H. simpl.
    destruct (enabled (sessionStorage w)) eqn:Es.
    2:{ destruct (seed w) as [[l|e] w']; reflexivity. }
    destruct (items (sessionStorage w) !! BACKUP_KEY) as [b|].
    + destruct (String.eqb b "").
      * destruct (seed w) as [[l|e] w']; reflexivity.
      * destruct (JSON_parse b) as [v|].
        -- destruct (nonempty_array v); [discriminate|].
           destruct (seed w) as [[l|e] w']; reflexivity.
        -- destruct (seed w) as [[l|e] w']; reflexivity.
    + destruct (seed w) as [[l|e] w']; reflexivity.
Qed.

Lemma loadTasks_seed_found l w' :
  falls_to_seed w = true -> seed w = (Ret l, w') -> loadTasks seed w = (Ret l, w').
Proof. intros H Hs. rewrite loadTasks_seed by exact H. rewrite Hs. reflexivity. Qed.

Lemma loadTasks_seed_missing :
  falls_to_seed w = true -> unavailable seed -> result (loadTasks seed w) = Ret [].
Proof.
  intros H Hs. rewrite loadTasks_seed by exact H.
  destruct (Hs w) as (e & w' & ->).
  destruct (_ || _); [reflexivity|].
  unfold result, try_catch, ret. destruct (Hs w') as (e' & w'' & ->). reflexivity.
Qed.

End Load.

End StorageFacts.

(** * Object properties *)

Module ObjectFacts.
Import JSON JSValue.

Lemma lookup_set_field k k' v fs :
  lookup_field k (set_field k' v fs) =
  if String.eqb k k' then Some v else lookup_field k fs.
Proof.
  induction fs as [|[k0 v0] fs IH]; simpl.
  - destruct (String.eqb k k'); reflexivity.
  - destruct (String.eqb k' k0) eqn:E0; simpl.
    + apply String.eqb_eq in E0. subst k0.
      destruct (String.eqb k k'); reflexivity.
    + destruct (String.eqb k k0) eqn:E1.
      * apply String.eqb_eq in E1. subst k0.
        rewrite String.eqb_sym, E0. reflexivity.
      * exact IH.
Qed.

Lemma lookup_absent k (fs : list (string * json)) :
  k ∉ map fst fs -> lookup_field k fs = None.
Proof.
  induction fs as [|[k0 v0] fs IH]; simpl; intros H; [reflexivity|].
  apply not_elem_of_cons in H as [Hne H].
  destruct (String.eqb k k0) eqn:E; [apply String.eqb_eq in E; congruence | auto].
Qed.

(** After [{...target, ...src}] a property of [src] wins over one of
    [target]. *)
Lemma lookup_set_fields k src : forall target,
  NoDup (map fst src) ->
  lookup_field k (set_fields src target) =
  match lookup_field k src with
  | Some v => Some v
  | None => lookup_field k target
  end.
Proof.
  unfold set_fields. induction src as [|[k0 v0] src IH]; intros target Hnd; simpl.
  - reflexivity.
  - apply NoDup_cons in Hnd as [Hk0 Hnd]. rewrite IH by exact Hnd.
    rewrite lookup_set_field.
    destruct (String.eqb k k0) eqn:E.
    + apply String.eqb_eq in E. subst k0. rewrite lookup_absent by exact Hk0. reflexivity.
    + reflexivity.
Qed.

End ObjectFacts.

(** * Settings *)

Module SettingsFacts.
Import JSON Browser JSValue StorageJS StorageStates TextFacts JSONFacts StorageFacts ObjectFacts.

Lemma loadSettings_persisted w d p :
  enabled (localStorage w) = true ->
  items (localStorage w) !! SETTINGS_KEY = Some d ->
  JSON_parse d = Some (JObj p) ->
  loadSettings w = (Ret (JObj (set_fields p defaults)), w).
Proof.
  intros En Hd Hp.
  unfold loadSettings, parse, try_catch, bind, ret, throw, getItem. cbn [area_of].
  rewrite En, Hd.
  destruct (String.eqb d "") eqn:E.
  - apply String.eqb_eq in E. subst d. discriminate Hp.
  - rewrite Hp. reflexivity.
Qed.

Lemma loadSettings_default w : no_settings w -> loadSettings w = (Ret defaultSettings, w).
Proof.
  unfold loadSettings, parse, try_catch, bind, ret, throw, getItem. cbn [area_of].
  intros [H | [H | [H | (d & H & Hp)]]]; rewrite H; try reflexivity.
  - destruct (enabled (localStorage w)); reflexivity.
  - destruct (enabled (localStorage w)); reflexivity.
  - destruct (enabled (localStorage w)); [|reflexivity].
    destruct (String.eqb d ""); [reflexivity|]. rewrite Hp. reflexivity.
Qed.

Lemma loadSettings_never_throws w : exists v w', loadSettings w = (Ret v, w').
Proof.
  unfold loadSettings. unfold try_catch.
  match goal with |- context [match ?m w with _ => _ end] => destruct (m w) as [[v|e] w'] end;
    unfold ret; eauto.
Qed.

End SettingsFacts.

(** * Export *)

Module ExportFacts.
Import Regex RegexFacts JSON Browser JSValue StorageJS TextFacts DigitFacts JSONFacts.

Lemma lang_rep_class p s : forallb p s = true -> lang (Rep (length s) (Class p)) s.
Proof.
  induction s as [|c s IH]; simpl; intros H; [constructor|].
  apply andb_true_iff in H as [Hc Hs].
  apply (lang_cat _ _ [c] s); [constructor; exact Hc | auto].
Qed.

Lemma lang_digits w n : lang (Rep w (Class is_digit)) (digits_fixed w n).
Proof.
  pose proof (lang_rep_class is_digit _ (digits_fixed_digits w n)) as H.
  rewrite digits_fixed_length in H. exact H.
Qed.

Lemma lang_sep c r s : lang r s -> lang (Cat (Chr c) r) (c :: s).
Proof.
  intros H. apply (lang_cat _ _ [c] s); [|exact H].
  constructor. apply Ascii.eqb_refl.
Qed.

Lemma toISOString_shape d : lang iso8601Regex (toISOString d).
Proof.
  unfold iso8601Regex, toISOString. cbv zeta.
  apply lang_cat.
  - destruct (year d <=? 9999)%N.
    + apply lang_alt_l, lang_digits.
    + apply lang_alt_r. apply (lang_cat _ _ ["+"%char]); [|apply lang_digits].
      constructor. reflexivity.
  - repeat (apply lang_sep; apply lang_cat; [apply lang_digits|]).
    constructor. reflexivity.
Qed.

Lemma generateTimestamp_iso now : is_iso8601 (generateTimestamp now) = true.
Proof.
  unfold is_iso8601, generateTimestamp. rewrite chars_str.
  apply matches_lang, toISOString_shape.
Qed.

End ExportFacts.

(** * Import *)

Module ImportFacts.
Import JSON Browser JSValue StorageJS ImportVerdicts TextFacts JSONFacts ObjectFacts.

Lemma filter_tasks_decided l :
  all_decided l = true ->
  filter_tasks validateTaskStructure l = Ret (List.filter passes l).
Proof.
  unfold all_decided. induction l as [|t l IH]; simpl; intros H; [reflexivity|].
  apply andb_true_iff in H as [Ht Hl]. rewrite IH by exact Hl.
  unfold passes, fails in *.
  destruct (validateTaskStructure t) as [[|]|e]; try reflexivity. discriminate.
Qed.

Lemma skipped_count l :
  all_decided l = true ->
  (length l - length (List.filter passes l) = length (List.filter fails l))%nat.
Proof.
  unfold all_decided. induction l as [|t l IH]; simpl; intros H; [reflexivity|].
  apply andb_true_iff in H as [Ht Hl]. specialize (IH Hl).
  pose proof (List.filter_length_le passes l) as Hle.
  unfold passes, fails in *.
  destruct (validateTaskStructure t) as [[|]|e]; simpl in *; try discriminate; lia.
Qed.

Lemma importData_array fs l s :
  JSON_parse s = Some (JObj fs) ->
  lookup_field "tasks" fs = Some (JArr l) ->
  all_decided l = true ->
  importData s =
  {| success := true;
     tasks := List.filter passes l;
     settings := settings_of fs;
     errors :=
       if (0 <? length (List.filter fails l))%nat
       then [skipped_message (length (List.filter fails l))]
       else [] |}.
Proof.
  intros Hp Ht Hd. unfold importData, import_try. rewrite Hp.
  cbn [truthy typeof negb orb String.eqb Ascii.eqb Bool.eqb]. 
  unfold get_prop. cbn [own_props]. rewrite Ht.
  rewrite filter_tasks_decided by exact Hd. rewrite skipped_count by exact Hd.
  reflexivity.
Qed.

(** A record trips the validation only through an own [hasOwnProperty]. *)
Lemma validate_throws_shadowed task e :
  validateTaskStructure task = Throw e -> get_prop task "hasOwnProperty" <> None.
Proof.
  unfold validateTaskStructure. intros H Hn.
  destruct (negb _ || negb _); [discriminate|].
  assert (Hr : forall fields, required_present task fields <> Throw e).
  { induction fields as [|f fields IH]; simpl; [discriminate|].
    unfold call_hasOwnProperty. rewrite Hn.
    destruct (get_prop task f) as [[]|]; auto; discriminate. }
  destruct (required_present task requiredFields) as [[|]|e'] eqn:E.
  - repeat match type of H with
           | context [if ?c then _ else _] => destruct c
           end; discriminate.
  - discriminate.
  - injection H as ->. exact (Hr _ E).
Qed.

End ImportFacts.

(** * The add action *)

Module AddFacts.
Import JSON Browser JSValue StorageJS State TextFacts DigitFacts ObjectFacts.

Lemma str_inj a b : str a = str b -> a = b.
Proof. intros H. rewrite <- (chars_str a), <- (chars_str b), H. reflexivity. Qed.

(** Two texts cut at the first [c] agree part by part. *)
Lemma split_at_first (c : ascii) a : forall a' b b',
  Forall (fun x => x <> c) a -> Forall (fun x => x <> c) a' ->
  a ++ c :: b = a' ++ c :: b' -> a = a' /\ b = b'.
Proof.
  induction a as [|x a IH]; intros a' b b' Ha Ha' E.
  - destruct a' as [|y a']; simpl in E.
    + injection E as ->. auto.
    + injection E as -> _. apply Forall_inv in Ha'. congruence.
  - destruct a' as [|y a']; simpl in E.
    + injection E as -> _. apply Forall_inv in Ha. congruence.
    + injection E as -> E.
      apply Forall_inv_tail in Ha. apply Forall_inv_tail in Ha'.
      destruct (IH a' b b' Ha Ha' E) as [-> ->]. auto.
Qed.

Lemma digit_not_underscore x : is_digit x = true -> x <> "_"%char.
Proof. intros H ->. vm_compute in H. discriminate. Qed.

Lemma decimal_no_underscore n : Forall (fun x => x <> "_"%char) (decimal n).
Proof.
  pose proof (decimal_digits n) as H.
  induction (decimal n) as [|x l IH]; [constructor|].
  simpl in H. apply andb_true_iff in H as [Hx Hl].
  constructor; [apply digit_not_underscore; exact Hx | auto].
Qed.

(** The id determines the clock reading and the random suffix. *)
Lemma generateId_inj now rnd now' rnd' :
  generateId now rnd = generateId now' rnd' ->
  now = now' /\ substr 2 9 (chars rnd) = substr 2 9 (chars rnd').
Proof.
  unfold generateId. intros H. apply str_inj in H.
  apply app_inv_head in H.
  change (chars "_" ++ ?x) with ("_"%char :: x) in H.
  apply split_at_first in H as [Hn Hs]; try apply decimal_no_underscore.
  split; [apply decimal_inj; exact Hn | exact Hs].
Qed.

Lemma addTasks_map calls : addTasks calls = map new_task calls.
Proof.
  unfold addTasks.
  assert (H : forall acc, fold_left (fun tasks call => addTask (fst call) (snd call) tasks) calls acc
                          = acc ++ map new_task calls).
  { induction calls as [|c calls IH]; intros acc; simpl.
    - rewrite app_nil_r. reflexivity.
    - rewrite IH. unfold addTask. rewrite <- app_assoc. reflexivity. }
  apply (H []).
Qed.

Lemma new_task_id call :
  task_id (new_task call) =
  Some (JStr (generateId (now_ms (snd call)) (random36 (snd call)))).
Proof.
  unfold task_id, new_task, get_prop. cbn [own_props].
  rewrite lookup_set_fields; [reflexivity|].
  cbn [map fst]. apply (bool_decide_eq_true_1 (NoDup _)). reflexivity.
Qed.

Lemma new_task_id_inj c1 c2 :
  task_id (new_task c1) = task_id (new_task c2) -> id_source (snd c1) = id_source (snd c2).
Proof.
  rewrite !new_task_id. intros H.
  assert (E : generateId (now_ms (snd c1)) (random36 (snd c1))
              = generateId (now_ms (snd c2)) (random36 (snd c2))) by congruence.
  apply generateId_inj in E as [Hn Hs].
  unfold id_source. congruence.
Qed.

Lemma ids_distinct calls :
  NoDup (map (fun call => id_source (snd call)) calls) ->
  NoDup (map task_id (addTasks calls)).
Proof.
  rewrite addTasks_map, map_map.
  induction calls as [|c calls IH]; simpl; intros H; [constructor|].
  apply NoDup_cons in H as [Hc H]. apply NoDup_cons. split; [|auto].
  intros Hin. apply Hc.
  apply list_elem_of_fmap in Hin as (c' & E & Hc').
  apply new_task_id_inj in E. rewrite E.
  apply list_elem_of_fmap. exists c'. auto.
Qed.

End AddFacts.

(** * Only well-formed addresses are valid *)

Module ValidShapeFacts.
Import Regex EmailValidator EmailShape RegexFacts TextFacts EmailFacts EmailShapeFacts.

Lemma split_on_nonempty c s : split_on c s <> [].
Proof.
  destruct s as [|x r]; simpl; [discriminate|].
  destruct (Ascii.eqb x c); [discriminate|].
  destruct (split_on c r); discriminate.
Qed.

(** Joining the pieces of a split gives the text back. *)
Lemma join_split c s : join [c] (split_on c s) = s.
Proof.
  induction s as [|x r IH]; [reflexivity|].
  simpl. destruct (Ascii.eqb x c) eqn:E.
  - apply Ascii.eqb_eq in E. subst x.
    pose proof (split_on_nonempty c r) as Hne.
    destruct (split_on c r) as [|p ps] eqn:Es; [congruence|].
    rewrite join_cons. rewrite IH. reflexivity.
  - destruct (split_on c r) as [|p ps] eqn:Es.
    + exfalso. exact (split_on_nonempty c r Es).
    + destruct ps as [|q qs].
      * simpl in *. rewrite IH. reflexivity.
      * rewrite join_cons in *. rewrite <- IH. reflexivity.
Qed.

(** The pieces of a split do not contain the separator. *)
Lemma split_on_free c s : Forall (free_of c) (split_on c s).
Proof.
  induction s as [|x r IH]; simpl.
  - constructor; constructor.
  - destruct (Ascii.eqb x c) eqn:E.
    + constructor; [constructor | exact IH].
    + destruct (split_on c r) as [|p ps].
      * constructor; [|constructor]. constructor; [|constructor].
        intros ->. rewrite Ascii.eqb_refl in E. discriminate.
      * inversion IH; subst. constructor; [|assumption].
        constructor; [|assumption]. intros ->. rewrite Ascii.eqb_refl in E. discriminate.
Qed.

Lemma includes_one c s : includes [c] s = true -> exists a b, s = a ++ c :: b /\ free_of c a.
Proof.
  induction s as [|x r IH]; rewrite includes_unfold.
  - simpl. discriminate.
  - simpl. destruct (Ascii.eqb c x) eqn:E.
    + intros _. apply Ascii.eqb_eq in E. subst x. exists [], r. split; [reflexivity|constructor].
    + simpl. intros H. destruct (IH H) as (a & b & -> & Hf).
      exists (x :: a), b. split; [reflexivity|]. constructor; [|exact Hf].
      intros ->. rewrite Ascii.eqb_refl in E. discriminate.
Qed.

(** A text that contains the separator splits into at least two pieces. *)
Lemma includes_split c s :
  includes [c] s = true -> exists p q qs, split_on c s = p :: q :: qs.
Proof.
  intros H. destruct (includes_one c s H) as (a & b & -> & Hf).
  rewrite split_on_app by exact Hf.
  pose proof (split_on_nonempty c b).
  destruct (split_on c b) as [|q qs]; [congruence|]. eauto.
Qed.

Lemma lang_plus_class_inv p s :
  lang (Plus (Class p)) s -> s <> [] /\ forallb p s = true.
Proof.
  intros H. split.
  - unfold Plus in H. apply lang_cat_inv in H as (s1 & s2 & -> & H1 & _).
    apply lang_class_inv in H1 as (c & -> & _). discriminate.
  - apply Forall_true_forallb.
    apply (lang_chars (fun c => p c = true) _ _ H).
    simpl. split; intros c Hc; exact Hc.
Qed.

Lemma test_search_class_inv p s : test_search (Class p) s = true -> existsb p s = true.
Proof.
  unfold test_search. intros H. apply matches_lang in H.
  apply lang_cat_inv in H as (s1 & s2 & -> & _ & H).
  apply lang_cat_inv in H as (s3 & s4 & -> & H & _).
  apply lang_class_inv in H as (c & -> & Hc).
  rewrite !existsb_app. simpl. rewrite Hc. rewrite orb_true_r. reflexivity.
Qed.

Lemma label_passes_ok lab : label_passes lab = true -> label_ok lab = true.
Proof.
  unfold label_passes, label_ok. intros H.
  destruct ((length lab =? 0)%nat || (63 <? length lab)%nat) eqn:E1; [discriminate|].
  destruct (starts_with (chars "-") lab || ends_with (chars "-") lab) eqn:E2; [discriminate|].
  destruct (test_anchored (Plus (Class alnum_hyphen)) lab) eqn:E3; [|discriminate].
  apply orb_false_elim in E1 as [L0 L1]. apply orb_false_elim in E2 as [S E].
  apply matches_lang, lang_plus_class_inv in E3 as [_ Hall].
  apply Nat.eqb_neq in L0. apply Nat.ltb_ge in L1.
  rewrite Hall, S, E.
  replace (1 <=? length lab)%nat with true by (symmetry; apply Nat.leb_le; lia).
  replace (length lab <=? 63)%nat with true by (symmetry; apply Nat.leb_le; lia).
  reflexivity.
Qed.

(** The address that [isValidEmail] accepts, taken apart. *)
Lemma valid_shape e :
  isValidEmail e = true ->
  exists local labels tld,
    trim (chars e) = address local labels tld
    /\ local_ok local = true
    /\ labels <> []
    /\ forallb label_ok labels = true
    /\ tld_ok tld = true
    /\ (length (address local labels tld) <= 254)%nat.
Proof.
  intros H. unfold isValidEmail in H.
  destruct (String.eqb e ""); [discriminate|].
  cbv zeta in H. remember (trim (chars e)) as x eqn:Ex.
  destruct ((length x =? 0)%nat || (254 <? length x)%nat) eqn:E1; [discriminate|].
  destruct (test_anchored emailRegex x) eqn:E2; [|discriminate]. cbn [negb] in H.
  apply matches_lang in E2.
  destruct (emailRegex_one_at x E2) as (l & d & Hx & Hl & Hd).
  assert (Hlc : forallb local_char l = true).
  { unfold emailRegex in E2. apply lang_cat_inv in E2 as (s1 & s2 & Hs & H1 & H2).
    apply lang_cat_inv in H2 as (s3 & s4 & -> & H3 & _).
    apply lang_chr_inv in H3. subst s3.
    apply lang_plus_class_inv in H1 as [_ H1].
    assert (s1 = l).
    { refine (proj1 (AddFacts.split_at_first "@" s1 l s4 d _ Hl _)).
      - apply (forallb_free local_char); [apply local_char_not_at | exact H1].
      - rewrite <- Hx, Hs. reflexivity. }
    subst s1. exact H1. }
  rewrite Hx in H.
  rewrite (split_on_app "@" l d Hl), (split_on_absent "@" d Hd) in H.
  cbn [nth nth_error] in H.
  destruct ((length l =? 0)%nat || (64 <? length l)%nat) eqn:E3; [discriminate|].
  destruct (test_search (Class is_alpha) l) eqn:E4; [|discriminate]. cbn [negb] in H.
  destruct (starts_with (chars ".") l || ends_with (chars ".") l) eqn:E5; [discriminate|].
  destruct (includes (chars "..") l) eqn:E6; [discriminate|].
  destruct ((length d =? 0)%nat || (253 <? length d)%nat) eqn:E7; [discriminate|].
  destruct (includes (chars ".") d) eqn:E8; [|discriminate]. cbn [negb] in H.
  destruct (starts_with (chars ".") d || ends_with (chars ".") d
            || starts_with (chars "-") d || ends_with (chars "-") d) eqn:E9; [discriminate|].
  destruct (forallb label_passes (split_on "." d)) eqn:E10; [|discriminate]. cbn [negb] in H.
  destruct ((length (List.last (split_on "." d) []) <? 2)%nat
            || negb (test_anchored (Plus (Class is_alpha)) (List.last (split_on "." d) [])))
    eqn:E11; [discriminate|].
  clear H.
  destruct (includes_split "." d E8) as (p & q & qs & Hsp).
  destruct (snoc_cases (split_on "." d)) as [Hn | (labels & tld & Hs)].
  { rewrite Hsp in Hn. discriminate. }
  assert (Hne : labels <> []).
  { intros ->. rewrite Hsp in Hs. discriminate. }
  rewrite Hs, last_last in E11. rewrite Hs, forallb_app in E10.
  apply andb_prop in E10 as [Hlabs Htld]. simpl in Htld. rewrite andb_true_r in Htld.
  apply orb_false_elim in E11 as [T1 T2]. apply negb_false_iff in T2.
  apply matches_lang, lang_plus_class_inv in T2 as [_ T2].
  apply label_passes_ok in Htld.
  destruct (label_ok_parts tld Htld) as (Lt & _).
  exists l, labels, tld.
  assert (Ha : x = address l labels tld).
  { unfold address. rewrite Hx. f_equal. f_equal.
    rewrite <- Hs. symmetry. apply (join_split "." d). }
  rewrite <- Ha.
  apply orb_false_elim in E1 as [_ X1]. apply Nat.ltb_ge in X1.
  apply orb_false_elim in E3 as [L0 L1]. apply Nat.eqb_neq in L0. apply Nat.ltb_ge in L1.
  apply orb_false_elim in E5 as [S E]. apply Nat.ltb_ge in T1.
  split; [reflexivity|]. split.
  { unfold local_ok. rewrite Hlc, (test_search_class_inv _ _ E4), S, E, E6.
    replace (1 <=? length l)%nat with true by (symmetry; apply Nat.leb_le; lia).
    replace (length l <=? 64)%nat with true by (symmetry; apply Nat.leb_le; lia).
    reflexivity. }
  split; [exact Hne|]. split.
  { apply (forallb_impl label_passes); [apply label_passes_ok | exact Hlabs]. }
  split; [|exact X1].
  unfold tld_ok. rewrite T2.
  replace (2 <=? length tld)%nat with true by (symmetry; apply Nat.leb_le; lia).
  replace (length tld <=? 63)%nat with true by (symmetry; apply Nat.leb_le; lia).
  reflexivity.
Qed.

End ValidShapeFacts.

(** * Sanitized addresses *)

Module SanitizeFacts.
Import Regex EmailValidator EmailShape EmailHelpers EmailNotions.
Import RegexFacts TextFacts EmailFacts EmailShapeFacts ValidShapeFacts.

Lemma lower_char_idem c : lower_char (lower_char c) = lower_char c.
Proof. char_cases c. Qed.

Lemma lower_char_not_upper c : is_upper (lower_char c) = false.
Proof. char_cases c. Qed.

Lemma email_char_lower c : email_char (lower_char c) = email_char c.
Proof. char_cases c. Qed.

Lemma local_char_lower c : local_char (lower_char c) = local_char c.
Proof. char_cases c. Qed.

Lemma alnum_hyphen_lower c : alnum_hyphen (lower_char c) = alnum_hyphen c.
Proof. char_cases c. Qed.

Lemma is_alpha_lower c : is_alpha (lower_char c) = is_alpha c.
Proof. char_cases c. Qed.

Lemma email_char_not_space c : email_char c = true -> is_js_space c = false.
Proof. char_cases c. Qed.

Lemma local_char_email c : local_char c = true -> email_char c = true.
Proof. char_cases c. Qed.

Lemma alnum_hyphen_email c : alnum_hyphen c = true -> email_char c = true.
Proof. char_cases c. Qed.

Lemma dot_case_free : case_free ".".
Proof. intros x. char_cases x. Qed.

Lemma hyphen_case_free : case_free "-".
Proof. intros x. char_cases x. Qed.

Lemma at_case_free : case_free "@".
Proof. intros x. char_cases x. Qed.

Lemma starts_with_lower p : forall s,
  Forall case_free p -> starts_with p (toLowerCase s) = starts_with p s.
Proof.
  induction p as [|a p IH]; intros s Hp; [reflexivity|].
  inversion Hp; subst. destruct s as [|b s]; [reflexivity|].
  simpl. rewrite IH by assumption. f_equal. auto.
Qed.

Lemma ends_with_lower p s :
  Forall case_free p -> ends_with p (toLowerCase s) = ends_with p s.
Proof.
  intros Hp. unfold ends_with, toLowerCase. rewrite <- map_rev.
  apply starts_with_lower. apply Forall_rev. exact Hp.
Qed.

Lemma includes_lower p s :
  Forall case_free p -> includes p (toLowerCase s) = includes p s.
Proof.
  intros Hp. induction s as [|b s IH].
  - reflexivity.
  - rewrite (includes_unfold p (b :: s)).
    change (toLowerCase (b :: s)) with (lower_char b :: toLowerCase s).
    rewrite (includes_unfold p (lower_char b :: toLowerCase s)).
    rewrite IH. f_equal. apply (starts_with_lower p (b :: s) Hp).
Qed.

Lemma forallb_lower p s :
  (forall c, p (lower_char c) = p c) -> forallb p (toLowerCase s) = forallb p s.
Proof.
  intros Hp. induction s as [|c s IH]; [reflexivity|].
  simpl. rewrite Hp, IH. reflexivity.
Qed.

Lemma existsb_lower p s :
  (forall c, p (lower_char c) = p c) -> existsb p (toLowerCase s) = existsb p s.
Proof.
  intros Hp. induction s as [|c s IH]; [reflexivity|].
  simpl. rewrite Hp, IH. reflexivity.
Qed.

Lemma length_lower s : length (toLowerCase s) = length s.
Proof. apply length_map. Qed.

Lemma one_case_free a : case_free a -> Forall case_free [a].
Proof. intros H. constructor; [exact H|constructor]. Qed.

Lemma local_ok_lower l : local_ok (toLowerCase l) = local_ok l.
Proof.
  unfold local_ok.
  rewrite length_lower, (forallb_lower _ _ local_char_lower),
    (existsb_lower _ _ is_alpha_lower).
  rewrite (starts_with_lower (chars ".") l), (ends_with_lower (chars ".") l),
    (includes_lower (chars "..") l).
  - reflexivity.
  - constructor; [apply dot_case_free | apply one_case_free, dot_case_free].
  - apply one_case_free, dot_case_free.
  - apply one_case_free, dot_case_free.
Qed.

Lemma label_ok_lower l : label_ok (toLowerCase l) = label_ok l.
Proof.
  unfold label_ok.
  rewrite length_lower, (forallb_lower _ _ alnum_hyphen_lower).
  rewrite (starts_with_lower (chars "-") l), (ends_with_lower (chars "-") l).
  - reflexivity.
  - apply one_case_free, hyphen_case_free.
  - apply one_case_free, hyphen_case_free.
Qed.

Lemma tld_ok_lower l : tld_ok (toLowerCase l) = tld_ok l.
Proof.
  unfold tld_ok. rewrite length_lower, (forallb_lower _ _ is_alpha_lower). reflexivity.
Qed.

Lemma lower_join (parts : list text) :
  toLowerCase (join (chars ".") parts) = join (chars ".") (map toLowerCase parts).
Proof.
  induction parts as [|p ps IH]; [reflexivity|].
  destruct ps as [|q qs]; [reflexivity|].
  change (map toLowerCase (p :: q :: qs))
    with (toLowerCase p :: toLowerCase q :: map toLowerCase qs).
  rewrite !join_cons. unfold toLowerCase at 1. rewrite !map_app.
  fold (toLowerCase p). f_equal. f_equal. exact IH.
Qed.

Lemma lower_address local labels tld :
  toLowerCase (address local labels tld)
  = address (toLowerCase local) (map toLowerCase labels) (toLowerCase tld).
Proof.
  unfold address. unfold toLowerCase at 1. rewrite map_app. cbn [map].
  fold (toLowerCase local). f_equal.
  change (lower_char "@") with "@"%char. f_equal.
  fold (toLowerCase (join (chars ".") (labels ++ [tld]))).
  rewrite lower_join, map_app. reflexivity.
Qed.

Lemma filter_all {A : Type} (p : A -> bool) (l : list A) :
  forallb p l = true -> List.filter p l = l.
Proof.
  induction l as [|x l IH]; [reflexivity|].
  simpl. intros H. apply andb_prop in H as [Hx Hl]. rewrite Hx, IH by exact Hl. reflexivity.
Qed.

Lemma forallb_filter {A : Type} (p : A -> bool) (l : list A) :
  forallb p (List.filter p l) = true.
Proof.
  induction l as [|x l IH]; [reflexivity|].
  simpl. destruct (p x) eqn:E; [simpl; rewrite E|]; exact IH.
Qed.

Lemma kept_lower s : toLowerCase (kept s) = kept s.
Proof.
  unfold kept. induction s as [|c s IH]; [reflexivity|].
  change (toLowerCase (c :: s)) with (lower_char c :: toLowerCase s).
  simpl. destruct (email_char (lower_char c)); [|exact IH].
  change (toLowerCase (?x :: ?l)) with (lower_char x :: toLowerCase l).
  rewrite lower_char_idem, IH. reflexivity.
Qed.

Lemma kept_not_upper s : Forall (fun c => is_upper c = false) (kept s).
Proof.
  unfold kept. induction s as [|c s IH]; [constructor|].
  change (toLowerCase (c :: s)) with (lower_char c :: toLowerCase s).
  simpl. destruct (email_char (lower_char c)); [|exact IH].
  constructor; [apply lower_char_not_upper | exact IH].
Qed.

Lemma trim_no_space s : forallb (fun c => negb (is_js_space c)) s = true -> trim s = s.
Proof.
  intros H. apply forallb_Forall_true in H.
  apply trim_fixed.
  - intros c r ->. inversion H; subst. apply negb_true_iff. assumption.
  - intros c r Hr. apply Forall_rev in H. rewrite Hr in H.
    inversion H; subst. apply negb_true_iff. assumption.
Qed.

Lemma kept_trim s : trim (kept s) = kept s.
Proof.
  apply trim_no_space. apply (forallb_impl email_char).
  - intros c Hc. rewrite (email_char_not_space c Hc). reflexivity.
  - apply forallb_filter.
Qed.

Lemma kept_kept s : kept (trim (kept s)) = kept s.
Proof.
  rewrite kept_trim. unfold kept at 1. rewrite kept_lower.
  apply filter_all. apply forallb_filter.
Qed.

Lemma sanitizeEmail_twice e : sanitizeEmail (sanitizeEmail e) = sanitizeEmail e.
Proof.
  unfold sanitizeEmail. destruct (String.eqb e "") eqn:E; [reflexivity|].
  fold (kept (trim (chars e))).
  destruct (String.eqb (str (kept (trim (chars e)))) "") eqn:E2.
  - apply String.eqb_eq in E2. symmetry. exact E2.
  - rewrite chars_str. fold (kept (trim (kept (trim (chars e))))).
    rewrite kept_kept. reflexivity.
Qed.

Lemma sanitizeEmail_chars e :
  Forall (fun c => email_char c = true /\ is_upper c = false) (chars (sanitizeEmail e)).
Proof.
  unfold sanitizeEmail. destruct (String.eqb e ""); [constructor|].
  rewrite chars_str. fold (kept (trim (chars e))).
  apply List.Forall_and; [|apply kept_not_upper].
  apply forallb_Forall_true. apply forallb_filter.
Qed.

(** ** Valid addresses stay valid *)

Lemma is_alnum_email c : is_alnum c = true -> email_char c = true.
Proof. char_cases c. Qed.

Lemma dot_email c : Ascii.eqb "." c = true -> email_char c = true.
Proof. char_cases c. Qed.

Lemma at_email c : Ascii.eqb "@" c = true -> email_char c = true.
Proof. char_cases c. Qed.

Lemma labelRegex_email : classes_imply (fun c => email_char c = true) labelRegex.
Proof.
  unfold labelRegex, Opt. cbn [classes_imply].
  split; [exact is_alnum_email|]. split; [exact I|]. split; [|exact is_alnum_email].
  apply classes_imply_Upto. exact alnum_hyphen_email.
Qed.

Lemma emailRegex_email : classes_imply (fun c => email_char c = true) emailRegex.
Proof.
  unfold emailRegex. cbn [classes_imply Plus Chr].
  split; [split; exact local_char_email|].
  split; [exact at_email|].
  split; [exact labelRegex_email|].
  split; [exact dot_email | exact labelRegex_email].
Qed.

Lemma forallb_map_lower (labels : list text) :
  forallb label_ok (map toLowerCase labels) = forallb label_ok labels.
Proof.
  induction labels as [|l ls IH]; [reflexivity|].
  simpl. rewrite label_ok_lower, IH. reflexivity.
Qed.

(** A valid address is sanitized to its trimmed, lower-case form, which is
    valid too. *)
Lemma sanitize_valid e :
  isValidEmail e = true ->
  chars (sanitizeEmail e) = toLowerCase (trim (chars e))
  /\ isValidEmail (sanitizeEmail e) = true.
Proof.
  intros H.
  destruct (valid_shape e H) as (local & labels & tld & Hx & Hl & Hne & Hlabs & Ht & Hlen).
  assert (Hall : forallb email_char (toLowerCase (trim (chars e))) = true).
  { rewrite (forallb_lower _ _ email_char_lower). apply Forall_true_forallb.
    rewrite Hx.
    apply (lang_chars _ emailRegex); [|exact emailRegex_email].
    apply address_lang; assumption. }
  assert (Es : sanitizeEmail e = str (toLowerCase (trim (chars e)))).
  { unfold sanitizeEmail. destruct (String.eqb e "") eqn:E.
    - apply String.eqb_eq in E. subst e. vm_compute in H. discriminate.
    - rewrite (filter_all _ _ Hall). reflexivity. }
  rewrite Es, chars_str. split; [reflexivity|].
  rewrite Hx, lower_address.
  apply accepted.
  - rewrite local_ok_lower. exact Hl.
  - destruct labels; [congruence | discriminate].
  - rewrite forallb_map_lower. exact Hlabs.
  - rewrite tld_ok_lower. exact Ht.
  - rewrite <- lower_address, length_lower. exact Hlen.
Qed.

End SanitizeFacts.

(** * White space around an address *)

Module PaddingFacts.
Import Regex EmailValidator EmailShape EmailHelpers.
Import RegexFacts TextFacts EmailFacts EmailShapeFacts.

Lemma trim_start_ws pre s :
  forallb is_js_space pre = true -> trim_start (pre ++ s) = trim_start s.
Proof.
  induction pre as [|c pre IH]; [reflexivity|].
  simpl. intros H. apply andb_prop in H as [Hc Hp]. rewrite Hc. exact (IH Hp).
Qed.

Lemma trim_start_nil s : trim_start s = [] -> forallb is_js_space s = true.
Proof.
  induction s as [|c s IH]; [reflexivity|].
  simpl. destruct (is_js_space c); [exact IH | discriminate].
Qed.

Lemma trim_start_all_ws s : forallb is_js_space s = true -> trim_start s = [].
Proof.
  intros H. rewrite <- (app_nil_r s). rewrite trim_start_ws by exact H. reflexivity.
Qed.

Lemma trim_start_app s post c r :
  trim_start s = c :: r -> trim_start (s ++ post) = (c :: r) ++ post.
Proof.
  induction s as [|x s IH]; [discriminate|].
  simpl. destruct (is_js_space x); [exact IH|].
  intros [= -> ->]. reflexivity.
Qed.

Lemma forallb_rev {A : Type} (p : A -> bool) (l : list A) :
  forallb p l = true -> forallb p (rev l) = true.
Proof.
  intros H. apply Forall_true_forallb, Forall_rev, forallb_Forall_true. exact H.
Qed.

(** White space on either side does not survive [trim]. *)
Lemma trim_pad pre s post :
  forallb is_js_space pre = true -> forallb is_js_space post = true ->
  trim (pre ++ s ++ post) = trim s.
Proof.
  intros Hpre Hpost. unfold trim. rewrite trim_start_ws by exact Hpre.
  destruct (trim_start s) as [|c r] eqn:E.
  - rewrite (trim_start_all_ws (s ++ post)); [reflexivity|].
    rewrite forallb_app, (trim_start_nil s E), Hpost. reflexivity.
  - rewrite (trim_start_app s post c r E).
    rewrite rev_app_distr, trim_start_ws by (apply forallb_rev; exact Hpost).
    reflexivity.
Qed.

(** A text is its trimmed form between two runs of white space. *)
Lemma trim_start_split s :
  exists p, s = p ++ trim_start s /\ forallb is_js_space p = true.
Proof.
  induction s as [|c s (p & E & Hp)].
  - exists []. split; reflexivity.
  - simpl. destruct (is_js_space c) eqn:Ec.
    + exists (c :: p). split; [simpl; f_equal; exact E|]. simpl. rewrite Ec. exact Hp.
    + exists []. split; reflexivity.
Qed.

Lemma trim_split s :
  exists pre post,
    s = pre ++ trim s ++ post
    /\ forallb is_js_space pre = true /\ forallb is_js_space post = true.
Proof.
  destruct (trim_start_split s) as (pre & E1 & Hpre).
  destruct (trim_start_split (rev (trim_start s))) as (q & E2 & Hq).
  exists pre, (rev q). split; [|split; [exact Hpre | apply forallb_rev; exact Hq]].
  unfold trim. rewrite <- rev_app_distr, <- E2, rev_involutive. exact E1.
Qed.

Lemma getEmailValidationError_trimmed e :
  getEmailValidationError (str (trim (chars e))) = getEmailValidationError e.
Proof.
  unfold getEmailValidationError. rewrite chars_str, trim_idem.
  destruct (String.eqb e "") eqn:E1.
  - apply String.eqb_eq in E1 as ->. reflexivity.
  - destruct (String.eqb (str (trim (chars e))) "") eqn:E2; [|reflexivity].
    apply String.eqb_eq, str_nil_inv in E2. rewrite E2. reflexivity.
Qed.

Lemma padded_trim pre e post :
  forallb is_js_space pre = true -> forallb is_js_space post = true ->
  str (trim (chars (str (pre ++ chars e ++ post)))) = str (trim (chars e)).
Proof. intros H1 H2. rewrite chars_str, trim_pad by assumption. reflexivity. Qed.

End PaddingFacts.

(** * Suggested domains *)

Module SuggestFacts.
Import Regex EmailValidator EmailShape EmailHelpers.
Import RegexFacts TextFacts EmailFacts EmailShapeFacts ValidShapeFacts PaddingFacts.

(** Each of the common domains is one label and a final label. *)
Lemma common_domain_shape common :
  In common COMMON_EMAIL_DOMAINS ->
  exists label tld,
    chars common = join (chars ".") ([label] ++ [tld])
    /\ label_ok label = true /\ tld_ok tld = true
    /\ (length (chars common) <= 14)%nat.
Proof.
  intros H. unfold COMMON_EMAIL_DOMAINS in H.
  repeat (destruct H as [<- | H];
          [match goal with
           | |- context [chars ?d] =>
               exists (nth 0 (split_on "." (chars d)) []), (nth 1 (split_on "." (chars d)) [])
           end;
           vm_compute; repeat split; lia |]).
  destruct H.
Qed.

Lemma suggestion_valid local common :
  local_ok local = true -> In common COMMON_EMAIL_DOMAINS ->
  isValidEmail (str (local ++ chars "@" ++ chars common)) = true.
Proof.
  intros Hl Hc.
  destruct (common_domain_shape common Hc) as (label & tld & E & Hlab & Ht & Hlen).
  destruct (local_ok_parts local Hl) as (L & _).
  change (local ++ chars "@" ++ chars common) with (local ++ "@"%char :: chars common).
  rewrite E. apply (accepted local [label] tld); try assumption.
  - discriminate.
  - simpl. rewrite Hlab. reflexivity.
  - unfold address. rewrite <- E, length_app. simpl. lia.
Qed.

Lemma suggestion_parts e s :
  suggestEmailDomain e = Some s ->
  exists local typed rest common,
    split_on "@" (chars e) = local :: typed :: rest
    /\ typed <> [] /\ includes (chars ".") typed = false
    /\ In common COMMON_EMAIL_DOMAINS
    /\ starts_with (toLowerCase typed) (chars common) = true
    /\ s = str (local ++ chars "@" ++ chars common).
Proof.
  unfold suggestEmailDomain. intros H.
  destruct (String.eqb e "" || negb (includes (chars "@") (chars e))); [discriminate|].
  cbv zeta in H.
  destruct (split_on "@" (chars e)) as [|local [|typed rest]]; try discriminate H.
  cbn [nth nth_error] in H.
  destruct ((length typed =? 0)%nat || includes (chars ".") typed) eqn:E; [discriminate|].
  apply orb_false_elim in E as [E1 E2].
  destruct (find _ COMMON_EMAIL_DOMAINS) as [common|] eqn:Ef; [|discriminate].
  apply find_some in Ef as [Hin Hst].
  injection H as <-.
  exists local, typed, rest, common.
  split; [reflexivity|]. split.
  { intros ->. discriminate. }
  split; [exact E2|]. split; [exact Hin|]. split; [exact Hst | reflexivity].
Qed.

Lemma ws_not_at s : forallb is_js_space s = true -> free_of "@" s.
Proof.
  apply (forallb_free is_js_space). intros x Hx ->. vm_compute in Hx. discriminate.
Qed.

(** A valid address is complete: nothing is suggested for it. *)
Lemma valid_no_suggestion e : isValidEmail e = true -> suggestEmailDomain e = None.
Proof.
  intros H.
  destruct (valid_shape e H) as (local & labels & tld & Hx & Hl & Hne & Hlabs & Ht & Hlen).
  destruct (trim_split (chars e)) as (pre & post & E & Hpre & Hpost).
  destruct (domain_ends local labels tld Hl Hne Hlabs Ht Hlen) as [front Hfront].
  pose proof (domain_free local labels tld Hl Hne Hlabs Ht Hlen "@"
                alnum_hyphen_not_at ltac:(discriminate)) as Hdom.
  destruct (local_ok_parts local Hl) as (_ & Hlc & _).
  set (domain := join (chars ".") (labels ++ [tld])) in *.
  assert (Es : split_on "@" (chars e) = [pre ++ local; domain ++ post]).
  { rewrite E, Hx. unfold address. fold domain.
    replace (pre ++ (local ++ "@"%char :: domain) ++ post)
      with ((pre ++ local) ++ "@"%char :: (domain ++ post))
      by (rewrite <- !app_assoc; reflexivity).
    rewrite split_on_app.
    - rewrite split_on_absent; [reflexivity|].
      apply Forall_app. split; [exact Hdom | apply ws_not_at; exact Hpost].
    - apply Forall_app. split; [apply ws_not_at; exact Hpre|].
      apply (forallb_free local_char); [apply local_char_not_at | exact Hlc]. }
  unfold suggestEmailDomain.
  destruct (String.eqb e "" || negb (includes (chars "@") (chars e))); [reflexivity|].
  cbv zeta. rewrite Es. cbn [nth nth_error].
  replace (includes (chars ".") (domain ++ post)) with true.
  - rewrite orb_true_r. reflexivity.
  - symmetry. rewrite Hfront, <- !app_assoc. apply includes_app.
Qed.

End SuggestFacts.

(** * The input field *)

Module InputFacts.
Import EmailValidator EmailInput EmailFacts.

(** Every message of [getEmailValidationError] has text. *)
Lemma error_message_nonempty e m : getEmailValidationError e = Some m -> m <> "".
Proof.
  intros H. unfold getEmailValidationError in H. cbv zeta in H.
  split_if H; injection H as <-; discriminate.
Qed.

Lemma shown_error e : shown (getEmailValidationError e) = getEmailValidationError e.
Proof.
  destruct (getEmailValidationError e) as [m|] eqn:E; [|reflexivity].
  simpl. apply error_message_nonempty in E.
  destruct (String.eqb m "") eqn:Em; [|reflexivity].
  apply String.eqb_eq in Em. contradiction.
Qed.

Lemma in_classList_add t a l : In t (classList_add a l) <-> t = a \/ In t l.
Proof.
  unfold classList_add. destruct (existsb (String.eqb a) l) eqn:E.
  - split; [auto|]. intros [-> | H]; [|exact H].
    apply existsb_exists in E as (x & Hx & Ex). apply String.eqb_eq in Ex. subst. exact Hx.
  - rewrite in_app_iff. simpl. split.
    + intros [H | [<- | []]]; auto.
    + intros [-> | H]; auto.
Qed.

Lemma in_classList_remove t a l : In t (classList_remove a l) <-> t <> a /\ In t l.
Proof.
  unfold classList_remove. rewrite filter_In, negb_true_iff, String.eqb_neq. tauto.
Qed.

End InputFacts.

(** * Settings, clearing and the session backup *)

Module AdminFacts.
Import JSON Browser JSValue StorageJS StorageStates StorageAdmin StorageNotions.
Import TextFacts JSONFacts ParsedFacts StorageFacts ObjectFacts SettingsFacts.

Lemma saveSettings_accepted s w :
  accepts (localStorage w) SETTINGS_KEY (JSON_stringify s) = true ->
  saveSettings s w = (Ret true, written Local SETTINGS_KEY (JSON_stringify s) w).
Proof.
  intros H. unfold saveSettings, try_catch, bind, ret.
  rewrite (setItem_written Local _ _ w H). reflexivity.
Qed.

Lemma saveSettings_refused s w :
  accepts (localStorage w) SETTINGS_KEY (JSON_stringify s) = false ->
  saveSettings s w = (Ret false, w).
Proof.
  intros H. unfold saveSettings, try_catch, bind, ret.
  destruct (setItem_refused Local _ _ w H) as [e ->]. reflexivity.
Qed.

Lemma wf_object_nodup p : wf (JObj p) = true -> NoDup (map fst p).
Proof.
  simpl. intros H. apply andb_prop in H as [H _].
  exact (bool_decide_eq_true_1 _ H).
Qed.

Lemma loadSettings_written p w :
  wf (JObj p) = true ->
  accepts (localStorage w) SETTINGS_KEY (JSON_stringify (JObj p)) = true ->
  loadSettings (written Local SETTINGS_KEY (JSON_stringify (JObj p)) w)
  = (Ret (JObj (set_fields p defaults)),
     written Local SETTINGS_KEY (JSON_stringify (JObj p)) w).
Proof.
  intros Hwf Hacc. apply (loadSettings_persisted _ (JSON_stringify (JObj p))).
  - cbn. exact (accepts_enabled _ _ _ Hacc).
  - cbn. apply lookup_insert_eq.
  - apply JSON_parse_stringify. exact Hwf.
Qed.

(** Copying properties onto an object never removes one. *)
Lemma set_field_keeps k k' v fs :
  lookup_field k fs <> None -> lookup_field k (set_field k' v fs) <> None.
Proof.
  rewrite lookup_set_field. destruct (String.eqb k k'); [discriminate | auto].
Qed.

Lemma set_fields_keeps k src : forall target,
  lookup_field k target <> None -> lookup_field k (set_fields src target) <> None.
Proof.
  unfold set_fields. induction src as [|[k' v] src IH]; intros target H; [exact H|].
  simpl. apply IH. apply set_field_keeps. exact H.
Qed.

Lemma spread_defaults v :
  object_spread [defaultSettings; v] = JObj (set_fields (enumerable_props v) defaults).
Proof. reflexivity. Qed.

Lemma loadSettings_cases w :
  loadSettings w = (Ret defaultSettings, w)
  \/ exists v, loadSettings w = (Ret (JObj (set_fields (enumerable_props v) defaults)), w).
Proof.
  unfold loadSettings, parse, try_catch, bind, ret, throw, getItem. cbn [area_of].
  destruct (enabled (localStorage w)); [|left; reflexivity].
  destruct (items (localStorage w) !! SETTINGS_KEY) as [d|]; [|left; reflexivity].
  destruct (String.eqb d ""); [left; reflexivity|].
  destruct (JSON_parse d) as [v|]; [|left; reflexivity].
  right. exists v. rewrite spread_defaults. reflexivity.
Qed.

(** ** [clearAllData] *)

Lemma clearAllData_enabled w :
  enabled (localStorage w) = true -> clearAllData w = (Ret true, cleared w).
Proof.
  intros En. unfold clearAllData, try_catch, bind, ret, removeItem. cbn [area_of].
  rewrite En. cbn. rewrite En. reflexivity.
Qed.

Lemma clearAllData_disabled w :
  enabled (localStorage w) = false -> clearAllData w = (Ret false, w).
Proof.
  intros En. unfold clearAllData, try_catch, bind, ret, removeItem. cbn [area_of].
  rewrite En. reflexivity.
Qed.

Lemma keys_differ : STORAGE_KEY <> SETTINGS_KEY.
Proof. discriminate. Qed.

Lemma cleared_tasks w : items (localStorage (cleared w)) !! STORAGE_KEY = None.
Proof.
  cbn. rewrite lookup_delete_ne by (intros E; symmetry in E; exact (keys_differ E)).
  apply lookup_delete_eq.
Qed.

Lemma cleared_settings w : items (localStorage (cleared w)) !! SETTINGS_KEY = None.
Proof. cbn. apply lookup_delete_eq. Qed.

Lemma cleared_other w k :
  k <> STORAGE_KEY -> k <> SETTINGS_KEY ->
  items (localStorage (cleared w)) !! k = items (localStorage w) !! k.
Proof.
  intros H1 H2. cbn. rewrite !lookup_delete_ne by congruence. reflexivity.
Qed.

Lemma cleared_primary w : enabled (localStorage w) = true -> primary (cleared w) = Absent.
Proof.
  intros En. unfold primary, stored. cbn [area_of].
  rewrite cleared_tasks. cbn. rewrite En. reflexivity.
Qed.

(** ** A refused write-back *)

Lemma loadTasks_restore_refused seed w l b :
  is_empty (primary w) = true ->
  enabled (sessionStorage w) = true ->
  items (sessionStorage w) !! BACKUP_KEY = Some b ->
  classify (Some b) = Tasks l ->
  accepts (localStorage w) STORAGE_KEY b = false ->
  loadTasks seed w = seed_or_empty seed w.
Proof.
  unfold primary, stored. cbn [area_of]. intros Hp Es Hb Hc Hacc.
  destruct (enabled (localStorage w)) eqn:En; [|discriminate].
  unfold seed_or_empty.
  unfold loadTasks, parse, try_catch, bind, ret, throw, getItem. cbn [area_of]. rewrite En.
  fold BACKUP_KEY.
  unfold classify in Hc.
  destruct (String.eqb b "") eqn:Eb; [discriminate|].
  destruct (JSON_parse b) as [v|] eqn:Ep; [|discriminate].
  destruct (nonempty_array v) as [l'|] eqn:Ev; [|discriminate].
  destruct (setItem_refused Local _ _ w Hacc) as [e Hset].
  unfold classify in Hp.
  destruct (items (localStorage w) !! STORAGE_KEY) as [d|].
  - destruct (String.eqb d "").
    + cbv beta iota. rewrite Es, Hb, Eb, Ep, Ev. cbv beta iota. rewrite Hset. reflexivity.
    + destruct (JSON_parse d) as [v'|]; [|discriminate].
      destruct (nonempty_array v'); [discriminate|].
      cbv beta iota. rewrite Es, Hb, Eb, Ep, Ev. cbv beta iota. rewrite Hset. reflexivity.
  - cbv beta iota. rewrite Es, Hb, Eb, Ep, Ev. cbv beta iota. rewrite Hset. reflexivity.
Qed.

Lemma loadTasks_broken seed w :
  is_broken (primary w) = true -> loadTasks seed w = seed_or_empty seed w.
Proof.
  intros Hb.
  rewrite (loadTasks_seed seed w) by (unfold falls_to_seed; rewrite Hb; reflexivity).
  unfold seed_or_empty, try_catch, ret. rewrite Hb.
  destruct (seed w) as [[l|e] w']; reflexivity.
Qed.

Lemma primary_cases w :
  (exists l, primary w = Tasks l) \/ is_empty (primary w) = true \/ is_broken (primary w) = true.
Proof. destruct (primary w); simpl; eauto. Qed.

End AdminFacts.

(** * Imported tasks *)

Module ImportedFacts.
Import JSON Browser JSValue StorageJS StorageStates ImportVerdicts TaskShape.
Import TextFacts JSONFacts ParsedFacts ImportFacts.

Lemma is_string_field task k : is_string (get_prop task k) = true -> string_field task k.
Proof.
  unfold is_string, string_field.
  destruct (get_prop task k) as [[| | |s| |]|]; try discriminate. eauto.
Qed.

Lemma optional_field task k :
  undefined_or_string (get_prop task k) = true -> optional_string_field task k.
Proof.
  unfold undefined_or_string, optional_string_field.
  destruct (get_prop task k) as [v|] eqn:E; [|auto].
  intros H. right. apply is_string_field. rewrite E. exact H.
Qed.

(** What the validation checks, once it has said yes. *)
Lemma validated_well_typed task :
  validateTaskStructure task = Ret true -> well_typed task.
Proof.
  unfold validateTaskStructure. intros H.
  destruct (negb (truthy (Some task)) || negb (String.eqb (typeof (Some task)) "object"));
    [discriminate|].
  destruct (required_present task requiredFields) as [[|]|]; try discriminate.
  destruct (is_string (get_prop task "id")) eqn:E1; [|discriminate].
  destruct (is_string (get_prop task "title")) eqn:E2; [|discriminate].
  destruct (is_string (get_prop task "dueDate")) eqn:E3; [|discriminate].
  destruct (is_string (get_prop task "tag")) eqn:E4; [|discriminate].
  cbn [negb orb] in H.
  destruct (get_prop task "duration") as [[| |n| | |]|] eqn:E5; try discriminate.
  destruct (negative n) eqn:E6; [discriminate|].
  destruct (undefined_or_string (get_prop task "description")) eqn:E7; [|discriminate].
  destruct (undefined_or_string (get_prop task "createdAt")) eqn:E8; [|discriminate].
  destruct (undefined_or_string (get_prop task "updatedAt")) eqn:E9; [|discriminate].
  unfold well_typed.
  repeat split; try (apply is_string_field; assumption); try (apply optional_field; assumption).
  exists n. split; [exact E5|]. unfold negative in E6. apply Z.ltb_ge in E6. exact E6.
Qed.

Lemma filter_tasks_kept f l kept :
  filter_tasks f l = Ret kept -> Forall (fun t => f t = Ret true) kept.
Proof.
  revert kept. induction l as [|x l IH]; intros kept; simpl.
  - intros [= <-]. constructor.
  - destruct (f x) as [keep|] eqn:Ex; [|discriminate].
    destruct (filter_tasks f l) as [kept'|]; [|discriminate].
    intros [= <-]. destruct keep; [constructor|]; auto.
Qed.

(** Whatever the input, the tasks of the result went through the
    validation. *)
Lemma imported_validated s :
  Forall (fun t => validateTaskStructure t = Ret true) (tasks (importData s)).
Proof.
  unfold importData, import_try.
  destruct (JSON_parse s) as [data|]; [|constructor].
  destruct (negb (truthy (Some data)) || negb (String.eqb (typeof (Some data)) "object"));
    [constructor|].
  cbv zeta.
  destruct (get_prop data "tasks") as [[| | | |l|]|]; try constructor.
  destruct (filter_tasks validateTaskStructure l) as [kept|] eqn:E; [|constructor].
  cbn [tasks]. exact (filter_tasks_kept _ _ _ E).
Qed.

(** ** Export, then import *)


Lemma passes_all_decided l : forallb passes l = true -> all_decided l = true.
Proof.
  unfold all_decided. apply EmailShapeFacts.forallb_impl.
  intros x ->. reflexivity.
Qed.


End ImportedFacts.

(** * The properties of the specification *)

Import Regex EmailValidator JSON Browser JSValue StorageJS State.
Import EmailShape JSONText StorageStates ImportVerdicts Samples.

(** ** Email validation *)

(** C2, counterexample.  The address [a..b@x.com] has the form
    [local@domain.tld], its local part [a..b] contains a letter and its final
    label [com] is three letters, and yet the validator rejects it. *)
Lemma isValidEmail_rejects_claimed_form :
  "a..b@x.com" = str (address (chars "a..b") [chars "x"] (chars "com"))
  /\ existsb is_alpha (chars "a..b") = true
  /\ (2 <=? length (chars "com"))%nat = true
  /\ forallb is_alpha (chars "com") = true
  /\ isValidEmail "a..b@x.com" = false.
Proof. vm_compute. repeat split. Qed.

(** C2, amended.  Every address [local@label. ... .label.tld] of at most
    254 characters is accepted when the local part is 1 to 64 permitted
    characters with a letter among them, no dot at either end and no two dots
    in a row, every label is 1 to 63 letters, digits or hyphens with no hyphen
    at either end, and the final label is 2 to 63 letters; [12@gmail.com] and
    [a..b@x.com] are rejected. *)
Theorem isValidEmail_accepts_wellformed :
  (forall (local : text) (labels : list text) (tld : text),
      local_ok local = true ->
      labels <> [] ->
      forallb label_ok labels = true ->
      tld_ok tld = true ->
      (length (address local labels tld) <= 254)%nat ->
      isValidEmail (str (address local labels tld)) = true)
  /\ isValidEmail "12@gmail.com" = false
  /\ isValidEmail "a..b@x.com" = false.
Proof.
  split; [exact EmailShapeFacts.accepted|].
  split; vm_compute; reflexivity.
Qed.

Lemma isValidEmail_accepts_wellformed_witness :
  local_ok (chars "john.doe") = true
  /\ [chars "company"; chars "co"] <> []
  /\ forallb label_ok [chars "company"; chars "co"] = true
  /\ tld_ok (chars "uk") = true
  /\ (length (address (chars "john.doe") [chars "company"; chars "co"] (chars "uk")) <= 254)%nat
  /\ isValidEmail "john.doe@company.co.uk" = true.
Proof.
  assert (H1 : local_ok (chars "john.doe") = true) by (vm_compute; reflexivity).
  assert (H2 : [chars "company"; chars "co"] <> []) by discriminate.
  assert (H3 : forallb label_ok [chars "company"; chars "co"] = true) by (vm_compute; reflexivity).
  assert (H4 : tld_ok (chars "uk") = true) by (vm_compute; reflexivity).
  assert (H5 : (length (address (chars "john.doe") [chars "company"; chars "co"] (chars "uk"))
                <= 254)%nat) by (vm_compute; lia).
  split; [exact H1|]. split; [exact H2|]. split; [exact H3|].
  split; [exact H4|]. split; [exact H5|].
  exact (proj1 isValidEmail_accepts_wellformed _ _ _ H1 H2 H3 H4 H5).
Defined.

(** C10.  [getEmailValidationError] returns [null] exactly when
    [isValidEmail] returns [true]; whenever it returns a message,
    [isValidEmail] returns [false]. *)
Theorem getEmailValidationError_null_iff_valid (email : string) :
  (getEmailValidationError email = None <-> isValidEmail email = true)
  /\ (getEmailValidationError email <> None -> isValidEmail email = false).
Proof.
  assert (H : getEmailValidationError email = None <-> isValidEmail email = true).
  { split; [apply EmailFacts.error_null_valid | apply EmailFacts.valid_error_null]. }
  split; [exact H|].
  intros Hn. destruct (isValidEmail email) eqn:E; [|reflexivity].
  exfalso. apply Hn, H. reflexivity.
Qed.

Lemma getEmailValidationError_null_iff_valid_witness :
  isValidEmail "user@example.com" = true
  /\ getEmailValidationError "user@example.com" = None
  /\ getEmailValidationError "12@gmail.com" <> None
  /\ isValidEmail "12@gmail.com" = false.
Proof.
  assert (H1 : isValidEmail "user@example.com" = true) by (vm_compute; reflexivity).
  assert (H2 : getEmailValidationError "12@gmail.com" <> None) by (vm_compute; discriminate).
  split; [exact H1|].
  split; [exact (proj2 (proj1 (getEmailValidationError_null_iff_valid "user@example.com")) H1)|].
  split; [exact H2|].
  exact (proj2 (getEmailValidationError_null_iff_valid "12@gmail.com") H2).
Defined.

(** ** Saving and loading tasks *)

Lemma backup_to_session_keeps_primary : keeps_primary backup_to_session.
Proof. intros l w. apply StorageFacts.setItem_session_local. Qed.

(** C1, counterexample.  Saving the empty collection does not bring the
    empty collection back: [loadTasks] takes the stored empty array for "no
    tasks" and returns the older backup of the session store.  And when the
    primary write is refused, [loadTasks] returns the collection that was in
    the primary store before. *)
Lemma saveTasks_loadTasks_not_roundtrip :
  (result (saveTasks backup_to_session [] stale_world) = Ret true
   /\ result (loadTasks seed_fails (snd (saveTasks backup_to_session [] stale_world)))
      = Ret [taskA])
  /\ (result (saveTasks backup_to_session [taskA; taskB] tight_world) = Ret false
      /\ result (loadTasks seed_fails (snd (saveTasks backup_to_session [taskA; taskB] tight_world)))
         = Ret [taskB]).
Proof. vm_compute. repeat split. Qed.

(** C1, amended.  For every non-empty collection of tasks whose objects have
    distinct property names, if the primary store accepts the write and the
    backup helper leaves the primary store alone, [loadTasks] after
    [saveTasks] returns the collection. *)
Theorem saveTasks_loadTasks_roundtrip
    (seed : M (list json)) (backup : list json -> M unit)
    (tasks : list json) (w : World) :
  tasks <> [] ->
  wf (JArr tasks) = true ->
  accepts (localStorage w) STORAGE_KEY (JSON_stringify (JArr tasks)) = true ->
  keeps_primary backup ->
  result (loadTasks seed (snd (saveTasks backup tasks w))) = Ret tasks.
Proof.
  intros Hne Hwf Hacc Hkeep.
  pose proof (StorageFacts.saveTasks_primary_kept backup tasks w Hacc Hkeep) as Hk.
  unfold result. rewrite (StorageFacts.loadTasks_primary seed _ tasks); [reflexivity|].
  unfold primary, stored. cbn [area_of]. rewrite Hk.
  unfold written. cbn [area_of with_area localStorage enabled items].
  rewrite (StorageFacts.accepts_enabled _ _ _ Hacc), lookup_insert_eq.
  unfold classify. destruct tasks as [|x l]; [congruence|].
  rewrite StorageFacts.stringify_array_nonempty, JSONFacts.JSON_parse_stringify by exact Hwf.
  reflexivity.
Qed.

Lemma saveTasks_loadTasks_roundtrip_witness :
  [taskA; taskB] <> []
  /\ wf (JArr [taskA; taskB]) = true
  /\ accepts (localStorage fresh_world) STORAGE_KEY (JSON_stringify (JArr [taskA; taskB])) = true
  /\ keeps_primary backup_to_session
  /\ result (loadTasks seed_fails (snd (saveTasks backup_to_session [taskA; taskB] fresh_world)))
     = Ret [taskA; taskB].
Proof.
  assert (H1 : [taskA; taskB] <> []) by discriminate.
  assert (H2 : wf (JArr [taskA; taskB]) = true) by (vm_compute; reflexivity).
  assert (H3 : accepts (localStorage fresh_world) STORAGE_KEY
                 (JSON_stringify (JArr [taskA; taskB])) = true) by (vm_compute; reflexivity).
  split; [exact H1|]. split; [exact H2|]. split; [exact H3|].
  split; [exact backup_to_session_keeps_primary|].
  exact (saveTasks_loadTasks_roundtrip seed_fails backup_to_session [taskA; taskB] fresh_world
           H1 H2 H3 backup_to_session_keeps_primary).
Defined.

(** C4, counterexample.  With a damaged primary blob and a good backup in
    the session store, [loadTasks] skips the backup and returns the seed
    dataset; with a primary blob that is present and parses, but to the empty
    array, it does not return the primary blob. *)
Lemma loadTasks_skips_backup_on_parse_failure :
  primary corrupt_world = Unparseable
  /\ secondary corrupt_world = Tasks [taskA]
  /\ result (loadTasks (seed_of [taskB]) corrupt_world) = Ret [taskB]
  /\ JSON_parse "[]" = Some (JArr [])
  /\ result (loadTasks (seed_of [taskB]) emptied_world) = Ret [taskA].
Proof. vm_compute. repeat split. Qed.

(** C4, amended.  [loadTasks] never raises.  It returns the primary blob
    when that parses to a non-empty array.  When the primary blob is absent,
    empty, or parses to anything else, it returns the backup of the session
    store if that parses to a non-empty array and the primary store accepts
    the copy.  When a blob does not parse or a store cannot be read, or
    neither store holds a non-empty array, it returns the seed dataset, and
    the empty collection when the seed loader throws. *)
Theorem loadTasks_fallback_order (seed : M (list json)) (w : World) :
  (exists l w', loadTasks seed w = (Ret l, w'))
  /\ (forall l, primary w = Tasks l -> result (loadTasks seed w) = Ret l)
  /\ (forall l,
        is_empty (primary w) = true ->
        secondary w = Tasks l ->
        (forall b, items (sessionStorage w) !! BACKUP_KEY = Some b ->
                   accepts (localStorage w) STORAGE_KEY b = true) ->
        result (loadTasks seed w) = Ret l)
  /\ (falls_to_seed w = true ->
      (forall l w', seed w = (Ret l, w') -> result (loadTasks seed w) = Ret l)
      /\ (unavailable seed -> result (loadTasks seed w) = Ret [])).
Proof.
  split; [apply StorageFacts.loadTasks_never_throws|].
  split.
  { intros l H. unfold result. rewrite (StorageFacts.loadTasks_primary seed w l H). reflexivity. }
  split.
  { intros l Hp Hs Hacc. unfold secondary, stored in Hs. cbn [area_of] in Hs.
    destruct (enabled (sessionStorage w)) eqn:Es; [|discriminate].
    destruct (items (sessionStorage w) !! BACKUP_KEY) as [b|] eqn:Eb; [|discriminate].
    unfold result.
    rewrite (StorageFacts.loadTasks_secondary seed w l b Hp Es Eb Hs (Hacc b eq_refl)).
    reflexivity. }
  intros Hf. split.
  - intros l w' Hs. unfold result.
    rewrite (StorageFacts.loadTasks_seed_found seed w l w' Hf Hs). reflexivity.
  - intros Hu. apply StorageFacts.loadTasks_seed_missing; assumption.
Qed.

Lemma seed_fails_unavailable : unavailable seed_fails.
Proof. intros w. eexists. eexists. reflexivity. Qed.

Lemma loadTasks_fallback_order_witness :
  (primary saved_world = Tasks [taskA; taskB]
   /\ result (loadTasks seed_fails saved_world) = Ret [taskA; taskB])
  /\ (is_empty (primary emptied_world) = true
      /\ secondary emptied_world = Tasks [taskA]
      /\ result (loadTasks seed_fails emptied_world) = Ret [taskA])
  /\ (falls_to_seed corrupt_world = true
      /\ result (loadTasks (seed_of [taskB]) corrupt_world) = Ret [taskB]
      /\ result (loadTasks seed_fails corrupt_world) = Ret []).
Proof.
  assert (H1 : primary saved_world = Tasks [taskA; taskB]) by (vm_compute; reflexivity).
  assert (H2 : is_empty (primary emptied_world) = true) by (vm_compute; reflexivity).
  assert (H3 : secondary emptied_world = Tasks [taskA]) by (vm_compute; reflexivity).
  assert (H4 : forall b, items (sessionStorage emptied_world) !! BACKUP_KEY = Some b ->
                         accepts (localStorage emptied_world) STORAGE_KEY b = true).
  { intros b Hb. vm_compute in Hb. injection Hb as <-. vm_compute. reflexivity. }
  assert (H5 : falls_to_seed corrupt_world = true) by (vm_compute; reflexivity).
  split; [split; [exact H1|]|split; [split; [exact H2|split; [exact H3|]]|split; [exact H5|split]]].
  - exact (proj1 (proj2 (loadTasks_fallback_order seed_fails saved_world)) _ H1).
  - exact (proj1 (proj2 (proj2 (loadTasks_fallback_order seed_fails emptied_world))) _ H2 H3 H4).
  - exact (proj1 (proj2 (proj2 (proj2 (loadTasks_fallback_order (seed_of [taskB]) corrupt_world))) H5)
             [taskB] corrupt_world eq_refl).
  - exact (proj2 (proj2 (proj2 (proj2 (loadTasks_fallback_order seed_fails corrupt_world))) H5)
             seed_fails_unavailable).
Defined.

(** C5, the code at the failing input.  storage.js calls
    [createAutomaticBackup] without defining or importing it.  So for every
    collection that is not empty, after the primary store has accepted the
    write the call throws, the [catch] block runs, and [saveTasks] returns
    [false] although the collection is in the primary store. *)
Theorem saveTasks_false_after_primary_write (tasks : list json) (w : World) :
  tasks <> [] ->
  accepts (localStorage w) STORAGE_KEY (JSON_stringify (JArr tasks)) = true ->
  result (saveTasks createAutomaticBackup_unbound tasks w) = Ret false
  /\ items (localStorage (snd (saveTasks createAutomaticBackup_unbound tasks w))) !! STORAGE_KEY
     = Some (JSON_stringify (JArr tasks)).
Proof.
  intros Hne Hacc.
  assert (Hlen : (0 <? length tasks)%nat = true).
  { destruct tasks; [congruence | reflexivity]. }
  unfold saveTasks, createAutomaticBackup_unbound, try_catch, bind, ret, throw.
  rewrite (StorageFacts.setItem_written Local _ _ w Hacc), Hlen.
  set (w1 := written Local STORAGE_KEY (JSON_stringify (JArr tasks)) w).
  pose proof (StorageFacts.setItem_session_local
                (STORAGE_KEY +:+ "_backup") (JSON_stringify (JArr tasks)) w1) as Hloc.
  destruct (setItem Session (STORAGE_KEY +:+ "_backup") (JSON_stringify (JArr tasks)) w1)
    as [[u|e] w2]; cbn [snd fst result] in *; (split; [reflexivity|]);
    rewrite Hloc; cbn; apply lookup_insert_eq.
Qed.

Lemma saveTasks_false_after_primary_write_witness :
  [taskA] <> []
  /\ accepts (localStorage fresh_world) STORAGE_KEY (JSON_stringify (JArr [taskA])) = true
  /\ result (saveTasks createAutomaticBackup_unbound [taskA] fresh_world) = Ret false
  /\ items (localStorage (snd (saveTasks createAutomaticBackup_unbound [taskA] fresh_world)))
       !! STORAGE_KEY
     = Some (JSON_stringify (JArr [taskA])).
Proof.
  assert (H1 : [taskA] <> []) by discriminate.
  assert (H2 : accepts (localStorage fresh_world) STORAGE_KEY
                 (JSON_stringify (JArr [taskA])) = true) by (vm_compute; reflexivity).
  split; [exact H1|]. split; [exact H2|].
  exact (saveTasks_false_after_primary_write [taskA] fresh_world H1 H2).
Defined.

(** ** Settings and export *)

(** C8.  [loadSettings] never throws.  For a persisted blob that parses to an
    object it returns the defaults merged with the persisted properties:
    a persisted value overrides the default and an absent key keeps its
    default.  When nothing is persisted, or the blob does not parse, or the
    store cannot be read, it returns exactly the defaults. *)
Theorem loadSettings_merges_defaults (w : World) :
  (exists v w', loadSettings w = (Ret v, w'))
  /\ (forall d p,
        enabled (localStorage w) = true ->
        items (localStorage w) !! SETTINGS_KEY = Some d ->
        JSON_parse d = Some (JObj p) ->
        exists merged,
          loadSettings w = (Ret (JObj merged), w)
          /\ forall k,
               lookup_field k merged =
               match lookup_field k p with
               | Some v => Some v
               | None => lookup_field k defaults
               end)
  /\ (no_settings w -> loadSettings w = (Ret defaultSettings, w)).
Proof.
  split; [apply SettingsFacts.loadSettings_never_throws|].
  split; [|apply SettingsFacts.loadSettings_default].
  intros d p En Hd Hp. exists (set_fields p defaults).
  split; [apply (SettingsFacts.loadSettings_persisted w d p En Hd Hp)|].
  intros k. apply ObjectFacts.lookup_set_fields.
  apply (ParsedFacts.JSON_parse_object_nodup d). exact Hp.
Qed.

Lemma loadSettings_merges_defaults_witness :
  (exists merged,
      loadSettings settings_world = (Ret (JObj merged), settings_world)
      /\ lookup_field "durationCap" merged = Some (int 20)
      /\ lookup_field "timeUnit" merged = Some (JStr "hours")
      /\ lookup_field "reminderEmail" merged = Some (JStr "user@example.com"))
  /\ loadSettings fresh_world = (Ret defaultSettings, fresh_world).
Proof.
  split.
  - destruct (proj1 (proj2 (loadSettings_merges_defaults settings_world))
                (JSON_stringify (JObj partial_settings)) partial_settings
                eq_refl eq_refl eq_refl) as (merged & E & Hl).
    exists merged. split; [exact E|]. rewrite !Hl.
    split; [reflexivity|]. split; reflexivity.
  - apply (proj2 (proj2 (loadSettings_merges_defaults fresh_world))).
    right. left. reflexivity.
Defined.

(** C7.  For every task array and settings object, [exportData] prints a
    JSON text that parses to the envelope with exactly the fields [version]
    equal to ["1.0"], [exportedAt] equal to the timestamp, [tasks] equal to
    the given array and [settings] equal to the given object; the timestamp
    has the ISO-8601 format. *)
Theorem exportData_envelope (tasks : list json) (settings : json) (now : Date) :
  wf (JArr tasks) = true ->
  wf settings = true ->
  JSON_parse (exportData tasks settings now)
  = Some (JObj [("version", JStr "1.0");
                ("exportedAt", JStr (generateTimestamp now));
                ("tasks", JArr tasks);
                ("settings", settings)])
  /\ is_iso8601 (generateTimestamp now) = true.
Proof.
  intros Ht Hs. split; [|apply ExportFacts.generateTimestamp_iso].
  unfold exportData. apply JSONFacts.JSON_parse_stringify_indent.
  change (wf (JObj [("version", JStr "1.0");
                    ("exportedAt", JStr (generateTimestamp now));
                    ("tasks", JArr tasks);
                    ("settings", settings)]))
    with (bool_decide (NoDup ["version"; "exportedAt"; "tasks"; "settings"])
          && (true && (true && (wf (JArr tasks) && (wf settings && true))))).
  rewrite Ht, Hs. reflexivity.
Qed.

Lemma exportData_envelope_witness :
  wf (JArr [taskA; taskB]) = true
  /\ wf defaultSettings = true
  /\ JSON_parse (exportData [taskA; taskB] defaultSettings noon)
     = Some (JObj [("version", JStr "1.0");
                   ("exportedAt", JStr "2025-03-09T12:00:07.045Z");
                   ("tasks", JArr [taskA; taskB]);
                   ("settings", defaultSettings)]).
Proof.
  assert (H1 : wf (JArr [taskA; taskB]) = true) by (vm_compute; reflexivity).
  assert (H2 : wf defaultSettings = true) by (vm_compute; reflexivity).
  split; [exact H1|]. split; [exact H2|].
  exact (proj1 (exportData_envelope [taskA; taskB] defaultSettings noon H1 H2)).
Defined.

(** ** Import *)

(** C3, counterexample.  A batch whose tasks all pass the validation has no
    failing task, and the result has no errors entry at all, not one that
    reports zero skipped tasks. *)
Lemma importData_no_entry_when_none_skipped :
  length (List.filter fails [taskA; taskB]) = 0%nat
  /\ StorageJS.tasks (importData (JSON_stringify (JObj [("tasks", JArr [taskA; taskB])])))
     = [taskA; taskB]
  /\ errors (importData (JSON_stringify (JObj [("tasks", JArr [taskA; taskB])]))) = []
  /\ errors (importData (JSON_stringify (JObj [("tasks", JArr [taskA; taskB])])))
     <> [skipped_message 0].
Proof. vm_compute. repeat split. discriminate. Qed.

(** C3, amended.  For every batch whose [tasks] field is an array of N tasks
    that pass the per-task validation and M tasks that fail it, [importData]
    succeeds and accepts exactly the N valid tasks, in order; when M is
    positive its errors are the single entry reporting M skipped tasks, and
    when M is zero it reports no error. *)
Theorem importData_accepts_valid_reports_skipped
    (s : string) (fs : list (string * json)) (l : list json) :
  JSON_parse s = Some (JObj fs) ->
  lookup_field "tasks" fs = Some (JArr l) ->
  all_decided l = true ->
  success (importData s) = true
  /\ StorageJS.tasks (importData s) = List.filter passes l
  /\ (length (List.filter passes l) + length (List.filter fails l) = length l)%nat
  /\ errors (importData s) =
     if (0 <? length (List.filter fails l))%nat
     then [skipped_message (length (List.filter fails l))]
     else [].
Proof.
  intros Hp Ht Hd. rewrite (ImportFacts.importData_array fs l s Hp Ht Hd).
  cbn [success StorageJS.tasks errors]. repeat split.
  pose proof (ImportFacts.skipped_count l Hd).
  pose proof (List.filter_length_le passes l). lia.
Qed.

Lemma importData_accepts_valid_reports_skipped_witness :
  all_decided [taskA; badTask; JNull; taskB] = true
  /\ StorageJS.tasks
       (importData (JSON_stringify (JObj [("tasks", JArr [taskA; badTask; JNull; taskB])])))
     = [taskA; taskB]
  /\ errors
       (importData (JSON_stringify (JObj [("tasks", JArr [taskA; badTask; JNull; taskB])])))
     = ["2 tasks were skipped due to invalid structure"].
Proof.
  assert (H : all_decided [taskA; badTask; JNull; taskB] = true) by (vm_compute; reflexivity).
  split; [exact H|].
  destruct (importData_accepts_valid_reports_skipped
              (JSON_stringify (JObj [("tasks", JArr [taskA; badTask; JNull; taskB])]))
              [("tasks", JArr [taskA; badTask; JNull; taskB])]
              [taskA; badTask; JNull; taskB]
              eq_refl eq_refl H) as (_ & -> & _ & ->).
  split; vm_compute; reflexivity.
Defined.

(** C6, the code at the failing input.  A task record with an own property
    named [hasOwnProperty] makes the validation throw, and the whole batch is
    rejected, the valid task beside it included. *)
Theorem importData_rejects_batch_for_one_record :
  importData (jtext "{'tasks':[{'hasOwnProperty':1}]}")
  = {| success := false; tasks := []; settings := None;
       errors := ["task.hasOwnProperty is not a function"] |}
  /\ passes taskA = true
  /\ importData (JSON_stringify
                   (JObj [("tasks", JArr [taskA; JObj [("hasOwnProperty", int 1)]])]))
     = {| success := false; tasks := []; settings := None;
          errors := ["task.hasOwnProperty is not a function"] |}.
Proof. vm_compute. repeat split. Qed.

(** ** The add action *)

(** C9, the code at the failing input.  [generateId] builds the identifier
    from [Date.now()] and the first nine base-36 digits of [Math.random()]
    and from nothing else.  Two calls in the same millisecond whose random
    numbers agree in those nine digits return the same identifier, and two
    add actions with these readings put two tasks with one id in the
    collection. *)
Theorem generateId_repeats_on_equal_readings :
  generateId 1700000000000 "0.4fzyo82mvyr" = "task_1700000000000_4fzyo82mv"
  /\ generateId 1700000000000 "0.4fzyo82mvzz" = "task_1700000000000_4fzyo82mv"
  /\ map task_id (addTasks [(payloadA, readings 1700000000000 "0.4fzyo82mvyr");
                            (payloadA, readings 1700000000000 "0.4fzyo82mvzz")])
     = [Some (JStr "task_1700000000000_4fzyo82mv");
        Some (JStr "task_1700000000000_4fzyo82mv")]
  /\ ~ NoDup (map task_id (addTasks [(payloadA, readings 1700000000000 "0.4fzyo82mvyr");
                                     (payloadA, readings 1700000000000 "0.4fzyo82mvzz")])).
Proof.
  assert (E : map task_id (addTasks [(payloadA, readings 1700000000000 "0.4fzyo82mvyr");
                                     (payloadA, readings 1700000000000 "0.4fzyo82mvzz")])
              = [Some (JStr "task_1700000000000_4fzyo82mv");
                 Some (JStr "task_1700000000000_4fzyo82mv")]) by (vm_compute; reflexivity).
  split; [vm_compute; reflexivity|]. split; [vm_compute; reflexivity|].
  split; [exact E|]. rewrite E. intros H.
  apply NoDup_cons in H as [H _]. apply H. left.
Qed.

(** * Further properties of the two modules *)

Import EmailHelpers EmailInput StorageAdmin.
Import EmailNotions StorageNotions TaskShape MoreSamples.

(** ** The email validator *)

(** X1.  [isValidEmail] accepts exactly the addresses that, once trimmed,
    read [local@label. ... .label.tld] in at most 254 characters, with a
    local part of 1 to 64 permitted characters that has a letter, no dot at
    either end and no two dots in a row, labels of 1 to 63 letters, digits or
    hyphens with no hyphen at either end, and a final label of 2 to 63
    letters. *)
Theorem isValidEmail_exactly_wellformed (email : string) :
  isValidEmail email = true <->
  exists local labels tld,
    trim (chars email) = address local labels tld
    /\ local_ok local = true
    /\ labels <> []
    /\ forallb label_ok labels = true
    /\ tld_ok tld = true
    /\ (length (address local labels tld) <= 254)%nat.
Proof.
  split; [apply ValidShapeFacts.valid_shape|].
  intros (local & labels & tld & Hx & Hl & Hne & Hlabs & Ht & Hlen).
  rewrite <- EmailFacts.isValidEmail_trimmed, Hx.
  apply EmailShapeFacts.accepted; assumption.
Qed.

Lemma isValidEmail_exactly_wellformed_witness :
  isValidEmail " jane.roe@mail.example.org " = true
  /\ exists local labels tld,
       trim (chars " jane.roe@mail.example.org ") = address local labels tld
       /\ local_ok local = true
       /\ labels <> []
       /\ forallb label_ok labels = true
       /\ tld_ok tld = true
       /\ (length (address local labels tld) <= 254)%nat.
Proof.
  assert (H : isValidEmail " jane.roe@mail.example.org " = true) by (vm_compute; reflexivity).
  split; [exact H|].
  exact (proj1 (isValidEmail_exactly_wellformed " jane.roe@mail.example.org ") H).
Defined.

(** X2.  Sanitizing is idempotent, and a sanitized address consists of
    permitted characters only, none of them an upper-case letter. *)
Theorem sanitizeEmail_idempotent (email : string) :
  sanitizeEmail (sanitizeEmail email) = sanitizeEmail email
  /\ Forall (fun c => email_char c = true /\ is_upper c = false) (chars (sanitizeEmail email)).
Proof.
  split; [apply SanitizeFacts.sanitizeEmail_twice | apply SanitizeFacts.sanitizeEmail_chars].
Qed.

(** X3.  An address that [isValidEmail] accepts is sanitized to its trimmed,
    lower-case form and nothing is deleted from it; the sanitized address is
    accepted as well. *)
Theorem sanitizeEmail_keeps_valid (email : string) :
  isValidEmail email = true ->
  chars (sanitizeEmail email) = toLowerCase (trim (chars email))
  /\ isValidEmail (sanitizeEmail email) = true.
Proof. apply SanitizeFacts.sanitize_valid. Qed.

Lemma sanitizeEmail_keeps_valid_witness :
  isValidEmail "  John.Doe@Example.COM " = true
  /\ sanitizeEmail "  John.Doe@Example.COM " = "john.doe@example.com"
  /\ isValidEmail (sanitizeEmail "  John.Doe@Example.COM ") = true.
Proof.
  assert (H : isValidEmail "  John.Doe@Example.COM " = true) by (vm_compute; reflexivity).
  split; [exact H|]. split; [vm_compute; reflexivity|].
  exact (proj2 (sanitizeEmail_keeps_valid "  John.Doe@Example.COM " H)).
Defined.

(** X4.  White space before and after an address changes neither the
    verdict of [isValidEmail] nor the message of
    [getEmailValidationError]. *)
Theorem validation_ignores_surrounding_space (pre post : text) (email : string) :
  forallb is_js_space pre = true ->
  forallb is_js_space post = true ->
  isValidEmail (str (pre ++ chars email ++ post)) = isValidEmail email
  /\ getEmailValidationError (str (pre ++ chars email ++ post))
     = getEmailValidationError email.
Proof.
  intros Hpre Hpost. split.
  - rewrite <- EmailFacts.isValidEmail_trimmed, (PaddingFacts.padded_trim _ _ _ Hpre Hpost).
    apply EmailFacts.isValidEmail_trimmed.
  - rewrite <- PaddingFacts.getEmailValidationError_trimmed,
      (PaddingFacts.padded_trim _ _ _ Hpre Hpost).
    apply PaddingFacts.getEmailValidationError_trimmed.
Qed.

Lemma validation_ignores_surrounding_space_witness :
  forallb is_js_space (chars "  ") = true
  /\ forallb is_js_space [newline] = true
  /\ isValidEmail (str (chars "  " ++ chars "a..b@x.com" ++ [newline])) = isValidEmail "a..b@x.com"
  /\ getEmailValidationError (str (chars "  " ++ chars "a..b@x.com" ++ [newline]))
     = Some "Local part cannot contain consecutive dots".
Proof.
  assert (H1 : forallb is_js_space (chars "  ") = true) by reflexivity.
  assert (H2 : forallb is_js_space [newline] = true) by reflexivity.
  split; [exact H1|]. split; [exact H2|].
  destruct (validation_ignores_surrounding_space (chars "  ") [newline] "a..b@x.com" H1 H2)
    as [E1 E2].
  split; [exact E1|]. rewrite E2. vm_compute. reflexivity.
Defined.

(** X5.  A suggestion of [suggestEmailDomain] is the text before the first
    [@] followed by [@] and one of the common domains, one that starts with
    the lower-cased text typed after the [@]; that text is not empty and has
    no dot.  When the text before the [@] is a well-formed local part, the
    suggestion is an address that [isValidEmail] accepts. *)
Theorem suggestEmailDomain_sound (email suggestion : string) :
  suggestEmailDomain email = Some suggestion ->
  exists local typed rest common,
    split_on "@" (chars email) = local :: typed :: rest
    /\ typed <> []
    /\ includes (chars ".") typed = false
    /\ In common COMMON_EMAIL_DOMAINS
    /\ starts_with (toLowerCase typed) (chars common) = true
    /\ suggestion = str (local ++ chars "@" ++ chars common)
    /\ (local_ok local = true -> isValidEmail suggestion = true).
Proof.
  intros H.
  destruct (SuggestFacts.suggestion_parts email suggestion H)
    as (local & typed & rest & common & Hs & Ht & Hd & Hin & Hst & ->).
  exists local, typed, rest, common.
  repeat (split; [assumption|]). split; [reflexivity|].
  intros Hl. apply SuggestFacts.suggestion_valid; assumption.
Qed.

Lemma suggestEmailDomain_sound_witness :
  suggestEmailDomain "jane.roe@Y" = Some "jane.roe@yahoo.com"
  /\ exists local typed rest common,
       split_on "@" (chars "jane.roe@Y") = local :: typed :: rest
       /\ typed <> []
       /\ includes (chars ".") typed = false
       /\ In common COMMON_EMAIL_DOMAINS
       /\ starts_with (toLowerCase typed) (chars common) = true
       /\ "jane.roe@yahoo.com" = str (local ++ chars "@" ++ chars common)
       /\ (local_ok local = true -> isValidEmail "jane.roe@yahoo.com" = true).
Proof.
  assert (H : suggestEmailDomain "jane.roe@Y" = Some "jane.roe@yahoo.com")
    by (vm_compute; reflexivity).
  split; [exact H|].
  exact (suggestEmailDomain_sound "jane.roe@Y" "jane.roe@yahoo.com" H).
Defined.

(** X6.  Nothing is suggested for an address that [isValidEmail] accepts. *)
Theorem suggestEmailDomain_none_for_valid (email : string) :
  isValidEmail email = true -> suggestEmailDomain email = None.
Proof. apply SuggestFacts.valid_no_suggestion. Qed.

Lemma suggestEmailDomain_none_for_valid_witness :
  isValidEmail " jane@gmail.com" = true /\ suggestEmailDomain " jane@gmail.com" = None.
Proof.
  assert (H : isValidEmail " jane@gmail.com" = true) by (vm_compute; reflexivity).
  split; [exact H|]. exact (suggestEmailDomain_none_for_valid " jane@gmail.com" H).
Defined.

(** X7.  For an input element that is there, [validateEmailInput] returns
    the verdict of [isValidEmail] on its value and leaves the value alone.
    Afterwards the element has the class [success] exactly when the value is
    valid and the class [error] exactly when it is not, and its other classes
    are as before; a message element that is there shows the message of
    [getEmailValidationError], or is emptied and hidden when there is none. *)
Theorem validateEmailInput_reflects_validity
    (input : InputElement) (errorElement : option MessageElement) :
  exists after,
    validateEmailInput (Some input) errorElement
    = (isValidEmail (value input), Some after,
       match errorElement with
       | None => None
       | Some _ =>
           Some match getEmailValidationError (value input) with
                | Some message => {| textContent := message; display := "block" |}
                | None => {| textContent := ""; display := "none" |}
                end
       end)
    /\ value after = value input
    /\ (In "success" (classList after) <-> isValidEmail (value input) = true)
    /\ (In "error" (classList after) <-> isValidEmail (value input) = false)
    /\ (forall t, t <> "error" -> t <> "success" ->
          (In t (classList after) <-> In t (classList input))).
Proof.
  unfold validateEmailInput. cbv zeta. rewrite InputFacts.shown_error.
  destruct (getEmailValidationError (value input)) as [m|] eqn:E.
  - assert (Hv : isValidEmail (value input) = false).
    { destruct (isValidEmail (value input)) eqn:V; [|reflexivity].
      rewrite (EmailFacts.valid_error_null _ V) in E. discriminate. }
    rewrite Hv. eexists. split; [destruct errorElement; reflexivity|].
    cbn [set_classes value classList]. split; [reflexivity|].
    rewrite !InputFacts.in_classList_remove, !InputFacts.in_classList_add.
    split; [split; [intros [? _]; congruence | discriminate]|].
    split; [split; [reflexivity | intros _; split; [discriminate | left; reflexivity]]|].
    intros t H1 H2. rewrite InputFacts.in_classList_remove, InputFacts.in_classList_add.
    split; [intros [_ [? | ?]]; [contradiction | assumption] | intros ?; split; auto].
  - rewrite (EmailFacts.error_null_valid _ E).
    eexists. split; [destruct errorElement; reflexivity|].
    cbn [set_classes value classList]. split; [reflexivity|].
    rewrite !InputFacts.in_classList_add, !InputFacts.in_classList_remove.
    split; [split; [reflexivity | intros _; left; reflexivity]|].
    split; [split; [intros [? | [? _]]; [discriminate | congruence] | discriminate]|].
    intros t H1 H2. rewrite InputFacts.in_classList_add, InputFacts.in_classList_remove.
    split; [intros [? | [_ ?]]; [contradiction | assumption] | intros ?; right; split; auto].
Qed.

Lemma validateEmailInput_reflects_validity_witness :
  exists after,
    validateEmailInput (Some (email_field "user@example.com")) (Some email_message)
    = (true, Some after, Some {| textContent := ""; display := "none" |})
    /\ classList after = ["form-input"; "success"].
Proof.
  destruct (validateEmailInput_reflects_validity
              (email_field "user@example.com") (Some email_message)) as (after & E & _).
  exists after. vm_compute in E. injection E as <-. split; reflexivity.
Defined.

(** ** Settings *)

(** X8.  When the primary store accepts the write, [saveSettings] returns
    [true] and [loadSettings] then returns the saved settings over the
    defaults: every saved property is read back and every other property has
    its default value.  When the store refuses the write, [saveSettings]
    returns [false] and changes nothing. *)
Theorem saveSettings_loadSettings_roundtrip (p : list (string * json)) (w : World) :
  wf (JObj p) = true ->
  (accepts (localStorage w) SETTINGS_KEY (JSON_stringify (JObj p)) = true ->
   exists merged w',
     saveSettings (JObj p) w = (Ret true, w')
     /\ loadSettings w' = (Ret (JObj merged), w')
     /\ forall k,
          lookup_field k merged =
          match lookup_field k p with
          | Some v => Some v
          | None => lookup_field k defaults
          end)
  /\ (accepts (localStorage w) SETTINGS_KEY (JSON_stringify (JObj p)) = false ->
      saveSettings (JObj p) w = (Ret false, w)).
Proof.
  intros Hwf. split; [|apply AdminFacts.saveSettings_refused].
  intros Hacc. exists (set_fields p defaults). eexists.
  split; [apply AdminFacts.saveSettings_accepted; exact Hacc|].
  split; [apply AdminFacts.loadSettings_written; assumption|].
  intros k. apply ObjectFacts.lookup_set_fields.
  apply AdminFacts.wf_object_nodup. exact Hwf.
Qed.

Lemma saveSettings_loadSettings_roundtrip_witness :
  wf (JObj partial_settings) = true
  /\ accepts (localStorage fresh_world) SETTINGS_KEY (JSON_stringify (JObj partial_settings)) = true
  /\ exists merged w',
       saveSettings (JObj partial_settings) fresh_world = (Ret true, w')
       /\ loadSettings w' = (Ret (JObj merged), w')
       /\ lookup_field "durationCap" merged = Some (int 20)
       /\ lookup_field "goalAlerts" merged = Some (JBool true).
Proof.
  assert (H1 : wf (JObj partial_settings) = true) by (vm_compute; reflexivity).
  assert (H2 : accepts (localStorage fresh_world) SETTINGS_KEY
                 (JSON_stringify (JObj partial_settings)) = true) by (vm_compute; reflexivity).
  split; [exact H1|]. split; [exact H2|].
  destruct (proj1 (saveSettings_loadSettings_roundtrip partial_settings fresh_world H1) H2)
    as (merged & w' & Es & El & Hk).
  exists merged, w'. split; [exact Es|]. split; [exact El|].
  rewrite !Hk. split; reflexivity.
Defined.

(** X9.  Whatever the storage holds, [loadSettings] returns an object that
    has every one of the six default settings. *)
Theorem loadSettings_keeps_default_keys (w : World) :
  exists fs,
    loadSettings w = (Ret (JObj fs), w)
    /\ Forall (fun k => lookup_field k fs <> None)
         ["timeUnit"; "dateFormat"; "dueReminders"; "goalAlerts"; "durationCap";
          "caseSensitiveSearch"].
Proof.
  destruct (AdminFacts.loadSettings_cases w) as [E | [v E]]; rewrite E.
  - exists defaults. split; [reflexivity|]. repeat constructor; discriminate.
  - eexists. split; [reflexivity|].
    repeat constructor; apply AdminFacts.set_fields_keeps; discriminate.
Qed.

(** ** Clearing *)

(** X10.  [clearAllData] never throws.  With an accessible primary store it
    returns [true], the task blob and the settings blob are gone, and every
    other entry of the primary store and the whole session store are as
    before; with an inaccessible store it returns [false] and changes
    nothing.  Either way [loadSettings] afterwards returns the defaults. *)
Theorem clearAllData_removes_both_keys (w : World) :
  exists w',
    clearAllData w = (Ret (enabled (localStorage w)), w')
    /\ sessionStorage w' = sessionStorage w
    /\ (enabled (localStorage w) = true ->
        items (localStorage w') !! STORAGE_KEY = None
        /\ items (localStorage w') !! SETTINGS_KEY = None)
    /\ (forall k, k <> STORAGE_KEY -> k <> SETTINGS_KEY ->
          items (localStorage w') !! k = items (localStorage w) !! k)
    /\ loadSettings w' = (Ret defaultSettings, w').
Proof.
  destruct (enabled (localStorage w)) eqn:En.
  - exists (cleared w). split; [apply AdminFacts.clearAllData_enabled; exact En|].
    split; [reflexivity|]. split.
    { intros _. split; [apply AdminFacts.cleared_tasks | apply AdminFacts.cleared_settings]. }
    split; [intros k; apply AdminFacts.cleared_other|].
    apply SettingsFacts.loadSettings_default. right. left. apply AdminFacts.cleared_settings.
  - exists w. split; [apply AdminFacts.clearAllData_disabled; exact En|].
    split; [reflexivity|]. split; [discriminate|]. split; [reflexivity|].
    apply SettingsFacts.loadSettings_default. left. exact En.
Qed.

Lemma clearAllData_removes_both_keys_witness :
  exists w',
    clearAllData backed_up_world = (Ret true, w')
    /\ items (localStorage w') !! STORAGE_KEY = None
    /\ items (sessionStorage w') !! BACKUP_KEY = Some (JSON_stringify (JArr [taskA])).
Proof.
  destruct (clearAllData_removes_both_keys backed_up_world) as (w' & E & Hs & Hk & _).
  exists w'. split; [exact E|]. split; [exact (proj1 (Hk eq_refl))|].
  rewrite Hs. reflexivity.
Defined.

(** X11.  [clearAllData] leaves the backup of the session store, so the
    tasks come back: when that backup holds a non-empty array and the cleared
    primary store accepts a copy of it, [loadTasks] after [clearAllData]
    returns the tasks of the backup. *)
Theorem clearAllData_leaves_session_backup
    (seed : M (list json)) (w : World) (l : list json) (b : string) :
  enabled (localStorage w) = true ->
  enabled (sessionStorage w) = true ->
  items (sessionStorage w) !! BACKUP_KEY = Some b ->
  classify (Some b) = Tasks l ->
  accepts (localStorage (cleared w)) STORAGE_KEY b = true ->
  result (clearAllData w) = Ret true
  /\ result (loadTasks seed (snd (clearAllData w))) = Ret l.
Proof.
  intros En Es Hb Hc Hacc.
  rewrite (AdminFacts.clearAllData_enabled w En). split; [reflexivity|].
  cbn [snd]. unfold result.
  rewrite (StorageFacts.loadTasks_secondary seed (cleared w) l b); try assumption.
  - reflexivity.
  - rewrite (AdminFacts.cleared_primary w En). reflexivity.
Qed.

Lemma clearAllData_leaves_session_backup_witness :
  enabled (localStorage backed_up_world) = true
  /\ enabled (sessionStorage backed_up_world) = true
  /\ items (sessionStorage backed_up_world) !! BACKUP_KEY = Some (JSON_stringify (JArr [taskA]))
  /\ classify (Some (JSON_stringify (JArr [taskA]))) = Tasks [taskA]
  /\ accepts (localStorage (cleared backed_up_world)) STORAGE_KEY
       (JSON_stringify (JArr [taskA])) = true
  /\ result (clearAllData backed_up_world) = Ret true
  /\ result (loadTasks (seed_of []) (snd (clearAllData backed_up_world))) = Ret [taskA].
Proof.
  assert (H1 : enabled (localStorage backed_up_world) = true) by reflexivity.
  assert (H2 : enabled (sessionStorage backed_up_world) = true) by reflexivity.
  assert (H3 : items (sessionStorage backed_up_world) !! BACKUP_KEY
               = Some (JSON_stringify (JArr [taskA]))) by (vm_compute; reflexivity).
  assert (H4 : classify (Some (JSON_stringify (JArr [taskA]))) = Tasks [taskA])
    by (vm_compute; reflexivity).
  assert (H5 : accepts (localStorage (cleared backed_up_world)) STORAGE_KEY
                 (JSON_stringify (JArr [taskA])) = true) by (vm_compute; reflexivity).
  split; [exact H1|]. split; [exact H2|]. split; [exact H3|]. split; [exact H4|].
  split; [exact H5|].
  exact (clearAllData_leaves_session_backup (seed_of []) backed_up_world [taskA] _
           H1 H2 H3 H4 H5).
Defined.

(** ** Tasks and the session backup *)

(** X12.  When [loadTasks] falls back to the backup of the session store it
    also repairs the primary store: the backup blob is then the primary blob,
    the session store is as before, and loading again returns the same tasks
    from the primary store. *)
Theorem loadTasks_restores_primary_from_backup
    (seed : M (list json)) (w : World) (l : list json) (b : string) :
  is_empty (primary w) = true ->
  enabled (sessionStorage w) = true ->
  items (sessionStorage w) !! BACKUP_KEY = Some b ->
  classify (Some b) = Tasks l ->
  accepts (localStorage w) STORAGE_KEY b = true ->
  exists w',
    loadTasks seed w = (Ret l, w')
    /\ items (localStorage w') !! STORAGE_KEY = Some b
    /\ primary w' = Tasks l
    /\ sessionStorage w' = sessionStorage w
    /\ loadTasks seed w' = (Ret l, w').
Proof.
  intros Hp Es Hb Hc Hacc. exists (written Local STORAGE_KEY b w).
  assert (Hi : items (localStorage (written Local STORAGE_KEY b w)) !! STORAGE_KEY = Some b).
  { cbn. apply lookup_insert_eq. }
  assert (Hn : primary (written Local STORAGE_KEY b w) = Tasks l).
  { unfold primary, stored. cbn [area_of]. rewrite Hi. cbn.
    rewrite (StorageFacts.accepts_enabled _ _ _ Hacc). exact Hc. }
  split; [apply StorageFacts.loadTasks_secondary; assumption|].
  split; [exact Hi|]. split; [exact Hn|]. split; [reflexivity|].
  apply StorageFacts.loadTasks_primary. exact Hn.
Qed.

Lemma loadTasks_restores_primary_from_backup_witness :
  is_empty (primary emptied_world) = true
  /\ enabled (sessionStorage emptied_world) = true
  /\ items (sessionStorage emptied_world) !! BACKUP_KEY = Some (JSON_stringify (JArr [taskA]))
  /\ classify (Some (JSON_stringify (JArr [taskA]))) = Tasks [taskA]
  /\ accepts (localStorage emptied_world) STORAGE_KEY (JSON_stringify (JArr [taskA])) = true
  /\ exists w',
       loadTasks seed_fails emptied_world = (Ret [taskA], w')
       /\ items (localStorage w') !! STORAGE_KEY = Some (JSON_stringify (JArr [taskA]))
       /\ primary w' = Tasks [taskA]
       /\ sessionStorage w' = sessionStorage emptied_world
       /\ loadTasks seed_fails w' = (Ret [taskA], w').
Proof.
  assert (H1 : is_empty (primary emptied_world) = true) by (vm_compute; reflexivity).
  assert (H2 : enabled (sessionStorage emptied_world) = true) by reflexivity.
  assert (H3 : items (sessionStorage emptied_world) !! BACKUP_KEY
               = Some (JSON_stringify (JArr [taskA]))) by (vm_compute; reflexivity).
  assert (H4 : classify (Some (JSON_stringify (JArr [taskA]))) = Tasks [taskA])
    by (vm_compute; reflexivity).
  assert (H5 : accepts (localStorage emptied_world) STORAGE_KEY
                 (JSON_stringify (JArr [taskA])) = true) by (vm_compute; reflexivity).
  split; [exact H1|]. split; [exact H2|]. split; [exact H3|]. split; [exact H4|].
  split; [exact H5|].
  exact (loadTasks_restores_primary_from_backup seed_fails emptied_world [taskA] _
           H1 H2 H3 H4 H5).
Defined.

(** X13.  When the primary store refuses the write of a non-empty
    collection and the session store takes the fallback copy, a later
    [loadTasks] does not read that copy back.  It returns the older tasks of
    the primary store when there are any; otherwise copying the backup to the
    primary store is refused as well, and the result is that of the seed
    loader, or the empty collection when the seed loader throws. *)
Theorem saveTasks_refused_then_loadTasks
    (seed : M (list json)) (backup : list json -> M unit)
    (tasks : list json) (w : World) :
  tasks <> [] ->
  wf (JArr tasks) = true ->
  accepts (localStorage w) STORAGE_KEY (JSON_stringify (JArr tasks)) = false ->
  accepts (sessionStorage w) BACKUP_KEY (JSON_stringify (JArr tasks)) = true ->
  items (sessionStorage (snd (saveTasks backup tasks w))) !! BACKUP_KEY
  = Some (JSON_stringify (JArr tasks))
  /\ (forall older, primary w = Tasks older ->
        result (loadTasks seed (snd (saveTasks backup tasks w))) = Ret older)
  /\ ((forall older, primary w <> Tasks older) ->
      loadTasks seed (snd (saveTasks backup tasks w))
      = seed_or_empty seed (snd (saveTasks backup tasks w))).
Proof.
  intros Hne Hwf Hl Hs.
  rewrite (StorageFacts.saveTasks_primary_refused backup tasks w Hl), Hs. cbn [snd].
  set (blob := JSON_stringify (JArr tasks)) in *.
  set (w' := written Session BACKUP_KEY blob w).
  assert (Hb : items (sessionStorage w') !! BACKUP_KEY = Some blob).
  { cbn. apply lookup_insert_eq. }
  assert (Hp : primary w' = primary w) by reflexivity.
  split; [exact Hb|]. split.
  - intros older Ho. unfold result.
    rewrite (StorageFacts.loadTasks_primary seed w' older); [reflexivity|].
    rewrite Hp. exact Ho.
  - intros Hno.
    destruct (AdminFacts.primary_cases w') as [[older Ho] | [He | Hbr]].
    + rewrite Hp in Ho. destruct (Hno older Ho).
    + apply (AdminFacts.loadTasks_restore_refused seed w' tasks blob He).
      * cbn. exact (StorageFacts.accepts_enabled _ _ _ Hs).
      * exact Hb.
      * unfold classify, blob. destruct tasks as [|x r]; [congruence|].
        rewrite StorageFacts.stringify_array_nonempty, JSONFacts.JSON_parse_stringify
          by exact Hwf.
        reflexivity.
      * exact Hl.
    + apply AdminFacts.loadTasks_broken. exact Hbr.
Qed.

Lemma saveTasks_refused_then_loadTasks_witness :
  [taskA] <> []
  /\ wf (JArr [taskA]) = true
  /\ accepts (localStorage primary_full_world) STORAGE_KEY (JSON_stringify (JArr [taskA])) = false
  /\ accepts (sessionStorage primary_full_world) BACKUP_KEY (JSON_stringify (JArr [taskA])) = true
  /\ (forall older, primary primary_full_world <> Tasks older)
  /\ result (loadTasks (seed_of [taskB]) (snd (saveTasks backup_to_session [taskA] primary_full_world)))
     = Ret [taskB].
Proof.
  assert (H1 : [taskA] <> []) by discriminate.
  assert (H2 : wf (JArr [taskA]) = true) by (vm_compute; reflexivity).
  assert (H3 : accepts (localStorage primary_full_world) STORAGE_KEY
                 (JSON_stringify (JArr [taskA])) = false) by (vm_compute; reflexivity).
  assert (H4 : accepts (sessionStorage primary_full_world) BACKUP_KEY
                 (JSON_stringify (JArr [taskA])) = true) by (vm_compute; reflexivity).
  assert (H5 : forall older, primary primary_full_world <> Tasks older).
  { intros older. vm_compute. discriminate. }
  split; [exact H1|]. split; [exact H2|]. split; [exact H3|]. split; [exact H4|].
  split; [exact H5|].
  rewrite (proj2 (proj2 (saveTasks_refused_then_loadTasks (seed_of [taskB]) backup_to_session
                           [taskA] primary_full_world H1 H2 H3 H4)) H5).
  reflexivity.
Defined.

(** ** Import and export *)

(** X14.  Whatever text [importData] is given, every task of its result has
    passed the validation: its [id], [title], [dueDate] and [tag] are strings,
    its [duration] is a number that is not negative, and its [description],
    [createdAt] and [updatedAt] are strings where they are present. *)
Theorem importData_tasks_well_typed (jsonString : string) :
  Forall well_typed (StorageJS.tasks (importData jsonString)).
Proof.
  eapply Forall_impl; [apply ImportedFacts.imported_validated|].
  intros t. apply ImportedFacts.validated_well_typed.
Qed.



(** ** Identifiers *)

(** X16.  Two identifiers of [generateId] are equal exactly when they were
    made from the same [Date.now()] reading and the same nine characters
    after the [0.] of the random number's base-36 text. *)
Theorem generateId_equal_iff (now now' : N) (random36 random36' : string) :
  generateId now random36 = generateId now' random36'
  <-> now = now' /\ substr 2 9 (chars random36) = substr 2 9 (chars random36').
Proof.
  split; [apply AddFacts.generateId_inj|].
  intros [-> E]. unfold generateId. rewrite E. reflexivity.
Qed.

Lemma generateId_equal_iff_witness :
  generateId 1700000000000 "0.4fzyo82mvyr" = generateId 1700000000000 "0.4fzyo82mvzz"
  /\ generateId 1700000000000 "0.4fzyo82mvyr" <> generateId 1700000000001 "0.4fzyo82mvyr".
Proof.
  split.
  - apply (proj2 (generateId_equal_iff 1700000000000 1700000000000
                    "0.4fzyo82mvyr" "0.4fzyo82mvzz")).
    split; reflexivity.
  - intros E.
    apply (proj1 (generateId_equal_iff 1700000000000 1700000000001
                    "0.4fzyo82mvyr" "0.4fzyo82mvyr")) in E.
    destruct E as [E _]. discriminate E.
Defined.
